(** * Gauge: concept expansion, specification items and the spec index caches

    A shallow embedding of four pieces of the Gauge sources:

    - package [gauge], file specification.go: the [Specification] item list,
      concept expansion ([processConceptStep], [createConceptStep],
      [PopulateConceptLookup]) and item removal ([removeItem], [Filter]);
    - package [infoGatherer], file specDetails.go: the specs, concepts and
      steps caches and the handlers of file events;
    - package [lang]: the scenario query [getScenarioAt];
    - package [main]: the plugin handler, the plugins of a project and the
      console writer.

    Go pointers to steps are addresses into an explicit store, Go maps are
    finite maps, and a run-time panic is an explicit outcome. *)

From Stdlib Require Import ZArith.
From stdpp Require Import base option list gmap strings pretty.

Local Open Scope Z_scope.

(** ** Outcomes of a Go call *)

Inductive outcome (A : Type) : Type :=
| Returns (a : A)   (* the call returns normally *)
| Panics            (* run-time panic: nil dereference, index out of range *)
| OutOfFuel.        (* the recursion budget of the model is exhausted *)
Arguments Returns {A} a.
Arguments Panics {A}.
Arguments OutOfFuel {A}.

Definition outcome_bind {A B} (o : outcome A) (k : A → outcome B) : outcome B :=
  match o with
  | Returns a => k a
  | Panics => Panics
  | OutOfFuel => OutOfFuel
  end.

(** Go's [error] interface value; [None] is [nil]. *)
Definition error : Type := string.

(** Slice expressions and indexing with Go's bounds checks. *)
Definition index {A} (l : list A) (i : Z) : outcome A :=
  if decide (0 ≤ i) then
    match l !! Z.to_nat i with
    | Some x => Returns x
    | None => Panics
    end
  else Panics.

(** [l[:i]] *)
Definition slice_to {A} (l : list A) (i : Z) : outcome (list A) :=
  if decide (0 ≤ i ≤ Z.of_nat (length l)) then Returns (take (Z.to_nat i) l)
  else Panics.

(** [l[i:]] *)
Definition slice_from {A} (l : list A) (i : Z) : outcome (list A) :=
  if decide (0 ≤ i ≤ Z.of_nat (length l)) then Returns (drop (Z.to_nat i) l)
  else Panics.

(** Go's [int] is taken to be 64 bits wide; addition wraps around. *)
Definition int_min : Z := - 2 ^ 63.
Definition int_max : Z := 2 ^ 63 - 1.
Definition int_wrap (z : Z) : Z := (z + 2 ^ 63) `mod` 2 ^ 64 - 2 ^ 63.
Definition int_add (a b : Z) : Z := int_wrap (a + b).

(** ** Package gauge (specification.go) *)

Module gauge.

(** *** Tokens and the small item types (specification.go) *)

Inductive TokenKind : Type :=
| SpecKind | TagKind | ScenarioKind | CommentKind | StepKind | TableHeader
| TableRow | HeadingKind | TableKind | DataTableKind | TearDownKind.

Global Instance TokenKind_eq_dec : EqDecision TokenKind.
Proof. solve_decision. Defined.

Definition SpecHeading : Z := 0.
Definition ScenarioHeading : Z := 1.

Record Heading : Type := mkHeading {
  Heading_Value : string;
  Heading_LineNo : Z;
  Heading_HeadingType : Z
}.

Record Comment : Type := mkComment {
  Comment_Value : string;
  Comment_LineNo : Z
}.

Record TearDown : Type := mkTearDown {
  TearDown_LineNo : Z;
  TearDown_Value : string
}.

Record Tags : Type := mkTags {
  Tags_RawValues : list (list string)
}.

(** *** Step arguments and the argument lookup

    The types [Table], [StepArg], [ArgLookup] and [Step] and their methods
    are declared in files of package gauge other than specification.go. *)

(** Modelled from the spec: the kinds of argument of a step; the type
    [ArgType] is not in specification.go. *)
Inductive ArgType : Type :=
| Static | Dynamic | TableArg | SpecialString | SpecialTable.

(** Modelled from the spec: [Table], the header and the rows of a data
    table; the type is not in specification.go. *)
Record Table : Type := mkTable {
  Table_Headers : list string;
  Table_Rows : list (list string);
  Table_LineNo : Z
}.

(** Modelled from the spec: [StepArg], an argument value, with the four
    fields that [PopulateConceptLookup] copies; the type is not in
    specification.go. *)
Record StepArg : Type := mkStepArg {
  StepArg_Name : string;
  StepArg_Value : string;
  StepArg_ArgType : ArgType;
  StepArg_Table : Table
}.

(** Modelled from the spec: a row of the argument lookup, a parameter name
    and the value bound to it, if any; the type is missing from src/. *)
Record paramNameValue : Type := mkParamNameValue {
  pnv_name : string;
  pnv_stepArg : option StepArg
}.

(** Modelled from the spec: [ArgLookup], missing from src/, the "ordered,
    name-keyed table binding parameter names to argument values": an index
    per declared name and the rows in declaration order. *)
Record ArgLookup : Type := mkArgLookup {
  ParamIndexMap : gmap string nat;
  paramValue : list paramNameValue
}.

(** The zero value of [ArgLookup]: no name declared. *)
Definition emptyLookup : ArgLookup := mkArgLookup ∅ [].

(** Modelled from the spec: [ArgLookup.AddArgName], missing from src/,
    declares a parameter name: a new row, unbound. *)
Definition AddArgName (lookup : ArgLookup) (argName : string) : ArgLookup :=
  mkArgLookup (<[argName := length (paramValue lookup)]> (ParamIndexMap lookup))
              (paramValue lookup ++ [mkParamNameValue argName None]).

(** Modelled from the spec: [ArgLookup.AddArgValue], missing from src/,
    binds a declared name; an undeclared name is an error, and the lookup is
    left as it was. *)
Definition AddArgValue (lookup : ArgLookup) (param : string) (stepArg : StepArg)
  : outcome (ArgLookup * option error) :=
  match ParamIndexMap lookup !! param with
  | None => Returns (lookup, Some "Accessing an invalid parameter"%string)
  | Some paramIndex =>
      match paramValue lookup !! paramIndex with
      | None => Panics
      | Some row =>
          Returns (mkArgLookup (ParamIndexMap lookup)
                     (<[paramIndex := mkParamNameValue (pnv_name row) (Some stepArg)]>
                        (paramValue lookup)),
                   None)
      end
  end.

(** Modelled from the spec: [ArgLookup.GetArg], missing from src/, the value
    bound to a name: [inr] for an undeclared name, [inl None] for a declared
    name that is not bound yet. *)
Definition GetArg (lookup : ArgLookup) (param : string)
  : outcome (option StepArg + error) :=
  match ParamIndexMap lookup !! param with
  | None => Returns (inr "Accessing an invalid parameter"%string)
  | Some paramIndex =>
      match paramValue lookup !! paramIndex with
      | None => Panics
      | Some row => Returns (inl (pnv_stepArg row))
      end
  end.

(** [PopulateConceptLookup] (specification.go, lines 200-208).  The lookup
    is passed by pointer in Go; here the updated lookup is returned together
    with the error, also when the loop stops at an error.  [conceptArgs[i]]
    is a checked index. *)
Fixpoint PopulateConceptLookup_from (i : nat) (lookup : ArgLookup)
    (conceptArgs : list StepArg) (stepArgs : list StepArg)
  : outcome (ArgLookup * option error) :=
  match stepArgs with
  | [] => Returns (lookup, None)
  | arg :: rest =>
      let stepArg := mkStepArg (StepArg_Name arg) (StepArg_Value arg)
                               (StepArg_ArgType arg) (StepArg_Table arg) in
      match conceptArgs !! i with
      | None => Panics
      | Some conceptArg =>
          match AddArgValue lookup (StepArg_Value conceptArg) stepArg with
          | Returns (lookup', None) =>
              PopulateConceptLookup_from (S i) lookup' conceptArgs rest
          | Returns (lookup', Some err) => Returns (lookup', Some err)
          | Panics => Panics
          | OutOfFuel => OutOfFuel
          end
      end
  end.

Definition PopulateConceptLookup (lookup : ArgLookup)
    (conceptArgs stepArgs : list StepArg) : outcome (ArgLookup * option error) :=
  PopulateConceptLookup_from 0 lookup conceptArgs stepArgs.

(** *** Steps and the store of step objects

    A pointer to a step is an address; nested steps and the parent are
    addresses, so that two holders of one pointer see one object. *)

Definition addr : Type := positive.

(** Modelled from the spec: [Step], missing from src/, carries "text value,
    normalized signature, line number, ordered list of call-site arguments,
    flag marking whether it resolves to a concept, the expanded nested step
    list, an Argument Lookup scoped to this invocation, and a non-owning
    back-reference to the enclosing invocation". *)
Record Step : Type := mkStep {
  Step_LineNo : Z;
  Step_Value : string;
  Step_LineText : string;
  Step_Args : list StepArg;
  Step_IsConcept : bool;
  Step_Lookup : ArgLookup;
  Step_ConceptSteps : list addr;
  Step_Parent : option addr
}.

Definition set_Args (args : list StepArg) (s : Step) : Step :=
  mkStep (Step_LineNo s) (Step_Value s) (Step_LineText s) args
         (Step_IsConcept s) (Step_Lookup s) (Step_ConceptSteps s) (Step_Parent s).

Definition set_Lookup (lookup : ArgLookup) (s : Step) : Step :=
  mkStep (Step_LineNo s) (Step_Value s) (Step_LineText s) (Step_Args s)
         (Step_IsConcept s) lookup (Step_ConceptSteps s) (Step_Parent s).

Definition set_ConceptSteps (steps : list addr) (s : Step) : Step :=
  mkStep (Step_LineNo s) (Step_Value s) (Step_LineText s) (Step_Args s)
         (Step_IsConcept s) (Step_Lookup s) steps (Step_Parent s).

Definition set_Parent (parent : option addr) (s : Step) : Step :=
  mkStep (Step_LineNo s) (Step_Value s) (Step_LineText s) (Step_Args s)
         (Step_IsConcept s) (Step_Lookup s) (Step_ConceptSteps s) parent.

Abbreviation heap := (gmap addr Step).

(** Computations on the store that may panic. *)
Definition M (A : Type) : Type := heap → outcome (A * heap).

Global Instance M_ret : MRet M := λ A a h, Returns (a, h).
Global Instance M_bind : MBind M := λ A B k m h,
  match m h with
  | Returns (a, h') => k a h'
  | Panics => Panics
  | OutOfFuel => OutOfFuel
  end.

Definition panic {A} : M A := λ _, Panics.
Definition out_of_fuel {A} : M A := λ _, OutOfFuel.

(** Reading through [p]; a pointer that holds no object is nil. *)
Definition deref (p : addr) : M Step := λ h,
  match h !! p with
  | Some s => Returns (s, h)
  | None => Panics
  end.

(** An assignment to fields of the object that [p] points to. *)
Definition modify (p : addr) (f : Step → Step) : M unit := λ h,
  match h !! p with
  | Some s => Returns (tt, <[p := f s]> h)
  | None => Panics
  end.

(** [new(Step)] initialised with [s]. *)
Definition alloc (s : Step) : M addr := λ h,
  let p := fresh (dom h) in Returns (p, <[p := s]> h).

(** [for _, x := range xs { body x }] for a body without early exit. *)
Fixpoint for_each {A} (body : A → M unit) (xs : list A) : M unit :=
  match xs with
  | [] => mret tt
  | x :: rest => body x ;; for_each body rest
  end.

(** Modelled from the spec: the loop of [Step.GetCopy] over the nested
    steps, which stops at the first error. *)
Fixpoint GetCopy_nested (copy : addr → M (addr + error)) (steps : list addr)
  : M (list addr + error) :=
  match steps with
  | [] => mret (inl [])
  | nestedStep :: rest =>
      r ← copy nestedStep;
      match r with
      | inr err => mret (inr err)
      | inl nestedStepCopy =>
          rs ← GetCopy_nested copy rest;
          match rs with
          | inr err => mret (inr err)
          | inl copies => mret (inl (nestedStepCopy :: copies))
          end
      end
  end.

(** Modelled from the spec: [Step.GetCopy], missing from src/, "deep-copy
    the concept's body so each invocation owns an independent tree".  Every
    step of the tree is copied into a new object; the lookup is a value and
    is copied with the object.  The recursion follows addresses, so it takes
    a budget: any budget above the depth of the tree is enough. *)
Fixpoint GetCopy (fuel : nat) (step : addr) : M (addr + error) :=
  match fuel with
  | O => out_of_fuel
  | S fuel' =>
      s ← deref step;
      r ← GetCopy_nested (GetCopy fuel') (Step_ConceptSteps s);
      match r with
      | inr err => mret (inr err)
      | inl nestedStepsCopy =>
          copiedConceptStep ← alloc (set_ConceptSteps nestedStepsCopy s);
          mret (inl copiedConceptStep)
      end
  end.

(** Modelled from the spec: [Step.CopyFrom], missing from src/, overwrites
    the fields of the step with those of [another], the call-site arguments
    included (which is why [createConceptStep] saves and restores them). *)
Definition CopyFrom (step another : addr) : M unit :=
  a ← deref another;
  modify step (λ _, a).

(** *** The concept dictionary *)

(** Modelled from the spec: [Concept], missing from src/; specDetails.go
    reads its fields [ConceptStep] and [FileName]. *)
Record Concept : Type := mkConcept {
  Concept_ConceptStep : addr;
  Concept_FileName : string
}.

(** Modelled from the spec: [ConceptDictionary], missing from src/, the
    "mapping from normalized root-step signature to Concept";
    specDetails.go reads its field [ConceptsMap]. *)
Record ConceptDictionary : Type := mkConceptDictionary {
  ConceptsMap : gmap string Concept
}.

(** Modelled from the spec: [NewConceptDictionary], missing from src/, the
    dictionary without entries. *)
Definition NewConceptDictionary : ConceptDictionary := mkConceptDictionary ∅.

(** Modelled from the spec: [ConceptDictionary.Search], missing from src/,
    the concept stored under a signature, or nil. *)
Definition Search (dict : ConceptDictionary) (stepValue : string) : option Concept :=
  ConceptsMap dict !! stepValue.

(** *** Concept expansion (specification.go, lines 88-111) *)

(** [createConceptStep] (lines 95-111).  Go hands [PopulateConceptLookup] a
    pointer to the lookup of [originalStep]; here the lookup that comes back
    is written into the step, also when an error comes with it. *)
Definition createConceptStep (fuel : nat) (concept originalStep : addr)
  : M (option error) :=
  r ← GetCopy fuel concept;
  match r with
  | inr err => mret (Some err)
  | inl stepCopy =>
      o ← deref originalStep;
      let originalArgs := Step_Args o in
      CopyFrom originalStep stepCopy;;
      modify originalStep (set_Args originalArgs);;
      o ← deref originalStep;
      for_each (λ conceptStep, modify conceptStep (set_Parent (Some originalStep)))
               (Step_ConceptSteps o);;
      c ← deref concept;
      o ← deref originalStep;
      match PopulateConceptLookup (Step_Lookup o) (Step_Args c) (Step_Args o) with
      | Returns (lookup, err) =>
          modify originalStep (set_Lookup lookup);; mret err
      | Panics => panic
      | OutOfFuel => out_of_fuel
      end
  end.

(** [processConceptStep] (lines 88-93). *)
Definition processConceptStep (fuel : nat) (step : addr)
    (conceptDictionary : ConceptDictionary) : M (option error) :=
  s ← deref step;
  match Search conceptDictionary (Step_Value s) with
  | Some conceptFromDictionary =>
      createConceptStep fuel (Concept_ConceptStep conceptFromDictionary) step
  | None => mret None
  end.

(** *** Scenarios, items and the specification (specification.go) *)

(** Modelled from the spec: the source span of a scenario, its first and
    last line; the type is missing from src/. *)
Record Span : Type := mkSpan {
  Span_Start : Z;
  Span_End : Z
}.

(** Modelled from the spec: [Scenario], missing from src/, "heading, ordered
    steps, ordered items", with its span.  The list of items is left out:
    none of the functions below reads it. *)
Record Scenario : Type := mkScenario {
  Scenario_Heading : Heading;
  Scenario_Steps : list addr;
  Scenario_Span : Span
}.

(** Modelled from the spec: [Scenario.InSpan], missing from src/, "the
    scenario whose source span contains that line". *)
Definition InSpan (scenario : Scenario) (lineNumber : Z) : bool :=
  bool_decide (Span_Start (Scenario_Span scenario) ≤ lineNumber
               ∧ lineNumber ≤ Span_End (Scenario_Span scenario)).

(** Modelled from the spec: [DataTable], missing from src/; specification.go
    reads its field [Table]. *)
Record DataTable : Type := mkDataTable {
  DataTable_Table : Table
}.

(** The [Item] interface as a closed variant; [Kind] is the method of each
    implementation, as the type switch of [Traverse] pairs them.  A
    [Specification] is an [Item] too (of [SpecKind]), but none is ever put
    into a list of items, so the variant has no case for it. *)
Inductive Item : Type :=
| ItemScenario (scenario : Scenario)
| ItemStep (step : addr)
| ItemComment (comment : Comment)
| ItemTable (table : Table)
| ItemTags (tags : Tags)
| ItemTearDown (t : TearDown)
| ItemDataTable (dataTable : DataTable)
| ItemHeading (heading : Heading).

Definition Kind (item : Item) : TokenKind :=
  match item with
  | ItemScenario _ => ScenarioKind
  | ItemStep _ => StepKind
  | ItemComment _ => CommentKind
  | ItemTable _ => TableKind
  | ItemTags _ => TagKind
  | ItemTearDown _ => TearDownKind
  | ItemDataTable _ => DataTableKind
  | ItemHeading _ => HeadingKind
  end.

Record Specification : Type := mkSpecification {
  Spec_Heading : option Heading;
  Spec_Scenarios : list Scenario;
  Spec_Comments : list Comment;
  Spec_DataTable : DataTable;
  Spec_Contexts : list addr;
  Spec_FileName : string;
  Spec_Tags : option Tags;
  Spec_Items : list Item;
  Spec_TearDownSteps : list addr
}.

Definition set_Scenarios (scenarios : list Scenario) (spec : Specification) : Specification :=
  mkSpecification (Spec_Heading spec) scenarios (Spec_Comments spec)
    (Spec_DataTable spec) (Spec_Contexts spec) (Spec_FileName spec)
    (Spec_Tags spec) (Spec_Items spec) (Spec_TearDownSteps spec).

Definition set_Comments (comments : list Comment) (spec : Specification) : Specification :=
  mkSpecification (Spec_Heading spec) (Spec_Scenarios spec) comments
    (Spec_DataTable spec) (Spec_Contexts spec) (Spec_FileName spec)
    (Spec_Tags spec) (Spec_Items spec) (Spec_TearDownSteps spec).

Definition set_Contexts (contexts : list addr) (spec : Specification) : Specification :=
  mkSpecification (Spec_Heading spec) (Spec_Scenarios spec) (Spec_Comments spec)
    (Spec_DataTable spec) contexts (Spec_FileName spec)
    (Spec_Tags spec) (Spec_Items spec) (Spec_TearDownSteps spec).

Definition set_Tags (tags : option Tags) (spec : Specification) : Specification :=
  mkSpecification (Spec_Heading spec) (Spec_Scenarios spec) (Spec_Comments spec)
    (Spec_DataTable spec) (Spec_Contexts spec) (Spec_FileName spec)
    tags (Spec_Items spec) (Spec_TearDownSteps spec).

Definition set_Items (items : list Item) (spec : Specification) : Specification :=
  mkSpecification (Spec_Heading spec) (Spec_Scenarios spec) (Spec_Comments spec)
    (Spec_DataTable spec) (Spec_Contexts spec) (Spec_FileName spec)
    (Spec_Tags spec) items (Spec_TearDownSteps spec).

(** [ProcessConceptStepsFrom] (lines 67-86): each loop stops at the first
    error. *)
Fixpoint processConceptSteps (fuel : nat) (steps : list addr)
    (conceptDictionary : ConceptDictionary) : M (option error) :=
  match steps with
  | [] => mret None
  | step :: rest =>
      err ← processConceptStep fuel step conceptDictionary;
      match err with
      | Some e => mret (Some e)
      | None => processConceptSteps fuel rest conceptDictionary
      end
  end.

Fixpoint processScenarios (fuel : nat) (scenarios : list Scenario)
    (conceptDictionary : ConceptDictionary) : M (option error) :=
  match scenarios with
  | [] => mret None
  | scenario :: rest =>
      err ← processConceptSteps fuel (Scenario_Steps scenario) conceptDictionary;
      match err with
      | Some e => mret (Some e)
      | None => processScenarios fuel rest conceptDictionary
      end
  end.

Definition ProcessConceptStepsFrom (fuel : nat) (spec : Specification)
    (conceptDictionary : ConceptDictionary) : M (option error) :=
  err ← processConceptSteps fuel (Spec_Contexts spec) conceptDictionary;
  match err with
  | Some e => mret (Some e)
  | None =>
      err ← processScenarios fuel (Spec_Scenarios spec) conceptDictionary;
      match err with
      | Some e => mret (Some e)
      | None => processConceptSteps fuel (Spec_TearDownSteps spec) conceptDictionary
      end
  end.

Definition AddItem (itemToAdd : Item) (spec : Specification) : Specification :=
  set_Items (Spec_Items spec ++ [itemToAdd]) spec.

Definition AddScenario (scenario : Scenario) (spec : Specification) : Specification :=
  AddItem (ItemScenario scenario)
          (set_Scenarios (Spec_Scenarios spec ++ [scenario]) spec).

Definition AddContext (contextStep : addr) (spec : Specification) : Specification :=
  AddItem (ItemStep contextStep)
          (set_Contexts (Spec_Contexts spec ++ [contextStep]) spec).

Definition AddComment (comment : Comment) (spec : Specification) : Specification :=
  AddItem (ItemComment comment)
          (set_Comments (Spec_Comments spec ++ [comment]) spec).

Definition AddTags (tags : Tags) (spec : Specification) : Specification :=
  AddItem (ItemTags tags) (set_Tags (Some tags) spec).

Definition GetSpecItems (spec : Specification) : list Item :=
  filter (λ item, Kind item ≠ ScenarioKind) (Spec_Items spec).

(** [reflect.DeepEqual] on two [*Scenario]: a library function, taken as a
    parameter.  All that is used of it is that a scenario is deeply equal to
    itself. *)
Class DeepEq : Type := {
  DeepEqual : Scenario → Scenario → bool;
  DeepEqual_refl : ∀ scenario, DeepEqual scenario scenario = true
}.

(** The item predicate of the [SpecItemFilter] interface. *)
Class SpecItemFilter : Type := {
  filter_Filter : Item → bool
}.

Section removal.
Context `{DeepEq}.

(** [getIndexFor] (lines 292-299): the first deeply equal scenario, or -1. *)
Fixpoint getIndexFor_from (index : Z) (scenario : Scenario)
    (scenarios : list Scenario) : Z :=
  match scenarios with
  | [] => -1
  | anItem :: rest =>
      if DeepEqual scenario anItem then index
      else getIndexFor_from (index + 1) scenario rest
  end.

Definition getIndexFor (scenario : Scenario) (scenarios : list Scenario) : Z :=
  getIndexFor_from 0 scenario scenarios.

(** The three-way slicing that [removeItem] and [removeScenario] share. *)
Definition remove_at {A} (l : list A) (i : Z) : outcome (list A) :=
  if decide (Z.of_nat (length l) - 1 = i) then slice_to l i
  else if decide (i = 0) then slice_from l (i + 1)
  else outcome_bind (slice_to l i) (λ front,
       outcome_bind (slice_from l (i + 1)) (λ back,
       Returns (front ++ back))).

(** [removeScenario] (lines 189-198). *)
Definition removeScenario (scenario : Scenario) (spec : Specification)
  : outcome Specification :=
  let index := getIndexFor scenario (Spec_Scenarios spec) in
  outcome_bind (remove_at (Spec_Scenarios spec) index) (λ scenarios,
  Returns (set_Scenarios scenarios spec)).

(** [removeItem] (lines 175-187).  The conversion of the item to a scenario
    is a checked type assertion. *)
Definition removeItem (itemIndex : Z) (spec : Specification)
  : outcome Specification :=
  outcome_bind (index (Spec_Items spec) itemIndex) (λ item,
  outcome_bind (remove_at (Spec_Items spec) itemIndex) (λ items,
  let spec := set_Items items spec in
  if decide (Kind item = ScenarioKind) then
    match item with
    | ItemScenario scenario => removeScenario scenario spec
    | _ => Panics
    end
  else Returns spec)).

(** [Filter] (lines 283-290).  Every turn of the loop either removes an item
    or moves [i] forward, so [len(spec.Items) - i] turns are enough. *)
Fixpoint Filter_from `{SpecItemFilter} (fuel : nat) (i : Z) (spec : Specification)
  : outcome Specification :=
  if decide (i < Z.of_nat (length (Spec_Items spec))) then
    match fuel with
    | O => OutOfFuel
    | S fuel' =>
        outcome_bind (index (Spec_Items spec) i) (λ item,
        if filter_Filter item then
          outcome_bind (removeItem i spec) (λ spec,
          Filter_from fuel' (i - 1 + 1) spec)
        else Filter_from fuel' (i + 1) spec)
    end
  else Returns spec.

Definition Filter `{SpecItemFilter} (spec : Specification) : outcome Specification :=
  Filter_from (length (Spec_Items spec)) 0 spec.

End removal.

(** Modelled from the spec: [StepValue], missing from src/, "the
    deduplicated, placeholder-normalized signature of a step, used as
    catalogue identity"; the field [StepValue] is the key of the steps
    cache. *)
Record StepValue : Type := mkStepValue {
  StepValue_Args : list string;
  StepValue_StepValue : string;
  StepValue_ParameterizedStepValue : string
}.

(** *** The other functions of specification.go *)

Definition set_Heading (heading : option Heading) (spec : Specification) : Specification :=
  mkSpecification heading (Spec_Scenarios spec) (Spec_Comments spec)
    (Spec_DataTable spec) (Spec_Contexts spec) (Spec_FileName spec)
    (Spec_Tags spec) (Spec_Items spec) (Spec_TearDownSteps spec).

Definition set_DataTable (dataTable : DataTable) (spec : Specification) : Specification :=
  mkSpecification (Spec_Heading spec) (Spec_Scenarios spec) (Spec_Comments spec)
    dataTable (Spec_Contexts spec) (Spec_FileName spec)
    (Spec_Tags spec) (Spec_Items spec) (Spec_TearDownSteps spec).

(** [AddHeading] (lines 121-124): the heading becomes a specification
    heading. *)
Definition AddHeading (heading : Heading) (spec : Specification) : Specification :=
  set_Heading
    (Some (mkHeading (Heading_Value heading) (Heading_LineNo heading) SpecHeading))
    spec.

(** [AddDataTable] and [AddExternalDataTable] (lines 141-149). *)
Definition AddDataTable (table : Table) (spec : Specification) : Specification :=
  let spec := set_DataTable (mkDataTable table) spec in
  AddItem (ItemDataTable (Spec_DataTable spec)) spec.

Definition AddExternalDataTable (externalTable : DataTable) (spec : Specification)
  : Specification :=
  AddItem (ItemDataTable externalTable) (set_DataTable externalTable spec).

(** [Tags.Add] and [Tags.Values] (lines 333-342). *)
Definition Tags_Add (values : list string) (tags : Tags) : Tags :=
  mkTags (Tags_RawValues tags ++ [values]).

Definition Tags_Values (tags : Tags) : list string :=
  foldl (λ val row, val ++ row) [] (Tags_RawValues tags).

(** [NTags] (lines 156-161). *)
Definition NTags (spec : Specification) : Z :=
  match Spec_Tags spec with
  | None => 0
  | Some tags => Z.of_nat (length (Tags_Values tags))
  end.

(** [LatestScenario], [LatestContext] and [LatestTeardown] (lines 163-173):
    the last element, by a checked index. *)
Definition LatestScenario (spec : Specification) : outcome Scenario :=
  index (Spec_Scenarios spec) (Z.of_nat (length (Spec_Scenarios spec)) - 1).

Definition LatestContext (spec : Specification) : outcome addr :=
  index (Spec_Contexts spec) (Z.of_nat (length (Spec_Contexts spec)) - 1).

Definition LatestTeardown (spec : Specification) : outcome addr :=
  index (Spec_TearDownSteps spec) (Z.of_nat (length (Spec_TearDownSteps spec)) - 1).

End gauge.

(** ** Package infoGatherer (specDetails.go) *)

Module infoGatherer.
Import gauge.

(** Modelled from the spec: [ParseResult] of package parser, missing from
    src/, which "carries an ok flag and an error". *)
Record ParseError : Type := mkParseError {
  ParseError_Message : string;
  ParseError_LineNo : Z
}.

Record ParseResult : Type := mkParseResult {
  ParseResult_Error : option ParseError;
  ParseResult_Ok : bool
}.

(** The parser is an external collaborator: what it returns for a file is a
    parameter.  The file system is part of it, so an unchanged file is parsed
    to the same result. *)
Class Parser : Type := {
  ParseSpecFiles : list string → ConceptDictionary
                   → list Specification * list ParseResult;
  ParseFile : string → list addr * option ParseResult;
  CreateStepValue : Step → StepValue
}.

(** The gatherer without its wait group and mutex: every handler below is
    taken as running alone. *)
Record SpecInfoGatherer : Type := mkSpecInfoGatherer {
  conceptDictionary : option ConceptDictionary;
  specsCache : gmap string (list Specification);
  conceptsCache : gmap string (list Concept);
  stepsCache : gmap string StepValue;
  SpecDirs : list string
}.

Definition set_conceptDictionary (d : option ConceptDictionary)
    (s : SpecInfoGatherer) : SpecInfoGatherer :=
  mkSpecInfoGatherer d (specsCache s) (conceptsCache s) (stepsCache s) (SpecDirs s).

Definition set_specsCache (c : gmap string (list Specification))
    (s : SpecInfoGatherer) : SpecInfoGatherer :=
  mkSpecInfoGatherer (conceptDictionary s) c (conceptsCache s) (stepsCache s) (SpecDirs s).

Definition set_conceptsCache (c : gmap string (list Concept))
    (s : SpecInfoGatherer) : SpecInfoGatherer :=
  mkSpecInfoGatherer (conceptDictionary s) (specsCache s) c (stepsCache s) (SpecDirs s).

Definition set_stepsCache (c : gmap string StepValue)
    (s : SpecInfoGatherer) : SpecInfoGatherer :=
  mkSpecInfoGatherer (conceptDictionary s) (specsCache s) (conceptsCache s) c (SpecDirs s).

(** [addToSpecsCache] (lines 108-115): the value is appended to the list
    stored under the key; a missing key reads as the nil slice. *)
Definition addToSpecsCache (key : string) (value : Specification)
    (s : SpecInfoGatherer) : SpecInfoGatherer :=
  set_specsCache (<[key := default [] (specsCache s !! key) ++ [value]]> (specsCache s)) s.

(** [addToConceptsCache] (lines 117-124). *)
Definition addToConceptsCache (key : string) (value : Concept)
    (s : SpecInfoGatherer) : SpecInfoGatherer :=
  set_conceptsCache
    (<[key := default [] (conceptsCache s !! key) ++ [value]]> (conceptsCache s)) s.

(** [addToStepsCache] (lines 126-134): a step is stored under its signature
    only when the signature has no entry yet. *)
Definition addStep (cache : gmap string StepValue) (step : StepValue)
  : gmap string StepValue :=
  match cache !! StepValue_StepValue step with
  | Some _ => cache
  | None => <[StepValue_StepValue step := step]> cache
  end.

Definition addToStepsCache (allSteps : list StepValue) (s : SpecInfoGatherer)
  : SpecInfoGatherer :=
  set_stepsCache (foldl addStep (stepsCache s) allSteps) s.

(** [GetAvailableSpecs] and [GetAvailableSteps] (lines 325-348).  Go ranges
    over a map in an unspecified order; the order of [map_to_list] stands for
    it, and the theorems speak of the results up to permutation. *)
Definition GetAvailableSpecs (s : SpecInfoGatherer) : list Specification :=
  concat ((map_to_list (specsCache s)).*2).

Definition GetAvailableSteps (s : SpecInfoGatherer) : list StepValue :=
  (map_to_list (stepsCache s)).*2.

Section handlers.
Context `{Parser}.
(** The store in which the parsed steps live; the gatherer only reads it. *)
Variable σ : heap.

(** [getParsedSpecs] (lines 136-143); [handleParseFailures] only logs. *)
Definition getParsedSpecs (specFiles : list string) (s : SpecInfoGatherer)
  : list Specification * SpecInfoGatherer :=
  let s := match conceptDictionary s with
           | None => set_conceptDictionary (Some NewConceptDictionary) s
           | Some _ => s
           end in
  let dict := default NewConceptDictionary (conceptDictionary s) in
  ((ParseSpecFiles specFiles dict).1, s).

(** [getParsedStepValues] (lines 378-387). *)
Fixpoint getParsedStepValues (steps : list addr) : outcome (list StepValue) :=
  match steps with
  | [] => Returns []
  | step :: rest =>
      match σ !! step with
      | None => Panics
      | Some st =>
          outcome_bind (getParsedStepValues rest) (λ stepValues,
          Returns (if negb (Step_IsConcept st)
                   then CreateStepValue st :: stepValues
                   else stepValues))
      end
  end.

(** [getStepsFromSpec] (lines 366-372). *)
Fixpoint getStepsFromScenarios (scenarios : list Scenario)
  : outcome (list StepValue) :=
  match scenarios with
  | [] => Returns []
  | scenario :: rest =>
      outcome_bind (getParsedStepValues (Scenario_Steps scenario)) (λ stepValues,
      outcome_bind (getStepsFromScenarios rest) (λ more,
      Returns (stepValues ++ more)))
  end.

Definition getStepsFromSpec (spec : Specification) : outcome (list StepValue) :=
  outcome_bind (getParsedStepValues (Spec_Contexts spec)) (λ stepValues,
  outcome_bind (getStepsFromScenarios (Spec_Scenarios spec)) (λ more,
  Returns (stepValues ++ more))).

(** [getStepsFromConcept] (lines 374-376). *)
Definition getStepsFromConcept (concept : Concept) : outcome (list StepValue) :=
  match σ !! Concept_ConceptStep concept with
  | None => Panics
  | Some st => getParsedStepValues (Step_ConceptSteps st)
  end.

(** [onSpecFileModify] (lines 176-188). *)
Definition onSpecFileModify (file : string) (s : SpecInfoGatherer)
  : outcome SpecInfoGatherer :=
  let '(parsedSpecs, s) := getParsedSpecs [file] s in
  match parsedSpecs with
  | [] => Returns s
  | parsedSpec :: _ =>
      let s := addToSpecsCache file parsedSpec s in
      outcome_bind (getStepsFromSpec parsedSpec) (λ stepsFromSpec,
      Returns (addToStepsCache stepsFromSpec s))
  end.

(** [onConceptFileModify] (lines 190-208). *)
Fixpoint addConcepts (file : string) (concepts : list addr) (s : SpecInfoGatherer)
  : outcome SpecInfoGatherer :=
  match concepts with
  | [] => Returns s
  | concept :: rest =>
      let c := mkConcept concept file in
      let s := addToConceptsCache file c s in
      outcome_bind (getStepsFromConcept c) (λ stepsFromConcept,
      addConcepts file rest (addToStepsCache stepsFromConcept s))
  end.

Definition parseFailed (parseResults : option ParseResult) : bool :=
  match parseResults with
  | Some r => bool_decide (ParseResult_Error r ≠ None)
  | None => false
  end.

Definition onConceptFileModify (file : string) (s : SpecInfoGatherer)
  : outcome SpecInfoGatherer :=
  let '(concepts, parseResults) := ParseFile file in
  if parseFailed parseResults then Returns s
  else addConcepts file concepts s.

(** [onSpecFileRemove] and [onConceptFileRemove] (lines 210-228). *)
Definition onSpecFileRemove (file : string) (s : SpecInfoGatherer)
  : SpecInfoGatherer :=
  set_specsCache (delete file (specsCache s)) s.

Definition onConceptFileRemove (file : string) (s : SpecInfoGatherer)
  : SpecInfoGatherer :=
  set_conceptsCache (delete file (conceptsCache s)) s.

End handlers.

(** The states that the program can reach, as far as the steps cache goes:
    [initStepsCache] creates it empty, [addToStepsCache] is the only function
    that writes to it, and every other step leaves it alone. *)
Inductive reachable : SpecInfoGatherer → Prop :=
| reach_init s : stepsCache s = ∅ → reachable s
| reach_add allSteps s : reachable s → reachable (addToStepsCache allSteps s)
| reach_other s s' : reachable s → stepsCache s' = stepsCache s → reachable s'.

(** *** The bulk build (specDetails.go, lines 48-106 and 145-174) *)

(** File discovery and the dictionary builder are external collaborators:
    [config.ProjectRoot], [common.SpecsDirectoryName], [filepath.Join],
    [util.FindSpecFilesIn] and [parser.CreateConceptsDictionary]. *)
Class Project : Type := {
  ProjectRoot : string;
  SpecsDirectoryName : string;
  Join : string → string → string;
  FindSpecFilesIn : string → list string;
  CreateConceptsDictionary : bool → list string → ConceptDictionary * ParseResult
}.

Section build.
Context `{Parser} `{Project}.
Variable σ : heap.

(** The spec files that [initSpecsCache] looks up (lines 65-71). *)
Definition specFilesOf (s : SpecInfoGatherer) : list string :=
  if decide (length (SpecDirs s) < 1)%nat
  then FindSpecFilesIn (Join ProjectRoot SpecsDirectoryName)
  else foldl (λ specFiles dir, specFiles ++ FindSpecFilesIn (Join ProjectRoot dir))
             [] (SpecDirs s).

(** [initSpecsCache] (lines 59-80), without the wait group. *)
Definition initSpecsCache (s : SpecInfoGatherer) : SpecInfoGatherer :=
  let s := set_specsCache ∅ s in
  let specFiles := specFilesOf s in
  let '(parsedSpecs, s) := getParsedSpecs specFiles s in
  foldl (λ s spec, addToSpecsCache (Spec_FileName spec) spec s) s parsedSpecs.

(** [getParsedConcepts] (lines 145-150); [handleParseFailures] only logs. *)
Definition getParsedConcepts (s : SpecInfoGatherer)
  : gmap string Concept * SpecInfoGatherer :=
  let '(dict, result) := CreateConceptsDictionary true (SpecDirs s) in
  (ConceptsMap dict, set_conceptDictionary (Some dict) s).

(** [initConceptsCache] (lines 82-93); the map of parsed concepts is ranged
    over in the order of [map_to_list]. *)
Definition initConceptsCache (s : SpecInfoGatherer) : SpecInfoGatherer :=
  let s := set_conceptsCache ∅ s in
  let '(parsedConcepts, s) := getParsedConcepts s in
  foldl (λ s concept, addToConceptsCache (Concept_FileName concept) concept s)
        s (map_to_list parsedConcepts).*2.

(** [getStepsFromCachedSpecs] and [getStepsFromCachedConcepts] (lines
    152-174): the step values of every cached specification, then of every
    cached concept, in the order of the cache. *)
Fixpoint stepsOfSpecs (specs : list Specification) : outcome (list StepValue) :=
  match specs with
  | [] => Returns []
  | spec :: rest =>
      outcome_bind (getStepsFromSpec σ spec) (λ stepValues,
      outcome_bind (stepsOfSpecs rest) (λ more,
      Returns (stepValues ++ more)))
  end.

Definition getStepsFromCachedSpecs (s : SpecInfoGatherer) : outcome (list StepValue) :=
  stepsOfSpecs (concat (map_to_list (specsCache s)).*2).

Fixpoint stepsOfConcepts (concepts : list Concept) : outcome (list StepValue) :=
  match concepts with
  | [] => Returns []
  | concept :: rest =>
      outcome_bind (getStepsFromConcept σ concept) (λ stepValues,
      outcome_bind (stepsOfConcepts rest) (λ more,
      Returns (stepValues ++ more)))
  end.

Definition getStepsFromCachedConcepts (s : SpecInfoGatherer)
  : outcome (list StepValue) :=
  stepsOfConcepts (concat (map_to_list (conceptsCache s)).*2).

(** [initStepsCache] (lines 95-106). *)
Definition initStepsCache (s : SpecInfoGatherer) : outcome SpecInfoGatherer :=
  let s := set_stepsCache ∅ s in
  outcome_bind (getStepsFromCachedSpecs s) (λ stepsFromSpecs,
  outcome_bind (getStepsFromCachedConcepts s) (λ stepsFromConcepts,
  let allSteps := stepsFromSpecs ++ stepsFromConcepts in
  Returns (addToStepsCache allSteps s))).

(** [MakeListOfAvailableSteps] (lines 48-57): the three phases in their
    order.  The goroutine that watches the files is left to the handlers
    below. *)
Definition MakeListOfAvailableSteps (s : SpecInfoGatherer) : outcome SpecInfoGatherer :=
  let s := initConceptsCache s in
  let s := initSpecsCache s in
  initStepsCache s.

End build.

(** *** Concept infos (specDetails.go, lines 350-364) *)

(** [proto.Int] stores an [int] as an [int32]. *)
Definition int32_wrap (z : Z) : Z := (z + 2 ^ 31) `mod` 2 ^ 32 - 2 ^ 31.

(** [gauge_messages.ConceptInfo]; the message type of a step value is a
    parameter, as is [gauge.ConvertToProtoStepValue]. *)
Record ConceptInfo (ProtoStepValue : Type) : Type := mkConceptInfo {
  ConceptInfo_StepValue : ProtoStepValue;
  ConceptInfo_Filepath : string;
  ConceptInfo_LineNumber : Z
}.
Arguments mkConceptInfo {ProtoStepValue}.
Arguments ConceptInfo_StepValue {ProtoStepValue}.
Arguments ConceptInfo_Filepath {ProtoStepValue}.
Arguments ConceptInfo_LineNumber {ProtoStepValue}.

Section infos.
Context `{Parser}.
Context {ProtoStepValue : Type}.
Variable ConvertToProtoStepValue : StepValue → ProtoStepValue.
Variable σ : heap.

Fixpoint conceptInfosOf (concepts : list Concept)
  : outcome (list (ConceptInfo ProtoStepValue)) :=
  match concepts with
  | [] => Returns []
  | concept :: rest =>
      match σ !! Concept_ConceptStep concept with
      | None => Panics
      | Some st =>
          let stepValue := CreateStepValue st in
          let info := mkConceptInfo (ConvertToProtoStepValue stepValue)
                        (Concept_FileName concept) (int32_wrap (Step_LineNo st)) in
          outcome_bind (conceptInfosOf rest) (λ conceptInfos,
          Returns (info :: conceptInfos))
      end
  end.

(** [GetConceptInfos] (lines 350-364). *)
Definition GetConceptInfos (s : SpecInfoGatherer)
  : outcome (list (ConceptInfo ProtoStepValue)) :=
  conceptInfosOf (concat (map_to_list (conceptsCache s)).*2).

End infos.

(** *** File events (specDetails.go, lines 230-279 and 397-411) *)

(** The file system and the watcher of fsnotify are external: [filepath.Abs],
    [util.IsSpec], [util.IsConcept], [util.IsDir], and whether [watcher.Add]
    accepts a directory.  The watcher is the set of the paths it watches. *)
Class FileSystem : Type := {
  Abs : string → string + error;
  IsSpec : string → bool;
  IsConcept : string → bool;
  IsDir : string → bool;
  watcherAdd : string → option error
}.

(** [fsnotify.Event] and the bits of [fsnotify.Op]. *)
Record Event : Type := mkEvent {
  Event_Name : string;
  Event_Op : Z
}.

Definition fsnotify_Create : Z := 1.
Definition fsnotify_Write : Z := 2.
Definition fsnotify_Remove : Z := 4.
Definition fsnotify_Rename : Z := 8.
Definition fsnotify_Chmod : Z := 16.

Section events.
Context `{Parser} `{FileSystem}.
Variable σ : heap.

(** [addDirToFileWatcher] and [removeWatcherOn] (lines 397-411). *)
Definition addDirToFileWatcher (watcher : gset string) (dir : string) : gset string :=
  match watcherAdd dir with
  | Some err => watcher
  | None => {[dir]} ∪ watcher
  end.

Definition removeWatcherOn (watcher : gset string) (path : string) : gset string :=
  watcher ∖ {[path]}.

(** [onFileModify] (lines 237-243). *)
Definition onFileModify (watcher : gset string) (file : string) (s : SpecInfoGatherer)
  : outcome (gset string * SpecInfoGatherer) :=
  if IsSpec file then
    outcome_bind (onSpecFileModify σ file s) (λ s, Returns (watcher, s))
  else if IsConcept file then
    outcome_bind (onConceptFileModify σ file s) (λ s, Returns (watcher, s))
  else Returns (watcher, s).

(** [onFileAdd] (lines 230-235). *)
Definition onFileAdd (watcher : gset string) (file : string) (s : SpecInfoGatherer)
  : outcome (gset string * SpecInfoGatherer) :=
  let watcher := if IsDir file then addDirToFileWatcher watcher file else watcher in
  onFileModify watcher file s.

(** [onFileRemove] (lines 245-253). *)
Definition onFileRemove (watcher : gset string) (file : string) (s : SpecInfoGatherer)
  : outcome (gset string * SpecInfoGatherer) :=
  if IsSpec file then Returns (watcher, onSpecFileRemove file s)
  else if IsConcept file then Returns (watcher, onConceptFileRemove file s)
  else Returns (removeWatcherOn watcher file, s).

(** [onFileRename] (lines 255-257). *)
Definition onFileRename (watcher : gset string) (file : string) (s : SpecInfoGatherer)
  : outcome (gset string * SpecInfoGatherer) :=
  onFileRemove watcher file s.

(** [handleEvent] (lines 259-279), once the wait group lets it run.  The
    switch compares the whole of [event.Op] with one bit. *)
Definition handleEvent (event : Event) (watcher : gset string) (s : SpecInfoGatherer)
  : outcome (gset string * SpecInfoGatherer) :=
  match Abs (Event_Name event) with
  | inr err => Returns (watcher, s)
  | inl file =>
      if IsSpec file || IsConcept file then
        if decide (Event_Op event = fsnotify_Create) then onFileAdd watcher file s
        else if decide (Event_Op event = fsnotify_Write) then onFileModify watcher file s
        else if decide (Event_Op event = fsnotify_Rename) then onFileRename watcher file s
        else if decide (Event_Op event = fsnotify_Remove) then onFileRemove watcher file s
        else Returns (watcher, s)
      else Returns (watcher, s)
  end.

End events.

End infoGatherer.

(** ** Package lang: the scenario query *)

Module lang.
Import gauge.

Record ScenarioInfo : Type := mkScenarioInfo {
  ScenarioInfo_Heading : string;
  ScenarioInfo_LineNo : Z;
  ScenarioInfo_ExecutionIdentifier : string
}.

(** The dynamic type of what [getScenarioAt] returns. *)
Inductive scenarioAt : Type :=
| OneScenario (info : ScenarioInfo)
| AllScenarios (ifs : list ScenarioInfo).

(** [getScenarioInfo] (lines 562-568); the identifier is the file, a colon
    and the line number in decimal. *)
Definition getScenarioInfo (sce : Scenario) (file : string) : ScenarioInfo :=
  mkScenarioInfo
    (Heading_Value (Scenario_Heading sce))
    (Heading_LineNo (Scenario_Heading sce))
    (file +:+ ":" +:+ pretty (Heading_LineNo (Scenario_Heading sce))).

(** [getScenarioAt] (lines 551-561). *)
Fixpoint getScenarioAt_from (ifs : list ScenarioInfo) (scenarios : list Scenario)
    (file : string) (line : Z) : scenarioAt :=
  match scenarios with
  | [] => AllScenarios ifs
  | sce :: rest =>
      let info := getScenarioInfo sce file in
      if InSpan sce (int_add line 1) then OneScenario info
      else getScenarioAt_from (ifs ++ [info]) rest file line
  end.

Definition getScenarioAt (scenarios : list Scenario) (file : string) (line : Z)
  : scenarioAt :=
  getScenarioAt_from [] scenarios file line.

End lang.

(** ** Package main: the plugins and the console writer

    The last two parts of specDetails.go.  The processes of the plugins,
    their connections, the terminal and the formatters of package main are
    external; the terminal is the list of what was written to it. *)

Module main.

(** *** The functions of package strings, at the separator newline *)

Definition newline : Ascii.ascii := Ascii.ascii_of_nat 10.

(** [strings.Count(s, "\n")]. *)
Fixpoint strings_Count (s : string) : Z :=
  match s with
  | EmptyString => 0
  | String c rest => (if decide (c = newline) then 1 else 0) + strings_Count rest
  end.

(** [strings.Split(s, "\n")]: the pieces between the newlines, one more
    than there are newlines. *)
Fixpoint strings_Split (s : string) : list string :=
  match s with
  | EmptyString => [EmptyString]
  | String c rest =>
      if decide (c = newline) then EmptyString :: strings_Split rest
      else match strings_Split rest with
           | line :: lines => String c line :: lines
           | [] => [String c EmptyString]
           end
  end.

(** [strings.Join(lines, "\n")]. *)
Fixpoint strings_Join (lines : list string) : string :=
  match lines with
  | [] => EmptyString
  | line :: rest =>
      match rest with
      | [] => line
      | _ :: _ => line +:+ String newline (strings_Join rest)
      end
  end.

(** *** The console writer (lines 914-1045) *)

Record consoleWriter : Type := mkConsoleWriter {
  linesAfterLastStep : Z;
  isInsideStep : bool
}.

Record pluginConsoleWriter : Type := mkPluginConsoleWriter {
  pluginName : string
}.

(** What reaches the terminal: [fmt.Print], [terminal.Stdout.Colorf] with
    its format and its argument, and the cursor moves [terminal.Stdout.Up]
    and [terminal.Stdout.Down]. *)
Inductive output : Type :=
| fmt_Print (message : string)
| Colorf (format value : string)
| cursor_Up (n : Z)
| cursor_Down (n : Z).

(** [addPrefixToEachLine] (lines 931-942). *)
Definition addPrefixToEachLine (writer : pluginConsoleWriter) (text : string) : string :=
  let lines := strings_Split text in
  let prefixedLines :=
    imap (λ i line,
            if bool_decide (Z.of_nat i = Z.of_nat (length lines) - 1)
               && bool_decide (line = EmptyString)
            then line
            else "[" +:+ pluginName writer +:+ " Plugin] : " +:+ line)
         lines in
  strings_Join prefixedLines.

(** [newConsoleWriter] and [getCurrentConsole] (lines 944-955); the global
    [currentConsoleWriter] is passed in, and [None] is nil. *)
Definition newConsoleWriter : consoleWriter := mkConsoleWriter 0 false.

Definition getCurrentConsole (currentConsoleWriter : option consoleWriter)
  : consoleWriter :=
  match currentConsoleWriter with
  | None => newConsoleWriter
  | Some writer => writer
  end.

(** [consoleWriter.Write] (lines 957-964): the number of bytes, the nil
    error, the writer afterwards and what is printed. *)
Definition consoleWriter_Write (b : string) (writer : consoleWriter)
  : (Z * option error) * consoleWriter * list output :=
  let message := b in
  let writer :=
    if isInsideStep writer
    then mkConsoleWriter (int_add (linesAfterLastStep writer) (strings_Count message))
                         (isInsideStep writer)
    else writer in
  ((Z.of_nat (String.length b), None), writer, [fmt_Print message]).

(** [pluginConsoleWriter.Write] (lines 923-929); it returns the global
    console writer too, which [getCurrentConsole] may have created. *)
Definition pluginConsoleWriter_Write (writer : pluginConsoleWriter) (b : string)
    (currentConsoleWriter : option consoleWriter)
  : (Z * option error) * option consoleWriter * list output :=
  let message := b in
  let prefixedMessage := addPrefixToEachLine writer message in
  let gaugeConsoleWriter := getCurrentConsole currentConsoleWriter in
  let '((_, err), gaugeConsoleWriter, out) :=
    consoleWriter_Write prefixedMessage gaugeConsoleWriter in
  ((Z.of_nat (String.length message), err), Some gaugeConsoleWriter, out).

(** [writeString] and [writeError] (lines 966-975). *)
Definition writeString (value : string) (writer : consoleWriter)
  : consoleWriter * list output :=
  let '(_, writer, out) := consoleWriter_Write value writer in (writer, out).

Definition writeError (value : string) (writer : consoleWriter)
  : consoleWriter * list output :=
  let writer :=
    if isInsideStep writer
    then mkConsoleWriter (int_add (linesAfterLastStep writer) (strings_Count value))
                         (isInsideStep writer)
    else writer in
  (writer, [Colorf "@r%s" value]).

(** The items of package main and their formatters are declared in other
    files: the steps, comments and tables are parameters, with the text that
    the formatters give them. *)
Class Formatters : Type := {
  step : Type;
  comment : Type;
  table : Type;
  formatStep : step → string;
  formatItem : comment → string;
  formatTable : table → string;
  formatSpecHeading : string → string;
  formatScenarioHeading : string → string
}.

Section console.
Context `{Formatters}.

(** An [item] by its kind; [writeItem] has no case for the other kinds. *)
Inductive item : Type :=
| commentItem (c : comment)
| stepItem (s : step)
| tableItem (t : table)
| otherItem.

(** [writeSpecHeading] and [writeScenarioHeading] (lines 977-980 and
    1012-1015). *)
Definition writeSpecHeading (heading : string) (writer : consoleWriter)
  : consoleWriter * list output :=
  let formattedHeading := formatSpecHeading heading in
  let '(_, writer, out) := consoleWriter_Write formattedHeading writer in (writer, out).

Definition writeScenarioHeading (scenarioHeading : string) (writer : consoleWriter)
  : consoleWriter * list output :=
  let formattedHeading := formatScenarioHeading scenarioHeading in
  let '(_, writer, out) :=
    consoleWriter_Write (String newline formattedHeading) writer in
  (writer, out).

(** [writeComment] and [writeTable] (lines 1008-1010 and 1042-1045). *)
Definition writeComment (c : comment) (writer : consoleWriter)
  : consoleWriter * list output :=
  (writer, [Colorf "%s" (formatItem c)]).

Definition writeTable (t : table) (writer : consoleWriter)
  : consoleWriter * list output :=
  (writer, [Colorf "@m%s" (formatTable t)]).

(** [writeStep] (lines 1017-1022). *)
Definition writeStep (s : step) (writer : consoleWriter)
  : consoleWriter * list output :=
  let stepText := formatStep s in
  (mkConsoleWriter 0 true, [Colorf "@b%s" stepText]).

(** [writeStepFinished] (lines 1025-1040). *)
Definition writeStepFinished (s : step) (failed : bool) (writer : consoleWriter)
  : consoleWriter * list output :=
  let stepText := formatStep s in
  let linesInStepText := strings_Count stepText in
  let linesInStepText := if decide (linesInStepText = 0) then 1 else linesInStepText in
  let linesToMoveUp := int_add (linesAfterLastStep writer) linesInStepText in
  (mkConsoleWriter (linesAfterLastStep writer) false,
   [cursor_Up linesToMoveUp;
    if failed then Colorf "@r%s" stepText else Colorf "@g%s" stepText;
    cursor_Down linesToMoveUp]).

(** [writeItem], [writeItems] and [writeSteps] (lines 982-1006). *)
Definition writeItem (i : item) (writer : consoleWriter)
  : consoleWriter * list output :=
  match i with
  | commentItem c => writeComment c writer
  | stepItem s => writeStep s writer
  | tableItem t => writeTable t writer
  | otherItem => (writer, [])
  end.

Fixpoint writeItems (items : list item) (writer : consoleWriter)
  : consoleWriter * list output :=
  match items with
  | [] => (writer, [])
  | i :: rest =>
      let '(writer, out) := writeItem i writer in
      let '(writer, more) := writeItems rest writer in
      (writer, out ++ more)
  end.

Definition writeSteps (steps : list step) (writer : consoleWriter)
  : consoleWriter * list output :=
  writeItems (stepItem <$> steps) writer.

End console.

(** *** The plugin handler (lines 609-611 and 854-883) *)

(** A plugin of the handler is a running process with a connection; what
    the handler does with one is external: sending a message over its
    connection and killing its process either work or give an error. *)
Class PluginProcesses : Type := {
  plugin : Type;
  Message : Type;
  sendMessage : plugin → Message → option error;
  processKill : plugin → option error
}.

Section handler.
Context `{PluginProcesses}.

(** [pluginHandler]; the nil map reads as the map without entries, and
    [addPlugin] makes a map of it before it writes. *)
Record pluginHandler : Type := mkPluginHandler {
  pluginsMap : gmap string plugin
}.

(** [addPlugin] and [removePlugin] (lines 854-863). *)
Definition addPlugin (pluginId : string) (pluginToAdd : plugin)
    (handler : pluginHandler) : pluginHandler :=
  mkPluginHandler (<[pluginId := pluginToAdd]> (pluginsMap handler)).

Definition removePlugin (pluginId : string) (handler : pluginHandler) : pluginHandler :=
  mkPluginHandler (delete pluginId (pluginsMap handler)).

(** [killPlugin] (lines 875-883): the plugin of an unknown id is nil, and
    reading its descriptor panics.  The plugins that were killed are
    returned with the handler. *)
Definition killPlugin (pluginId : string) (handler : pluginHandler)
  : outcome (pluginHandler * list plugin) :=
  match pluginsMap handler !! pluginId with
  | None => Panics
  | Some p =>
      let err := processKill p in
      Returns (removePlugin pluginId handler, [p])
  end.

(** [notifyPlugins] (lines 865-873).  The loop ranges over the map while
    [killPlugin] deletes the entry that the loop is at; the entries that are
    still to come are those of the map at the start. *)
Fixpoint notifyPlugins_from (entries : list (string * plugin)) (message : Message)
    (handler : pluginHandler) : outcome (pluginHandler * list plugin) :=
  match entries with
  | [] => Returns (handler, [])
  | (id, p) :: rest =>
      match sendMessage p message with
      | Some err =>
          outcome_bind (killPlugin id handler) (λ '(handler, killed),
          outcome_bind (notifyPlugins_from rest message handler) (λ '(handler, more),
          Returns (handler, killed ++ more)))
      | None => notifyPlugins_from rest message handler
      end
  end.

Definition notifyPlugins (message : Message) (handler : pluginHandler)
  : outcome (pluginHandler * list plugin) :=
  notifyPlugins_from (map_to_list (pluginsMap handler)) message handler.

End handler.

(** *** Plugins of a project (lines 652-673 and 781-806) *)

(** [pluginDetails], an entry of the manifest of the project, and the
    fields of [pluginDescriptor] that these functions read. *)
Record pluginDetails : Type := mkPluginDetails {
  pluginDetails_Id : string;
  pluginDetails_Version : string
}.

Record pluginDescriptor : Type := mkPluginDescriptor {
  pluginDescriptor_Id : string;
  pluginDescriptor_Version : string;
  pluginDescriptor_Name : string
}.

(** The manifest: specDetails.go reads its fields [Language] and
    [Plugins]. *)
Record manifest : Type := mkManifest {
  manifest_Language : string;
  manifest_Plugins : list pluginDetails
}.

(** [isPluginAdded] (lines 799-806). *)
Fixpoint isPluginAdded_from (plugins : list pluginDetails) (descriptor : pluginDescriptor)
  : bool :=
  match plugins with
  | [] => false
  | pluginDetails :: rest =>
      if bool_decide (pluginDetails_Id pluginDetails = pluginDescriptor_Id descriptor)
         && bool_decide (pluginDetails_Version pluginDetails = pluginDescriptor_Version descriptor)
      then true
      else isPluginAdded_from rest descriptor
  end.

Definition isPluginAdded (m : manifest) (descriptor : pluginDescriptor) : bool :=
  isPluginAdded_from (manifest_Plugins m) descriptor.

(** The installation of the plugins and the saving of the manifest are
    external: where the plugins are, which directories and files exist,
    what the descriptor of a plugin is, whether the plugin starts, and
    whether [manifest.save] works. *)
Class Installation : Type := {
  GetPluginsPath : string + error;
  path_Join : list string → string;
  DirExists : string → bool;
  FileExists : string → bool;
  PluginJsonFile : string;
  getPluginDescriptor : string → string → pluginDescriptor + error;
  startPlugin : pluginDescriptor → string → bool → option error;
  save : manifest → option error
}.

Section installation.
Context `{Installation}.

(** [isPluginInstalled] (lines 652-673). *)
Definition isPluginInstalled (pluginName pluginVersion : string) : bool :=
  match GetPluginsPath with
  | inr err => false
  | inl pluginsPath =>
      let thisPluginDir := path_Join [pluginsPath; pluginName] in
      if negb (DirExists thisPluginDir) then false
      else if bool_decide (pluginVersion ≠ EmptyString) then
        let pluginJson := path_Join [thisPluginDir; pluginVersion; PluginJsonFile] in
        if FileExists pluginJson then true else false
      else true
  end.

(** [addPluginToTheProject] (lines 781-797): the error and the manifest
    afterwards.  A missing key of [pluginArgs] reads as the empty string;
    [setEnvForPlugin] only writes to the environment of the process. *)
Definition addPluginToTheProject (pluginName : string)
    (pluginArgs : gmap string string) (m : manifest) : option error * manifest :=
  match getPluginDescriptor pluginName (default EmptyString (pluginArgs !! "version"%string)) with
  | inr err => (Some err, m)
  | inl pd =>
      if isPluginAdded m pd
      then (Some ("Plugin " +:+ pluginDescriptor_Name pd +:+ " is already added"), m)
      else
        let action := "setup"%string in
        match startPlugin pd action true with
        | Some err => (Some err, m)
        | None =>
            let m := mkManifest (manifest_Language m)
                       (manifest_Plugins m
                        ++ [mkPluginDetails (pluginDescriptor_Id pd)
                                            (pluginDescriptor_Version pd)]) in
            (save m, m)
        end
  end.

End installation.

End main.

(** * Vocabulary of the statements *)

Import gauge infoGatherer lang.

(** Every entry of the steps cache is stored under its own signature. *)
Definition keyed (cache : gmap string StepValue) : Prop :=
  ∀ sig v, cache !! sig = Some v → StepValue_StepValue v = sig.

Definition same_caches (s s' : SpecInfoGatherer) : Prop :=
  specsCache s' = specsCache s
  ∧ conceptsCache s' = conceptsCache s
  ∧ stepsCache s' = stepsCache s.

(** The span of a scenario contains a line number. *)
Definition contains (sce : Scenario) (lineNumber : Z) : Prop :=
  Span_Start (Scenario_Span sce) ≤ lineNumber ≤ Span_End (Scenario_Span sce).

(** The scenarios among the items, in the order of the items. *)
Definition scenario_of (item : Item) : option Scenario :=
  match item with
  | ItemScenario scenario => Some scenario
  | _ => None
  end.

Definition scenarios_of (items : list Item) : list Scenario :=
  omap scenario_of items.

Definition consistent (spec : Specification) : Prop :=
  Spec_Scenarios spec = scenarios_of (Spec_Items spec).

(** No two entries of the list are deeply equal. *)
Definition deep_distinct `{DeepEq} (scenarios : list Scenario) : Prop :=
  ∀ i j a b, scenarios !! i = Some a → scenarios !! j = Some b →
             DeepEqual a b = true → i = j.

(** The items that the filter keeps. *)
Definition kept `{SpecItemFilter} (item : Item) : Prop :=
  filter_Filter item = false.

Global Instance kept_dec `{SpecItemFilter} (item : Item) : Decision (kept item).
Proof. unfold kept. apply _. Defined.

Global Instance Heading_eq_dec : EqDecision Heading.
Proof. solve_decision. Defined.
Global Instance Span_eq_dec : EqDecision Span.
Proof. solve_decision. Defined.
Global Instance Scenario_eq_dec : EqDecision Scenario.
Proof. solve_decision. Defined.

(** Deep equality as equality of the modelled values. *)
Definition valueDeepEq : DeepEq := {|
  DeepEqual := λ a b, bool_decide (a = b);
  DeepEqual_refl := λ a, bool_decide_eq_true_2 (a = a) eq_refl
|}.

(** Every declared name has its row. *)
Definition lookup_wf (lookup : ArgLookup) : Prop :=
  ∀ name i, ParamIndexMap lookup !! name = Some i →
            (i < length (paramValue lookup))%nat.

(** Two declared names do not share a row. *)
Definition lookup_inj (lookup : ArgLookup) : Prop :=
  ∀ name1 name2 i, ParamIndexMap lookup !! name1 = Some i →
                   ParamIndexMap lookup !! name2 = Some i → name1 = name2.

Definition declared (lookup : ArgLookup) (name : string) : Prop :=
  is_Some (ParamIndexMap lookup !! name).

(** The steps reachable from [p] form a tree of depth less than [depth],
    all of it allocated. *)
Fixpoint tree (h : heap) (depth : nat) (p : addr) : Prop :=
  match depth with
  | O => False
  | S d => ∃ s, h !! p = Some s ∧ Forall (tree h d) (Step_ConceptSteps s)
  end.

Definition allocated (h : heap) (p : addr) : Prop := is_Some (h !! p).

(** The loop of [createConceptStep] that sets the parents. *)
Definition setParents (parent : addr) (steps : list addr) : M unit :=
  for_each (λ conceptStep, modify conceptStep (set_Parent (Some parent))) steps.

(** The lookup that declares a list of names, one after the other. *)
Definition declareAll (names : list string) : ArgLookup :=
  foldl AddArgName emptyLookup names.

(** The steps of a specification in the order in which
    [ProcessConceptStepsFrom] visits them. *)
Definition steps_in_order (spec : Specification) : list addr :=
  Spec_Contexts spec ++ concat (Scenario_Steps <$> Spec_Scenarios spec)
  ++ Spec_TearDownSteps spec.

(** Every concept of the concepts cache is stored under the file that it
    names. *)
Definition filed (cache : gmap string (list Concept)) : Prop :=
  ∀ file concepts concept,
    cache !! file = Some concepts → concept ∈ concepts →
    Concept_FileName concept = file.

(** The concepts of the concepts cache, in the order of the cache. *)
Definition cachedConcepts (s : SpecInfoGatherer) : list Concept :=
  concat (map_to_list (conceptsCache s)).*2.

(** The prefix that [addPrefixToEachLine] puts before a line. *)
Definition prefixOf (writer : main.pluginConsoleWriter) : string :=
  "[" +:+ main.pluginName writer +:+ " Plugin] : ".

(** The writer after a list of strings has been written, one after the
    other, and the number of newlines in all of them. *)
Definition writeStrings (values : list string) (writer : main.consoleWriter)
  : main.consoleWriter :=
  foldl (λ writer value, (main.writeString value writer).1) writer values.

Definition countAll (values : list string) : Z :=
  foldr (λ value n, main.strings_Count value + n) 0 values.

Definition isStepItem `{main.Formatters} (i : main.item) : bool :=
  match i with
  | main.stepItem _ => true
  | _ => false
  end.

(** The plugins that do not take a message. *)
Definition disconnected `{main.PluginProcesses} (message : main.Message)
    (entry : string * main.plugin) : Prop :=
  main.sendMessage entry.2 message ≠ None.

Global Instance disconnected_dec `{main.PluginProcesses} (message : main.Message)
    (entry : string * main.plugin) : Decision (disconnected message entry).
Proof. unfold disconnected. apply _. Defined.

(** * Sample projects

    The data of the examples below. *)

Definition clickButton : StepValue := mkStepValue [] "Click button" "Click button".
Definition submitForm : StepValue := mkStepValue [] "Submit form" "Submit form".
Definition emptyGatherer : SpecInfoGatherer := mkSpecInfoGatherer None ∅ ∅ ∅ [].

(** A project with one spec file, a.spec, whose only step is the context
    step "Click button"; every concept file fails to parse.  The step value
    of a step is its signature with the values of its arguments. *)
Definition stepValueOf (st : Step) : StepValue :=
  mkStepValue (StepArg_Value <$> Step_Args st) (Step_Value st) (Step_Value st).

Definition clickStep : Step :=
  mkStep 3 "Click button" "Click button" [] false emptyLookup [] None.

Definition exampleStore : heap := {[ 1%positive := clickStep ]}.

Definition exampleSpec : Specification :=
  mkSpecification (Some (mkHeading "A" 1 SpecHeading)) [] []
    (mkDataTable (mkTable [] [] 0)) [1%positive] "a.spec" None
    [ItemStep 1%positive] [].

Definition exampleParser : Parser := {|
  ParseSpecFiles := λ files _,
    if bool_decide (files = ["a.spec"%string]) then ([exampleSpec], [])
    else ([], [mkParseResult (Some (mkParseError "no such file" 0)) false]);
  ParseFile := λ _, ([], Some (mkParseResult (Some (mkParseError "bad concept" 1)) false));
  CreateStepValue := stepValueOf
|}.

Definition afterFirstParse : SpecInfoGatherer :=
  mkSpecInfoGatherer (Some NewConceptDictionary)
    {[ "a.spec"%string := [exampleSpec] ]} ∅
    {[ "Click button"%string := stepValueOf clickStep ]} [].

Definition afterSecondParse : SpecInfoGatherer :=
  mkSpecInfoGatherer (Some NewConceptDictionary)
    {[ "a.spec"%string := [exampleSpec; exampleSpec] ]} ∅
    {[ "Click button"%string := stepValueOf clickStep ]} [].

(** Two scenarios, on the lines 3 to 6 and 8 to 10 of a.spec. *)
Definition loginScenario : Scenario :=
  mkScenario (mkHeading "Login" 3 ScenarioHeading) [] (mkSpan 3 6).
Definition logoutScenario : Scenario :=
  mkScenario (mkHeading "Logout" 8 ScenarioHeading) [] (mkSpan 8 10).

(** A filter that selects the scenarios. *)
Definition scenarioFilter : SpecItemFilter := {|
  filter_Filter := λ item, bool_decide (Kind item = ScenarioKind)
|}.

Definition specOf (items : list Item) (scenarios : list Scenario) : Specification :=
  mkSpecification (Some (mkHeading "A" 1 SpecHeading)) scenarios []
    (mkDataTable (mkTable [] [] 0)) [] "a.spec" None items [].

Definition aComment : Comment := mkComment "between" 7.

Definition twoScenarios : Specification :=
  specOf [ItemScenario loginScenario; ItemComment aComment; ItemScenario logoutScenario]
         [loginScenario; logoutScenario].

(** The same scenario added twice, around another one. *)
Definition repeatedScenario : Specification :=
  specOf [ItemScenario loginScenario; ItemScenario logoutScenario;
          ItemScenario loginScenario]
         [loginScenario; logoutScenario; loginScenario].

(** The concept "Login as <user> with <password>", whose body is a step and
    an invocation of another concept, and three invocations of it: with two,
    one and three call-site arguments. *)
Definition noTable : Table := mkTable [] [] 0.
Definition dynamicArg (name : string) : StepArg := mkStepArg "" name Dynamic noTable.
Definition staticArg (value : string) : StepArg := mkStepArg "" value Static noTable.

Definition loginConcept : Step :=
  mkStep 1 "Login as {} with {}" "Login as <user> with <password>"
    [dynamicArg "user"; dynamicArg "password"] true
    (declareAll ["user"; "password"]%string) [11; 12]%positive None.
Definition enterStep : Step :=
  mkStep 2 "Enter {}" "Enter <user>" [dynamicArg "user"] false emptyLookup [] None.
Definition submitConcept : Step :=
  mkStep 3 "Submit {}" "Submit <password>" [dynamicArg "password"] true
    (declareAll ["password"%string]) [13%positive] None.
Definition pressStep : Step :=
  mkStep 7 "Press enter" "Press enter" [] false emptyLookup [] None.
Definition loginCall (args : list StepArg) : Step :=
  mkStep 20 "Login as {} with {}" "Login as 'admin' with 'root'" args
    false emptyLookup [] None.

Definition conceptStore : heap :=
  list_to_map
    [(10%positive, loginConcept); (11%positive, enterStep);
     (12%positive, submitConcept); (13%positive, pressStep);
     (1%positive, loginCall [staticArg "admin"; staticArg "root"]);
     (2%positive, loginCall [staticArg "admin"]);
     (3%positive, loginCall [staticArg "admin"; staticArg "root"; staticArg "extra"])].

Definition loginDictionary : ConceptDictionary :=
  mkConceptDictionary {[ "Login as {} with {}"%string := mkConcept 10%positive "login.cpt" ]}.

(** A concept that declares the parameter <a> twice, and an invocation of
    it with the arguments x and y. *)
Definition sayConcept : Step :=
  mkStep 1 "Say {} and {}" "Say <a> and <a>" [dynamicArg "a"; dynamicArg "a"] true
    (declareAll ["a"; "a"]%string) [] None.
Definition sayCall : Step :=
  mkStep 5 "Say {} and {}" "Say 'x' and 'y'" [staticArg "x"; staticArg "y"] false
    emptyLookup [] None.
Definition sayStore : heap :=
  list_to_map [(20%positive, sayConcept); (21%positive, sayCall)].
Definition sayDictionary : ConceptDictionary :=
  mkConceptDictionary {[ "Say {} and {}"%string := mkConcept 20%positive "say.cpt" ]}.

Definition expandedStore : heap :=
  match createConceptStep 3 10%positive 1%positive conceptStore with
  | Returns (_, h') => h'
  | _ => ∅
  end.

(** A filter that selects the comments. *)
Definition commentFilter : SpecItemFilter := {|
  filter_Filter := λ item, bool_decide (Kind item = CommentKind)
|}.

(** A project whose concept file login.cpt holds the concept
    "Login as <user> with <password>" of [conceptStore]. *)
Definition loginParser : Parser := {|
  ParseSpecFiles := λ _ _, ([], []);
  ParseFile := λ file,
    if bool_decide (file = "login.cpt"%string) then ([10%positive], None)
    else ([], Some (mkParseResult (Some (mkParseError "no such file" 0)) false));
  CreateStepValue := stepValueOf
|}.

Definition afterLogin : SpecInfoGatherer :=
  mkSpecInfoGatherer None ∅
    {[ "login.cpt"%string := [mkConcept 10%positive "login.cpt"] ]}
    {[ "Enter {}"%string := stepValueOf enterStep ]} [].

(** A gatherer that has cached the concepts of two files. *)
Definition twoConceptFiles : SpecInfoGatherer :=
  mkSpecInfoGatherer None ∅
    (<[ "login.cpt"%string := [mkConcept 10%positive "login.cpt"] ]>
       {[ "submit.cpt"%string := [mkConcept 12%positive "submit.cpt"] ]})
    ∅ [].

(** The project of [exampleParser]: its specs directory holds a.spec, and
    it has no concepts. *)
Definition exampleProject : Project := {|
  ProjectRoot := "/project";
  SpecsDirectoryName := "specs";
  Join := λ a b, a +:+ "/" +:+ b;
  FindSpecFilesIn := λ dir,
    if bool_decide (dir = "/project/specs"%string) then ["a.spec"%string] else [];
  CreateConceptsDictionary := λ _ _,
    (NewConceptDictionary, mkParseResult None true)
|}.

(** The gatherer of [afterFirstParse] with a steps cache that holds one more
    step, which no file has. *)
Definition staleSteps : SpecInfoGatherer :=
  mkSpecInfoGatherer (Some NewConceptDictionary)
    {[ "a.spec"%string := [exampleSpec] ]} ∅
    {[ "Submit form"%string := submitForm ]} [].

(** The files of the two sample projects; no path is a directory, and the
    watcher accepts every path. *)
Definition exampleFiles : FileSystem := {|
  Abs := λ name, if bool_decide (name = ""%string) then inr "no such file"%string
                 else inl name;
  IsSpec := λ file, bool_decide (file = "a.spec"%string);
  IsConcept := λ file, bool_decide (file = "login.cpt"%string);
  IsDir := λ _, false;
  watcherAdd := λ _, None
|}.

(** A console on which a step is its own text, and a plugin whose output
    has two lines. *)
Definition plainFormatters : main.Formatters := {|
  main.step := string;
  main.comment := string;
  main.table := string;
  main.formatStep := λ s, s;
  main.formatItem := λ c, c;
  main.formatTable := λ t, t;
  main.formatSpecHeading := λ heading, heading;
  main.formatScenarioHeading := λ heading, heading
|}.

Definition htmlReport : main.pluginConsoleWriter :=
  main.mkPluginConsoleWriter "html-report".

Definition twoLines : string :=
  "done" +:+ String main.newline ("saved" +:+ String main.newline EmptyString).

(** An installation that has the plugin html-report in version 2.1 only. *)
Definition htmlDescriptor : main.pluginDescriptor :=
  main.mkPluginDescriptor "html-report" "2.1" "Html Report".

Definition exampleInstallation : main.Installation := {|
  main.GetPluginsPath := inl "/plugins"%string;
  main.path_Join := λ parts, foldr (λ part rest, "/" +:+ part +:+ rest) EmptyString parts;
  main.DirExists := λ dir, bool_decide (dir = "//plugins/html-report"%string);
  main.FileExists := λ file,
    bool_decide (file = "///plugins/html-report/2.1/plugin.json"%string);
  main.PluginJsonFile := "plugin.json";
  main.getPluginDescriptor := λ name version,
    if bool_decide (name = "html-report"%string) then inl htmlDescriptor
    else inr "not installed"%string;
  main.startPlugin := λ _ _ _, None;
  main.save := λ _, None
|}.

Definition javaManifest : main.manifest := main.mkManifest "java" [].

(** * Properties *)

(** ** The steps cache *)

Lemma addStep_keyed cache step : keyed cache → keyed (addStep cache step).
Proof.
  intros Hk sig v. unfold addStep.
  destruct (cache !! StepValue_StepValue step) eqn:E; [apply Hk|].
  rewrite lookup_insert. case_decide; [|apply Hk].
  intros [= <-]. done.
Qed.

Lemma addSteps_keyed allSteps cache :
  keyed cache → keyed (foldl addStep cache allSteps).
Proof.
  revert cache. induction allSteps as [|step rest IH]; intros cache Hk; [done|].
  simpl. apply IH, addStep_keyed, Hk.
Qed.

Lemma addStep_keeps cache step sig v :
  cache !! sig = Some v → addStep cache step !! sig = Some v.
Proof.
  intros Hv. unfold addStep.
  destruct (cache !! StepValue_StepValue step) eqn:E; [done|].
  rewrite lookup_insert_ne; [done|]. intros <-. congruence.
Qed.

Lemma addSteps_keeps allSteps cache sig v :
  cache !! sig = Some v → foldl addStep cache allSteps !! sig = Some v.
Proof.
  revert cache. induction allSteps as [|step rest IH]; intros cache Hv; [done|].
  simpl. apply IH, addStep_keeps, Hv.
Qed.

Lemma addStep_present cache step :
  is_Some (addStep cache step !! StepValue_StepValue step).
Proof.
  unfold addStep. destruct (cache !! StepValue_StepValue step) eqn:E.
  - eauto.
  - rewrite lookup_insert_eq. eauto.
Qed.

Lemma addSteps_present allSteps cache step :
  step ∈ allSteps →
  is_Some (foldl addStep cache allSteps !! StepValue_StepValue step).
Proof.
  revert cache. induction allSteps as [|x rest IH]; intros cache Hin.
  - by apply elem_of_nil in Hin.
  - apply elem_of_cons in Hin as [->|Hin]; simpl.
    + destruct (addStep_present cache x) as [v Hv].
      exists v. by apply addSteps_keeps.
    + by apply IH.
Qed.

Lemma reachable_keyed s : reachable s → keyed (stepsCache s).
Proof.
  induction 1 as [s Hs|allSteps s _ IH|s s' _ IH Hs].
  - rewrite Hs. intros sig v Hv. by rewrite lookup_empty in Hv.
  - simpl. by apply addSteps_keyed.
  - by rewrite Hs.
Qed.

Lemma keyed_signatures cache :
  keyed cache →
  StepValue_StepValue <$> (map_to_list cache).*2 = (map_to_list cache).*1.
Proof.
  intros Hk.
  assert (Hall : Forall (λ kv, StepValue_StepValue kv.2 = kv.1) (map_to_list cache)).
  { apply Forall_forall. intros [sig v] Hin.
    apply elem_of_map_to_list in Hin. simpl. by apply Hk. }
  induction Hall as [|kv l Hkv _ IH]; [done|].
  rewrite !fmap_cons. by f_equal.
Qed.

Lemma keyed_NoDup cache :
  keyed cache → NoDup (StepValue_StepValue <$> (map_to_list cache).*2).
Proof.
  intros Hk. rewrite keyed_signatures by done. apply NoDup_fst_map_to_list.
Qed.

Lemma filter_absent {A B} `{EqDecision B} (f : A → B) (l : list A) (b : B) :
  b ∉ f <$> l → filter (λ v, f v = b) l = [].
Proof.
  induction l as [|y l IH]; intros Hb; [done|].
  rewrite fmap_cons in Hb. apply not_elem_of_cons in Hb as [Hy Hb].
  rewrite filter_cons, decide_False by done. by apply IH.
Qed.

Lemma NoDup_one_entry {A B} `{EqDecision B} (f : A → B) (l : list A) (x : A) :
  NoDup (f <$> l) → x ∈ l →
  length (filter (λ v, f v = f x) l) = 1%nat.
Proof.
  induction l as [|y l IH]; intros Hnd Hin.
  - by apply elem_of_nil in Hin.
  - rewrite fmap_cons in Hnd. apply NoDup_cons in Hnd as [Hy Hnd].
    rewrite filter_cons. destruct (decide (f y = f x)) as [Heq|Hne].
    + simpl. rewrite <- Heq, filter_absent; done.
    + apply elem_of_cons in Hin as [->|Hin]; [done|]. by apply IH.
Qed.

(** C4. In every state of the steps cache reached through addToStepsCache,
    GetAvailableSteps lists no signature twice; a signature that has an
    entry keeps that entry when more steps are added (the first writer
    wins); and a step text that occurs in two batches, as in two files,
    ends up as exactly one entry of the catalogue. *)
Theorem steps_catalogue_no_duplicates (s : SpecInfoGatherer) :
  reachable s →
  NoDup (StepValue_StepValue <$> GetAvailableSteps s)
  ∧ (∀ allSteps sig v,
        stepsCache s !! sig = Some v →
        stepsCache (addToStepsCache allSteps s) !! sig = Some v)
  ∧ (∀ steps1 steps2 a b,
        a ∈ steps1 → b ∈ steps2 →
        StepValue_StepValue a = StepValue_StepValue b →
        length (filter (λ v, StepValue_StepValue v = StepValue_StepValue a)
                  (GetAvailableSteps
                     (addToStepsCache steps2 (addToStepsCache steps1 s))))
        = 1%nat).
Proof.
  intros Hr. split; [|split].
  - apply keyed_NoDup, reachable_keyed, Hr.
  - intros allSteps sig v Hv. simpl. by apply addSteps_keeps.
  - intros steps1 steps2 a b Ha _ _.
    set (s' := addToStepsCache steps2 (addToStepsCache steps1 s)).
    assert (Hr' : reachable s') by (do 2 apply reach_add; done).
    destruct (addSteps_present steps1 (stepsCache s) a Ha) as [v Hv].
    assert (Hv' : stepsCache s' !! StepValue_StepValue a = Some v).
    { simpl. by apply addSteps_keeps. }
    assert (Hin : v ∈ GetAvailableSteps s').
    { unfold GetAvailableSteps. apply list_elem_of_fmap.
      exists (StepValue_StepValue a, v). split; [done|].
      by apply elem_of_map_to_list. }
    rewrite <- (reachable_keyed s' Hr' _ _ Hv').
    apply NoDup_one_entry; [|done].
    apply keyed_NoDup, reachable_keyed, Hr'.
Qed.

Lemma steps_catalogue_no_duplicates_witness :
  reachable (addToStepsCache [clickButton] emptyGatherer)
  ∧ length (filter (λ v, StepValue_StepValue v = StepValue_StepValue clickButton)
              (GetAvailableSteps
                 (addToStepsCache [clickButton; submitForm]
                    (addToStepsCache [clickButton]
                       (addToStepsCache [clickButton] emptyGatherer))))) = 1%nat.
Proof.
  assert (Hr : reachable (addToStepsCache [clickButton] emptyGatherer)).
  { apply reach_add, reach_init. reflexivity. }
  split; [exact Hr|].
  apply (proj2 (proj2 (steps_catalogue_no_duplicates _ Hr))
           [clickButton] [clickButton; submitForm] clickButton clickButton).
  - apply list_elem_of_here.
  - apply list_elem_of_here.
  - reflexivity.
Defined.

(** ** The specs cache and the file events *)

Lemma concat_Permutation {A} (l1 l2 : list (list A)) :
  l1 ≡ₚ l2 → concat l1 ≡ₚ concat l2.
Proof.
  induction 1 as [|x l1 l2 _ IH|x y l|l1 l2 l3 _ IH1 _ IH2]; simpl.
  - done.
  - by rewrite IH.
  - rewrite !(assoc (++)). f_equiv. apply Permutation_app_comm.
  - by rewrite IH1.
Qed.

Lemma specs_of_entry (m : gmap string (list Specification)) file l :
  m !! file = Some l →
  concat (map_to_list m).*2 ≡ₚ l ++ concat (map_to_list (delete file m)).*2.
Proof.
  intros Hl.
  change (l ++ concat (map_to_list (delete file m)).*2)
    with (concat (((file, l) :: map_to_list (delete file m)).*2)).
  apply concat_Permutation, fmap_Permutation.
  symmetry. by apply map_to_list_delete.
Qed.

Lemma elem_of_specs (m : gmap string (list Specification)) (spec : Specification) :
  spec ∈ concat (map_to_list m).*2 ↔ ∃ file l, m !! file = Some l ∧ spec ∈ l.
Proof.
  rewrite list_elem_of_In, in_concat. split.
  - intros (l & Hl & Hspec). apply list_elem_of_In, list_elem_of_fmap in Hl
      as ([file l'] & -> & Hin). apply elem_of_map_to_list in Hin.
    exists file, l'. split; [done|]. by apply list_elem_of_In.
  - intros (file & l & Hl & Hspec). exists l. split; [|by apply list_elem_of_In].
    apply list_elem_of_In, list_elem_of_fmap. exists (file, l).
    split; [done|]. by apply elem_of_map_to_list.
Qed.

(** C5. A remove event for a spec file deletes that file's entry of the
    specs cache and nothing else: the entry of every other file is as
    before; GetAvailableSpecs loses exactly the specifications stored under
    the file and lists those stored under the other files; and the steps
    cache, hence GetAvailableSteps, is untouched, so the step values that
    came from the file stay in the catalogue. *)
Theorem spec_file_remove (file : string) (s : SpecInfoGatherer) :
  specsCache (onSpecFileRemove file s) !! file = None
  ∧ (∀ other, other ≠ file →
       specsCache (onSpecFileRemove file s) !! other = specsCache s !! other)
  ∧ GetAvailableSpecs s
      ≡ₚ default [] (specsCache s !! file)
         ++ GetAvailableSpecs (onSpecFileRemove file s)
  ∧ (∀ spec, spec ∈ GetAvailableSpecs (onSpecFileRemove file s) ↔
             ∃ other l, other ≠ file ∧ specsCache s !! other = Some l ∧ spec ∈ l)
  ∧ stepsCache (onSpecFileRemove file s) = stepsCache s
  ∧ GetAvailableSteps (onSpecFileRemove file s) = GetAvailableSteps s
  ∧ conceptsCache (onSpecFileRemove file s) = conceptsCache s.
Proof.
  split; [|split; [|split; [|split; [|done]]]]; simpl.
  - apply lookup_delete_eq.
  - intros other Hne. by apply lookup_delete_ne.
  - unfold GetAvailableSpecs. simpl.
    destruct (specsCache s !! file) as [l|] eqn:E; simpl.
    + by apply specs_of_entry.
    + by rewrite delete_id.
  - intros spec. unfold GetAvailableSpecs. simpl. rewrite elem_of_specs.
    split.
    + intros (other & l & Hl & Hspec). exists other, l.
      apply lookup_delete_Some in Hl as [Hne Hl]. by repeat split.
    + intros (other & l & Hne & Hl & Hspec). exists other, l.
      split; [|done]. by apply lookup_delete_Some.
Qed.

Lemma addSteps_idem allSteps (cache : gmap string StepValue) :
  (∀ step, step ∈ allSteps → is_Some (cache !! StepValue_StepValue step)) →
  foldl addStep cache allSteps = cache.
Proof.
  induction allSteps as [|step rest IH]; intros Hall; [done|].
  simpl. destruct (Hall step) as [v Hv]; [apply list_elem_of_here|].
  unfold addStep at 2. rewrite Hv. apply IH.
  intros x Hx. apply Hall. by apply list_elem_of_further.
Qed.

Lemma addSteps_twice allSteps (cache : gmap string StepValue) :
  foldl addStep (foldl addStep cache allSteps) allSteps
  = foldl addStep cache allSteps.
Proof. apply addSteps_idem. intros step Hin. by apply addSteps_present. Qed.

Section incremental.
Context `{Parser}.
Variable σ : heap.

Lemma getParsedSpecs_dictionary specFiles s :
  is_Some (conceptDictionary (getParsedSpecs specFiles s).2).
Proof. unfold getParsedSpecs. destruct (conceptDictionary s) eqn:E; simpl; eauto. Qed.

Lemma getParsedSpecs_caches specFiles s :
  same_caches s (getParsedSpecs specFiles s).2.
Proof. unfold getParsedSpecs. by destruct (conceptDictionary s). Qed.

(** Parsing again after a first parse consults the same dictionary, so the
    same file is parsed to the same specifications. *)
Lemma getParsedSpecs_again specFiles s s' :
  conceptDictionary s' = conceptDictionary (getParsedSpecs specFiles s).2 →
  (getParsedSpecs specFiles s').1 = (getParsedSpecs specFiles s).1
  ∧ conceptDictionary (getParsedSpecs specFiles s').2 = conceptDictionary s'.
Proof.
  unfold getParsedSpecs.
  destruct (conceptDictionary s) eqn:E; simpl; rewrite ?E; intros Hd;
    rewrite Hd; simpl; by rewrite ?Hd.
Qed.

(** C10. A single-file update whose parse fails changes no cache.  When the
    parser hands onSpecFileModify no specification, the specs, concepts and
    steps caches are those of before; when the parse result of
    onConceptFileModify carries an error, the handler returns before its
    loop and the whole state is that of before. *)
Theorem failed_parse_mutates_no_cache (file : string) (s : SpecInfoGatherer) :
  ((getParsedSpecs [file] s).1 = [] →
     ∃ s', onSpecFileModify σ file s = Returns s' ∧ same_caches s s')
  ∧ (parseFailed (ParseFile file).2 = true →
     onConceptFileModify σ file s = Returns s).
Proof.
  split.
  - intros Hnone. unfold onSpecFileModify.
    pose proof (getParsedSpecs_caches [file] s) as Hsame.
    destruct (getParsedSpecs [file] s) as [parsed s1]. simpl in *. subst parsed.
    by exists s1.
  - intros Hfail. unfold onConceptFileModify.
    destruct (ParseFile file) as [concepts parseResults]. simpl in Hfail.
    by rewrite Hfail.
Qed.

(** C2, as the code has it. The single-file update of a spec file appends
    the parsed specification to the list stored under the file: the entry is
    merged with, not replaced.  Parsing the unchanged file once more
    therefore adds one more copy of its specification to GetAvailableSpecs;
    the entries of other files, the steps cache and GetAvailableSteps stay
    as they were. *)
Theorem reparse_appends (file : string) (s s1 : SpecInfoGatherer)
    (spec : Specification) (rest : list Specification) :
  (getParsedSpecs [file] s).1 = spec :: rest →
  onSpecFileModify σ file s = Returns s1 →
  ∃ s2, onSpecFileModify σ file s1 = Returns s2
    ∧ specsCache s2 !! file = Some (default [] (specsCache s1 !! file) ++ [spec])
    ∧ (∀ other, other ≠ file → specsCache s2 !! other = specsCache s1 !! other)
    ∧ GetAvailableSpecs s2 ≡ₚ spec :: GetAvailableSpecs s1
    ∧ stepsCache s2 = stepsCache s1
    ∧ GetAvailableSteps s2 = GetAvailableSteps s1.
Proof.
  intros Hparse Hrun. unfold onSpecFileModify in Hrun.
  pose proof (getParsedSpecs_dictionary [file] s) as [d Hd].
  pose proof (getParsedSpecs_again [file] s) as Hagain.
  destruct (getParsedSpecs [file] s) as [parsed sd] eqn:Hfirst.
  cbn [fst snd] in Hparse, Hagain, Hd. subst parsed.
  destruct (getStepsFromSpec σ spec) as [stepsFromSpec| |] eqn:Hsteps;
    simpl in Hrun; [|done..].
  injection Hrun as <-.
  set (s1 := addToStepsCache stepsFromSpec (addToSpecsCache file spec sd)).
  destruct (Hagain s1 eq_refl) as [Hsame Hdict].
  unfold onSpecFileModify.
  assert (Hsd1 : (getParsedSpecs [file] s1).2 = s1).
  { unfold getParsedSpecs. change (conceptDictionary s1) with (conceptDictionary sd).
    by rewrite Hd. }
  destruct (getParsedSpecs [file] s1) as [parsed sd1] eqn:Hsecond.
  cbn [fst snd] in Hsame, Hdict, Hsd1. subst parsed.
  subst sd1. rewrite Hsteps. simpl.
  eexists. split; [done|]. simpl.
  split; [|split; [|split; [|split]]].
  - by rewrite !lookup_insert_eq.
  - intros other Hne. by rewrite lookup_insert_ne.
  - unfold GetAvailableSpecs. simpl.
    set (m := <[file := default [] (specsCache sd !! file) ++ [spec]]> (specsCache sd)).
    assert (Hm : m !! file = Some (default [] (specsCache sd !! file) ++ [spec]))
      by apply lookup_insert_eq.
    rewrite Hm. simpl.
    rewrite (specs_of_entry m file _ Hm).
    rewrite (specs_of_entry (<[file := _]> m) file _ (lookup_insert_eq _ _ _)).
    rewrite delete_insert_eq.
    rewrite <- !(assoc (++)). simpl.
    symmetry. apply Permutation_middle.
  - apply addSteps_twice.
  - unfold GetAvailableSteps. simpl. by rewrite addSteps_twice.
Qed.

End incremental.

Lemma failed_parse_mutates_no_cache_witness :
  ((@getParsedSpecs exampleParser ["b.spec"%string] afterFirstParse).1 = []
   ∧ ∃ s', @onSpecFileModify exampleParser exampleStore "b.spec" afterFirstParse
           = Returns s' ∧ same_caches afterFirstParse s')
  ∧ (parseFailed (@ParseFile exampleParser "c.cpt").2 = true
     ∧ @onConceptFileModify exampleParser exampleStore "c.cpt" afterFirstParse
       = Returns afterFirstParse).
Proof.
  pose proof (@failed_parse_mutates_no_cache exampleParser exampleStore
                "b.spec" afterFirstParse) as [Hspec _].
  pose proof (@failed_parse_mutates_no_cache exampleParser exampleStore
                "c.cpt" afterFirstParse) as [_ Hconcept].
  split; split.
  - reflexivity.
  - apply Hspec. reflexivity.
  - reflexivity.
  - apply Hconcept. reflexivity.
Defined.

(** Parsing a.spec a second time, unchanged, leaves two copies of its
    specification in the cache entry and in GetAvailableSpecs. *)
Lemma reparse_replaces_counterexample :
  @onSpecFileModify exampleParser exampleStore "a.spec" emptyGatherer
    = Returns afterFirstParse
  ∧ @onSpecFileModify exampleParser exampleStore "a.spec" afterFirstParse
    = Returns afterSecondParse
  ∧ specsCache afterSecondParse !! "a.spec"%string = Some [exampleSpec; exampleSpec]
  ∧ GetAvailableSpecs afterFirstParse = [exampleSpec]
  ∧ GetAvailableSpecs afterSecondParse = [exampleSpec; exampleSpec]
  ∧ ¬ (GetAvailableSpecs afterSecondParse ≡ₚ GetAvailableSpecs afterFirstParse).
Proof.
  repeat split; try (vm_compute; reflexivity).
  intros Hperm. apply Permutation_length in Hperm. vm_compute in Hperm. lia.
Qed.

Lemma reparse_appends_witness :
  (@getParsedSpecs exampleParser ["a.spec"%string] emptyGatherer).1 = [exampleSpec]
  ∧ @onSpecFileModify exampleParser exampleStore "a.spec" emptyGatherer
    = Returns afterFirstParse
  ∧ ∃ s2, @onSpecFileModify exampleParser exampleStore "a.spec" afterFirstParse
          = Returns s2
    ∧ GetAvailableSpecs s2 ≡ₚ exampleSpec :: GetAvailableSpecs afterFirstParse
    ∧ GetAvailableSteps s2 = GetAvailableSteps afterFirstParse.
Proof.
  assert (Hparse : (@getParsedSpecs exampleParser ["a.spec"%string] emptyGatherer).1
                   = [exampleSpec]) by reflexivity.
  assert (Hrun : @onSpecFileModify exampleParser exampleStore "a.spec" emptyGatherer
                 = Returns afterFirstParse) by (vm_compute; reflexivity).
  split; [exact Hparse|]. split; [exact Hrun|].
  destruct (@reparse_appends exampleParser exampleStore "a.spec" emptyGatherer
              afterFirstParse exampleSpec [] Hparse Hrun)
    as (s2 & Hs2 & _ & _ & Hspecs & _ & Hsteps).
  exists s2. auto.
Defined.

(** ** The scenario at a line *)

Lemma InSpan_contains sce lineNumber :
  InSpan sce lineNumber = true ↔ contains sce lineNumber.
Proof. unfold InSpan, contains. by rewrite bool_decide_eq_true. Qed.

Lemma InSpan_not_contains sce lineNumber :
  InSpan sce lineNumber = false ↔ ¬ contains sce lineNumber.
Proof. unfold InSpan, contains. by rewrite bool_decide_eq_false. Qed.

(** Below the largest [int] the sum does not wrap. *)
Lemma int_add_1 line : int_min ≤ line < int_max → int_add line 1 = line + 1.
Proof.
  unfold int_add, int_wrap, int_min, int_max. intros Hline.
  rewrite Z.mod_small; lia.
Qed.

Lemma getScenarioAt_from_found ifs front sce back file line :
  Forall (λ s, ¬ contains s (int_add line 1)) front →
  contains sce (int_add line 1) →
  getScenarioAt_from ifs (front ++ sce :: back) file line
  = OneScenario (getScenarioInfo sce file).
Proof.
  intros Hfront Hsce. revert ifs.
  induction Hfront as [|s front Hs _ IH]; intros ifs; simpl.
  - apply InSpan_contains in Hsce. by rewrite Hsce.
  - apply InSpan_not_contains in Hs. rewrite Hs. apply IH.
Qed.

Lemma getScenarioAt_from_none ifs scenarios file line :
  Forall (λ s, ¬ contains s (int_add line 1)) scenarios →
  getScenarioAt_from ifs scenarios file line
  = AllScenarios (ifs ++ ((λ s, getScenarioInfo s file) <$> scenarios)).
Proof.
  intros Hnone. revert ifs.
  induction Hnone as [|s rest Hs _ IH]; intros ifs; simpl.
  - by rewrite app_nil_r.
  - apply InSpan_not_contains in Hs. rewrite Hs, IH.
    by rewrite <- (assoc (++)).
Qed.

Lemma first_containing (scenarios : list Scenario) lineNumber :
  Exists (λ s, contains s lineNumber) scenarios →
  ∃ front sce back,
    scenarios = front ++ sce :: back
    ∧ Forall (λ s, ¬ contains s lineNumber) front
    ∧ contains sce lineNumber.
Proof.
  induction scenarios as [|s rest IH]; intros Hex.
  - by apply Exists_nil in Hex.
  - destruct (decide (contains s lineNumber)) as [Hs|Hs].
    + exists [], s, rest. split; [done|]. split; [constructor|done].
    + apply Exists_cons in Hex as [Hex|Hex]; [done|].
      destruct (IH Hex) as (front & sce & back & -> & Hfront & Hsce).
      exists (s :: front), sce, back. split; [done|]. split; [|done].
      by constructor.
Qed.

(** C9. The line number that getScenarioAt receives is the line of an
    editor position, which counts from 0, and spans count lines from 1:
    the same line is line + 1 (in Go's int) in the spans.  When the span of
    some scenario contains this line, getScenarioAt returns the summary of
    such a scenario, the first one in the list; when no span contains it,
    the result is the list of the summaries of all the scenarios, in
    order. *)
Theorem getScenarioAt_spec (scenarios : list Scenario) (file : string) (line : Z) :
  (Exists (λ sce, contains sce (int_add line 1)) scenarios →
     ∃ front sce back,
       scenarios = front ++ sce :: back
       ∧ Forall (λ s, ¬ contains s (int_add line 1)) front
       ∧ contains sce (int_add line 1)
       ∧ getScenarioAt scenarios file line = OneScenario (getScenarioInfo sce file))
  ∧ (Forall (λ sce, ¬ contains sce (int_add line 1)) scenarios →
     getScenarioAt scenarios file line
     = AllScenarios ((λ sce, getScenarioInfo sce file) <$> scenarios)).
Proof.
  split.
  - intros Hex.
    destruct (first_containing _ _ Hex) as (front & sce & back & -> & Hfront & Hsce).
    exists front, sce, back. split; [done|]. split; [done|]. split; [done|].
    by apply getScenarioAt_from_found.
  - intros Hnone. unfold getScenarioAt.
    by rewrite getScenarioAt_from_none.
Qed.

Lemma getScenarioAt_spec_witness :
  (Exists (λ sce, contains sce (int_add 8 1)) [loginScenario; logoutScenario]
   ∧ ∃ front sce back,
       [loginScenario; logoutScenario] = front ++ sce :: back
       ∧ Forall (λ s, ¬ contains s (int_add 8 1)) front
       ∧ contains sce (int_add 8 1)
       ∧ getScenarioAt [loginScenario; logoutScenario] "a.spec" 8
         = OneScenario (getScenarioInfo sce "a.spec"))
  ∧ (Forall (λ sce, ¬ contains sce (int_add 6 1)) [loginScenario; logoutScenario]
     ∧ getScenarioAt [loginScenario; logoutScenario] "a.spec" 6
       = AllScenarios [mkScenarioInfo "Login" 3 "a.spec:3";
                       mkScenarioInfo "Logout" 8 "a.spec:8"]).
Proof.
  assert (Hex : Exists (λ sce, contains sce (int_add 8 1))
                  [loginScenario; logoutScenario]).
  { apply Exists_cons_tl, Exists_cons_hd. vm_compute. split; discriminate. }
  assert (Hnone : Forall (λ sce, ¬ contains sce (int_add 6 1))
                    [loginScenario; logoutScenario]).
  { repeat constructor; vm_compute; intros [H1 H2]; auto. }
  split; split; [exact Hex| |exact Hnone|].
  - exact (proj1 (getScenarioAt_spec _ "a.spec" 8) Hex).
  - rewrite (proj2 (getScenarioAt_spec _ "a.spec" 6) Hnone). reflexivity.
Defined.

(** ** Items and scenarios of a specification *)

Lemma remove_at_spec {A} (l : list A) (i : Z) :
  remove_at l i
  = if decide (0 ≤ i < Z.of_nat (length l))
    then Returns (delete (Z.to_nat i) l) else Panics.
Proof.
  unfold remove_at, slice_to, slice_from.
  rewrite delete_take_drop.
  repeat case_decide; simpl; try lia; try done.
  - rewrite (drop_ge l (S (Z.to_nat i))) by lia. by rewrite app_nil_r.
  - subst i. simpl. by replace (Z.to_nat (0 + 1)) with 1%nat by lia.
  - by replace (Z.to_nat (i + 1)) with (S (Z.to_nat i)) by lia.
Qed.

Lemma remove_at_nat {A} (l : list A) (n : nat) (x : A) :
  l !! n = Some x → remove_at l (Z.of_nat n) = Returns (delete n l).
Proof.
  intros Hx. apply lookup_lt_Some in Hx.
  rewrite remove_at_spec, decide_True by lia. by rewrite Nat2Z.id.
Qed.

Lemma index_nat {A} (l : list A) (n : nat) (x : A) :
  l !! n = Some x → index l (Z.of_nat n) = Returns x.
Proof.
  intros Hx. unfold index. rewrite decide_True by lia.
  by rewrite Nat2Z.id, Hx.
Qed.

Section scenarios.
Context `{DeepEq}.

Lemma getIndexFor_from_first (scenarios : list Scenario) (start : Z) (k : nat)
    (scenario : Scenario) :
  scenarios !! k = Some scenario →
  (∀ j b, (j < k)%nat → scenarios !! j = Some b → DeepEqual scenario b = false) →
  getIndexFor_from start scenario scenarios = start + Z.of_nat k.
Proof.
  revert start k. induction scenarios as [|a rest IH]; intros start k Hk Hbefore.
  - done.
  - destruct k as [|k]; simpl in *.
    + injection Hk as ->. rewrite DeepEqual_refl. lia.
    + rewrite (Hbefore 0%nat a) by (done || lia).
      rewrite (IH (start + 1) k Hk); [lia|].
      intros j b Hj Hb. apply (Hbefore (S j)); [lia|done].
Qed.

Lemma getIndexFor_distinct (scenarios : list Scenario) (k : nat) (scenario : Scenario) :
  deep_distinct scenarios → scenarios !! k = Some scenario →
  getIndexFor scenario scenarios = Z.of_nat k.
Proof.
  intros Hd Hk. unfold getIndexFor.
  rewrite (getIndexFor_from_first scenarios 0 k scenario Hk); [lia|].
  intros j b Hj Hb. destruct (DeepEqual scenario b) eqn:E; [|done].
  pose proof (Hd k j scenario b Hk Hb E). lia.
Qed.

Lemma deep_distinct_NoDup (scenarios : list Scenario) :
  deep_distinct scenarios → NoDup scenarios.
Proof.
  intros Hd. apply NoDup_alt. intros i j a Hi Hj.
  apply (Hd i j a a Hi Hj), DeepEqual_refl.
Qed.

Lemma deep_distinct_delete (scenarios : list Scenario) (k : nat) :
  deep_distinct scenarios → deep_distinct (delete k scenarios).
Proof.
  intros Hd i j a b Hi Hj Hab.
  rewrite list_lookup_delete in Hi, Hj.
  repeat case_decide; pose proof (Hd _ _ a b Hi Hj Hab); lia.
Qed.

Lemma NoDup_delete_absent {A} (l : list A) (k : nat) (x : A) :
  NoDup l → l !! k = Some x → x ∉ delete k l.
Proof.
  intros Hnd Hk Hin. apply list_elem_of_lookup in Hin as [i Hi].
  rewrite list_lookup_delete in Hi.
  case_decide; pose proof (NoDup_lookup _ _ _ _ Hnd Hk Hi); lia.
Qed.

End scenarios.

Lemma scenarios_of_app (l1 l2 : list Item) :
  scenarios_of (l1 ++ l2) = scenarios_of l1 ++ scenarios_of l2.
Proof. apply omap_app. Qed.

Lemma scenarios_of_elem (items : list Item) (scenario : Scenario) :
  scenario ∈ scenarios_of items ↔ ItemScenario scenario ∈ items.
Proof.
  unfold scenarios_of. rewrite list_elem_of_omap. split.
  - intros (item & Hin & Heq). destruct item; simplify_eq/=. done.
  - intros Hin. by exists (ItemScenario scenario).
Qed.

(** Deleting the item at [n] deletes, when it is a scenario, the scenario
    that stands at the matching place among the scenarios. *)
Lemma scenarios_of_delete_scenario (items : list Item) (n : nat) (scenario : Scenario) :
  items !! n = Some (ItemScenario scenario) →
  let k := length (scenarios_of (take n items)) in
  scenarios_of items !! k = Some scenario
  ∧ scenarios_of (delete n items) = delete k (scenarios_of items).
Proof.
  intros Hn k.
  rewrite <- (take_drop_middle items n _ Hn) at 1 3.
  rewrite delete_take_drop, !scenarios_of_app. simpl.
  fold (scenarios_of (drop (S n) items)). subst k. split.
  - by rewrite lookup_app_r, Nat.sub_diag.
  - rewrite delete_middle. done.
Qed.

Lemma scenarios_of_delete_other (items : list Item) (n : nat) (item : Item) :
  items !! n = Some item → Kind item ≠ ScenarioKind →
  scenarios_of (delete n items) = scenarios_of items.
Proof.
  intros Hn Hkind.
  rewrite <- (take_drop_middle items n _ Hn) at 2.
  rewrite delete_take_drop, !scenarios_of_app. f_equal.
  by destruct item.
Qed.

Section removal_facts.
Context `{DeepEq}.

Lemma AddScenario_consistent (scenario : Scenario) (spec : Specification) :
  consistent spec → consistent (AddScenario scenario spec).
Proof.
  unfold consistent. simpl. intros ->. by rewrite scenarios_of_app.
Qed.

(** What [removeItem] does to a consistent specification whose scenarios
    are pairwise distinct. *)
Lemma removeItem_consistent (n : nat) (item : Item) (spec : Specification) :
  consistent spec → deep_distinct (Spec_Scenarios spec) →
  Spec_Items spec !! n = Some item →
  ∃ spec', removeItem (Z.of_nat n) spec = Returns spec'
    ∧ Spec_Items spec' = delete n (Spec_Items spec)
    ∧ consistent spec'
    ∧ deep_distinct (Spec_Scenarios spec')
    ∧ (∀ scenario, item = ItemScenario scenario →
         (scenario ∉ Spec_Scenarios spec')
         ∧ (ItemScenario scenario ∉ Spec_Items spec')).
Proof.
  intros Hc Hd Hn. unfold removeItem.
  rewrite (index_nat _ _ _ Hn), (remove_at_nat _ _ _ Hn). simpl.
  destruct (decide (Kind item = ScenarioKind)) as [Hkind|Hkind].
  - destruct item as [scenario| | | | | | |]; try discriminate Hkind.
    destruct (scenarios_of_delete_scenario _ _ _ Hn) as [Hk Hdel].
    set (k := length (scenarios_of (take n (Spec_Items spec)))) in *.
    rewrite <- Hc in Hk, Hdel.
    unfold removeScenario. simpl.
    rewrite (getIndexFor_distinct _ k _ Hd Hk), (remove_at_nat _ _ _ Hk). simpl.
    eexists. split; [done|]. simpl.
    assert (Habsent : scenario ∉ delete k (Spec_Scenarios spec)).
    { apply NoDup_delete_absent; [|done]. by apply deep_distinct_NoDup. }
    split; [done|]. split; [done|]. split; [by apply deep_distinct_delete|].
    intros sc [= <-]. split; [done|].
    by rewrite <- scenarios_of_elem, Hdel.
  - eexists. split; [done|]. simpl.
    split; [done|]. split.
    { unfold consistent. simpl.
      by rewrite (scenarios_of_delete_other _ _ _ Hn Hkind). }
    split; [done|].
    intros sc ->. by destruct Hkind.
Qed.

Lemma removeItem_items (i : Z) (spec spec' : Specification) :
  removeItem i spec = Returns spec' →
  0 ≤ i < Z.of_nat (length (Spec_Items spec))
  ∧ Spec_Items spec' = delete (Z.to_nat i) (Spec_Items spec).
Proof.
  unfold removeItem, index. intros Hrun.
  destruct (decide (0 ≤ i)) as [Hi|]; [|done].
  destruct (Spec_Items spec !! Z.to_nat i) as [item|] eqn:Hitem; [|done].
  apply lookup_lt_Some in Hitem. simpl in Hrun.
  rewrite remove_at_spec, decide_True in Hrun by lia. simpl in Hrun.
  split; [lia|].
  destruct (decide (Kind item = ScenarioKind)); [|injection Hrun as <-; reflexivity].
  destruct item; try done. unfold removeScenario in Hrun. simpl in Hrun.
  destruct (remove_at _ _); simpl in Hrun; [|done..].
  injection Hrun as <-. reflexivity.
Qed.

Lemma removeItem_no_fuel (i : Z) (spec : Specification) :
  removeItem i spec ≠ OutOfFuel.
Proof.
  unfold removeItem, index, removeScenario.
  case_decide; [|done]. destruct (_ !! _) as [item|]; [|done]. simpl.
  rewrite remove_at_spec. case_decide; [|done]. simpl.
  case_decide; [|done]. destruct item; try done.
  rewrite remove_at_spec. by case_decide.
Qed.

Context `{SpecItemFilter}.

(** The budget that [Filter] gives its loop is never used up. *)
Lemma Filter_from_fuel (fuel : nat) (i : Z) (spec : Specification) :
  0 ≤ i → Z.of_nat (length (Spec_Items spec)) - i ≤ Z.of_nat fuel →
  Filter_from fuel i spec ≠ OutOfFuel.
Proof.
  revert i spec. induction fuel as [|fuel IH]; intros i spec Hi Hfuel; simpl.
  - by rewrite decide_False by lia.
  - case_decide; [|done].
    destruct (lookup_lt_is_Some_2 (Spec_Items spec) (Z.to_nat i)) as [item Hitem];
      [lia|].
    unfold index at 1. rewrite decide_True, Hitem by done. simpl.
    destruct (filter_Filter item).
    + destruct (removeItem i spec) as [spec'| |] eqn:Hrun; simpl.
      * apply removeItem_items in Hrun as [Hrange Hitems].
        apply IH; [lia|]. rewrite Hitems, length_delete by eauto. lia.
      * discriminate.
      * by destruct (removeItem_no_fuel i spec).
    + apply IH; lia.
Qed.

Lemma Filter_fuel (spec : Specification) : Filter spec ≠ OutOfFuel.
Proof. apply Filter_from_fuel; lia. Qed.

Lemma Filter_from_consistent (fuel n : nat) (spec : Specification) :
  consistent spec → deep_distinct (Spec_Scenarios spec) →
  (length (Spec_Items spec) - n ≤ fuel)%nat →
  ∃ spec', Filter_from fuel (Z.of_nat n) spec = Returns spec'
    ∧ Spec_Items spec'
      = take n (Spec_Items spec) ++ filter kept (drop n (Spec_Items spec))
    ∧ consistent spec'.
Proof.
  revert n spec. induction fuel as [|fuel IH]; intros n spec Hc Hd Hfuel.
  - simpl. rewrite decide_False by lia.
    exists spec. split; [done|]. split; [|done].
    rewrite take_ge, drop_ge by lia. by rewrite app_nil_r.
  - simpl. destruct (decide (Z.of_nat n < Z.of_nat (length (Spec_Items spec))))
      as [Hlt|Hge].
    + destruct (lookup_lt_is_Some_2 (Spec_Items spec) n) as [item Hn]; [lia|].
      rewrite (index_nat _ _ _ Hn). simpl.
      rewrite (drop_S _ _ _ Hn).
      destruct (filter_Filter item) eqn:Hf.
      * destruct (removeItem_consistent n item spec Hc Hd Hn)
          as (spec1 & -> & Hitems & Hc1 & Hd1 & _). simpl.
        replace (Z.of_nat n - 1 + 1) with (Z.of_nat n) by lia.
        destruct (IH n spec1 Hc1 Hd1) as (spec' & -> & Hitems' & Hc').
        { rewrite Hitems, length_delete by eauto. lia. }
        exists spec'. split; [done|]. split; [|done].
        rewrite Hitems', Hitems, filter_cons, decide_False
          by (unfold kept; congruence).
        rewrite !delete_take_drop.
        rewrite take_app_le, take_take by (rewrite length_take; lia).
        rewrite drop_app_ge by (rewrite length_take; lia).
        rewrite length_take.
        replace (n `min` n)%nat with n by lia.
        replace (n - n `min` length (Spec_Items spec))%nat with 0%nat by lia.
        done.
      * replace (Z.of_nat n + 1) with (Z.of_nat (S n)) by lia.
        destruct (IH (S n) spec Hc Hd) as (spec' & -> & Hitems' & Hc'); [lia|].
        exists spec'. split; [done|]. split; [|done].
        rewrite Hitems', filter_cons, decide_True by done.
        rewrite (take_S_r _ _ _ Hn). by rewrite <- (assoc (++)).
    + exists spec. split; [done|]. split; [|done].
      rewrite take_ge, drop_ge by lia. by rewrite app_nil_r.
Qed.

(** C8, as the code has it. For a specification whose Scenarios are the
    scenarios among its Items, in order: AddScenario keeps that and puts the
    scenario at the end of both lists.  When no two of the scenarios are
    deeply equal, removeItem and Filter keep it too: removeItem deletes the
    item at the index and leaves the other items in their order, a removed
    scenario is in neither list afterwards, and Filter leaves exactly the
    items that the filter does not select, in their order. *)
Theorem scenarios_stay_consistent (spec : Specification) :
  consistent spec →
  (∀ scenario,
      consistent (AddScenario scenario spec)
      ∧ Spec_Items (AddScenario scenario spec)
        = Spec_Items spec ++ [ItemScenario scenario]
      ∧ Spec_Scenarios (AddScenario scenario spec)
        = Spec_Scenarios spec ++ [scenario])
  ∧ (deep_distinct (Spec_Scenarios spec) →
     (∀ n item, Spec_Items spec !! n = Some item →
        ∃ spec', removeItem (Z.of_nat n) spec = Returns spec'
          ∧ Spec_Items spec' = delete n (Spec_Items spec)
          ∧ consistent spec'
          ∧ (∀ scenario, item = ItemScenario scenario →
               (scenario ∉ Spec_Scenarios spec')
               ∧ (ItemScenario scenario ∉ Spec_Items spec')))
     ∧ (∃ spec', Filter spec = Returns spec'
          ∧ Spec_Items spec' = filter kept (Spec_Items spec)
          ∧ consistent spec')).
Proof.
  intros Hc. split.
  - intros scenario. split; [by apply AddScenario_consistent|done].
  - intros Hd. split.
    + intros n item Hn.
      destruct (removeItem_consistent n item spec Hc Hd Hn)
        as (spec' & Hrun & Hitems & Hc' & _ & Habsent).
      by exists spec'.
    + destruct (Filter_from_consistent (length (Spec_Items spec)) 0 spec Hc Hd)
        as (spec' & Hrun & Hitems & Hc'); [lia|].
      exists spec'. by rewrite take_0, drop_0 in Hitems.
Qed.

End removal_facts.

Lemma twoScenarios_distinct :
  @deep_distinct valueDeepEq (Spec_Scenarios twoScenarios).
Proof.
  intros i j a b Hi Hj Hab.
  destruct i as [|[|i]], j as [|[|j]]; simpl in Hi, Hj; simplify_eq; try done;
    by vm_compute in Hab.
Qed.

Lemma scenarios_stay_consistent_witness :
  consistent twoScenarios
  ∧ @deep_distinct valueDeepEq (Spec_Scenarios twoScenarios)
  ∧ (∃ spec', @removeItem valueDeepEq 0 twoScenarios = Returns spec'
       ∧ Spec_Items spec' = delete 0%nat (Spec_Items twoScenarios)
       ∧ consistent spec'
       ∧ (∀ scenario, ItemScenario loginScenario = ItemScenario scenario →
            (scenario ∉ Spec_Scenarios spec')
            ∧ (ItemScenario scenario ∉ Spec_Items spec')))
  ∧ (∃ spec', @Filter valueDeepEq scenarioFilter twoScenarios = Returns spec'
       ∧ Spec_Items spec' = filter (@kept scenarioFilter) (Spec_Items twoScenarios)
       ∧ consistent spec').
Proof.
  assert (Hc : consistent twoScenarios) by reflexivity.
  split; [exact Hc|]. split; [exact twoScenarios_distinct|].
  destruct (@scenarios_stay_consistent valueDeepEq scenarioFilter twoScenarios Hc)
    as [_ Hremove].
  destruct (Hremove twoScenarios_distinct) as [HremoveItem HFilter].
  split; [|exact HFilter].
  exact (HremoveItem 0%nat (ItemScenario loginScenario) eq_refl).
Defined.

(** Removing the last item of [repeatedScenario], the second occurrence of
    the scenario, takes the first occurrence out of Scenarios: the two lists
    no longer agree, and the removed scenario is still in both. *)
Lemma scenarios_stay_consistent_counterexample :
  consistent repeatedScenario
  ∧ ∃ spec', @removeItem valueDeepEq 2 repeatedScenario = Returns spec'
      ∧ Spec_Items spec' = [ItemScenario loginScenario; ItemScenario logoutScenario]
      ∧ Spec_Scenarios spec' = [logoutScenario; loginScenario]
      ∧ ¬ consistent spec'
      ∧ loginScenario ∈ Spec_Scenarios spec'
      ∧ ItemScenario loginScenario ∈ Spec_Items spec'.
Proof.
  split; [reflexivity|].
  eexists. split; [vm_compute; reflexivity|]. simpl.
  split; [done|]. split; [done|]. split; [|split].
  - unfold consistent. simpl. discriminate.
  - apply list_elem_of_further, list_elem_of_here.
  - apply list_elem_of_here.
Qed.

(** ** The argument lookup *)

Lemma StepArg_eta (arg : StepArg) :
  mkStepArg (StepArg_Name arg) (StepArg_Value arg) (StepArg_ArgType arg)
            (StepArg_Table arg) = arg.
Proof. by destruct arg. Qed.

Lemma AddArgValue_undeclared lookup name stepArg :
  ¬ declared lookup name →
  ∃ err, AddArgValue lookup name stepArg = Returns (lookup, Some err).
Proof.
  unfold declared, AddArgValue. intros Hn.
  destruct (ParamIndexMap lookup !! name) eqn:E; [by destruct Hn|]. eauto.
Qed.

Lemma AddArgValue_declared lookup name stepArg :
  lookup_wf lookup → declared lookup name →
  ∃ lookup', AddArgValue lookup name stepArg = Returns (lookup', None)
    ∧ ParamIndexMap lookup' = ParamIndexMap lookup
    ∧ length (paramValue lookup') = length (paramValue lookup)
    ∧ GetArg lookup' name = Returns (inl (Some stepArg))
    ∧ (lookup_inj lookup → ∀ other, other ≠ name →
         GetArg lookup' other = GetArg lookup other).
Proof.
  intros Hwf [i Hi]. unfold AddArgValue. rewrite Hi.
  pose proof (Hwf _ _ Hi) as Hlt.
  destruct (lookup_lt_is_Some_2 (paramValue lookup) i Hlt) as [row Hrow].
  rewrite Hrow. eexists. split; [done|]. unfold GetArg. simpl.
  split; [done|]. split; [by rewrite length_insert|]. split.
  - by rewrite Hi, list_lookup_insert_eq.
  - intros Hinj other Hne.
    destruct (ParamIndexMap lookup !! other) as [k|] eqn:Hk; [|done].
    rewrite list_lookup_insert_ne; [done|].
    intros ->. apply Hne. by apply (Hinj _ _ _ Hk Hi).
Qed.

Lemma lookup_wf_same lookup lookup' :
  ParamIndexMap lookup' = ParamIndexMap lookup →
  length (paramValue lookup') = length (paramValue lookup) →
  lookup_wf lookup → lookup_wf lookup'.
Proof. unfold lookup_wf. intros -> ->. done. Qed.

Lemma lookup_inj_same lookup lookup' :
  ParamIndexMap lookup' = ParamIndexMap lookup →
  lookup_inj lookup → lookup_inj lookup'.
Proof. unfold lookup_inj. intros ->. done. Qed.

(** The loop returns whenever the call-site list is not the longer one; the
    error tells whether a used name is undeclared. *)
Lemma PopulateConceptLookup_from_returns conceptArgs stepArgs i lookup :
  lookup_wf lookup →
  (i + length stepArgs ≤ length conceptArgs)%nat →
  ∃ lookup' err,
    PopulateConceptLookup_from i lookup conceptArgs stepArgs = Returns (lookup', err)
    ∧ ParamIndexMap lookup' = ParamIndexMap lookup
    ∧ length (paramValue lookup') = length (paramValue lookup)
    ∧ (err = None ↔
       ∀ j conceptArg, (i ≤ j < i + length stepArgs)%nat →
                       conceptArgs !! j = Some conceptArg →
                       declared lookup (StepArg_Value conceptArg)).
Proof.
  revert i lookup. induction stepArgs as [|arg rest IH]; intros i lookup Hwf Hlen.
  - exists lookup, None. simpl. repeat split; try done. intros j c Hj. lia.
  - simpl in *.
    destruct (lookup_lt_is_Some_2 conceptArgs i) as [c Hc]; [lia|]. rewrite Hc.
    destruct (decide (declared lookup (StepArg_Value c))) as [Hdecl|Hundecl].
    + destruct (AddArgValue_declared lookup (StepArg_Value c)
                  (mkStepArg (StepArg_Name arg) (StepArg_Value arg)
                     (StepArg_ArgType arg) (StepArg_Table arg)) Hwf Hdecl)
        as (lookup1 & -> & Hmap & Hrows & _).
      destruct (IH (S i) lookup1) as (lookup' & err & -> & Hmap' & Hrows' & Herr).
      { by apply (lookup_wf_same lookup). }
      { lia. }
      exists lookup', err. split; [done|].
      split; [congruence|]. split; [congruence|].
      rewrite Herr. unfold declared. rewrite Hmap. split.
      * intros Hrest j c' Hj Hc'. destruct (decide (j = i)) as [->|Hne].
        -- by simplify_eq.
        -- apply (Hrest j); [lia|done].
      * intros Hall j c' Hj Hc'. apply (Hall j); [lia|done].
    + destruct (AddArgValue_undeclared lookup (StepArg_Value c)
                  (mkStepArg (StepArg_Name arg) (StepArg_Value arg)
                     (StepArg_ArgType arg) (StepArg_Table arg)) Hundecl)
        as [e ->].
      exists lookup, (Some e). repeat split; try done.
      intros Hall. destruct Hundecl. apply (Hall i); [lia|done].
Qed.

(** What a run without error has bound. *)
Lemma PopulateConceptLookup_from_binds conceptArgs stepArgs i lookup lookup' :
  lookup_wf lookup → lookup_inj lookup →
  PopulateConceptLookup_from i lookup conceptArgs stepArgs = Returns (lookup', None) →
  (∀ name,
      (∀ j conceptArg, (i ≤ j < i + length stepArgs)%nat →
                       conceptArgs !! j = Some conceptArg →
                       StepArg_Value conceptArg ≠ name) →
      GetArg lookup' name = GetArg lookup name)
  ∧ (∀ j conceptArg arg,
      stepArgs !! j = Some arg →
      conceptArgs !! (i + j)%nat = Some conceptArg →
      (∀ j' later, (j < j' < length stepArgs)%nat →
                   conceptArgs !! (i + j')%nat = Some later →
                   StepArg_Value later ≠ StepArg_Value conceptArg) →
      GetArg lookup' (StepArg_Value conceptArg) = Returns (inl (Some arg))).
Proof.
  revert i lookup. induction stepArgs as [|arg rest IH];
    intros i lookup Hwf Hinj Hrun.
  - simpl in Hrun. injection Hrun as <-. split; [done|]. intros j c a Hj. done.
  - simpl in Hrun. destruct (conceptArgs !! i) as [c|] eqn:Hc; [|done].
    rewrite StepArg_eta in Hrun.
    destruct (decide (declared lookup (StepArg_Value c))) as [Hdecl|Hundecl].
    2:{ destruct (AddArgValue_undeclared lookup (StepArg_Value c) arg Hundecl)
          as [e He]. by rewrite He in Hrun. }
    destruct (AddArgValue_declared lookup (StepArg_Value c) arg Hwf Hdecl)
      as (lookup1 & Hadd & Hmap & Hrows & Hget & Hframe).
    rewrite Hadd in Hrun.
    destruct (IH (S i) lookup1) as [IHframe IHbinds].
    { by apply (lookup_wf_same lookup). }
    { by apply (lookup_inj_same lookup). }
    { done. }
    split.
    + intros name Hname. rewrite IHframe.
      * apply Hframe; [done|]. intros ->. apply (Hname i c); simpl; [lia|done..].
      * intros j c' Hj. apply Hname. simpl. lia.
    + intros j c' a Hj Hc' Hlater. destruct j as [|j]; simpl in Hj.
      * injection Hj as ->. rewrite Nat.add_0_r in Hc'. simplify_eq.
        rewrite IHframe; [done|].
        intros j' q Hj' Hq.
        replace j' with (i + (j' - i))%nat in Hq by lia.
        apply (Hlater (j' - i)%nat q); simpl; [lia|done].
      * apply (IHbinds j c' a Hj).
        -- by replace (S i + j)%nat with (i + S j)%nat by lia.
        -- intros j' q Hj' Hq. apply (Hlater (S j') q); simpl; [lia|].
           by replace (i + S j')%nat with (S i + j')%nat by lia.
Qed.

(** ** The store of steps *)

Lemma bind_returns {A B} (m : M A) (k : A → M B) (h h' : heap) (a : A) :
  m h = Returns (a, h') → (m ≫= k) h = k a h'.
Proof. unfold mbind, M_bind. by intros ->. Qed.

Lemma tree_weaken (h h' : heap) (depth : nat) (p : addr) :
  h ⊆ h' → tree h depth p → tree h' depth p.
Proof.
  intros Hsub. revert p. induction depth as [|d IH]; intros p; [done|].
  simpl. intros (s & Hs & Hnested). exists s. split.
  - by apply (lookup_weaken h).
  - eapply Forall_impl; [exact Hnested|]. intros q. apply IH.
Qed.

Lemma allocated_weaken (h h' : heap) (p : addr) :
  h ⊆ h' → allocated h p → allocated h' p.
Proof. intros Hsub [s Hs]. exists s. by apply (lookup_weaken h). Qed.

Lemma allocated_insert (h : heap) (p q : addr) (s : Step) :
  allocated h q → allocated (<[p := s]> h) q.
Proof.
  unfold allocated. rewrite lookup_insert. case_decide; eauto.
Qed.

Lemma GetCopy_nested_total (copy : addr → M (addr + error)) (steps : list addr)
    (h : heap) :
  (∀ p h', p ∈ steps → h ⊆ h' →
     ∃ cp h'', copy p h' = Returns (inl cp, h'') ∧ h' ⊆ h'' ∧ allocated h'' cp) →
  ∃ copies h1,
    GetCopy_nested copy steps h = Returns (inl copies, h1)
    ∧ h ⊆ h1
    ∧ Forall (allocated h1) copies
    ∧ length copies = length steps.
Proof.
  revert h. induction steps as [|p rest IH]; intros h Hcopy.
  - exists [], h. by repeat split.
  - destruct (Hcopy p h) as (cp & h' & Hp & Hsub & Hcp);
      [apply list_elem_of_here|done|].
    destruct (IH h') as (copies & h1 & Hrest & Hsub1 & Hall & Hlen).
    { intros q h'' Hq Hsub'. apply Hcopy; [by apply list_elem_of_further|].
      by transitivity h'. }
    exists (cp :: copies), h1. split.
    + simpl. rewrite (bind_returns _ _ _ _ _ Hp).
      by rewrite (bind_returns _ _ _ _ _ Hrest).
    + split; [by transitivity h'|]. split; [|simpl; by rewrite Hlen].
      constructor; [|done]. by apply (allocated_weaken h').
Qed.

(** With a budget above the depth of the tree, [GetCopy] returns a new
    object that holds the fields of the original and the copies of its
    nested steps, and changes no object that was there. *)
Lemma GetCopy_total (depth : nat) (p : addr) (h : heap) :
  tree h depth p →
  ∃ cp h1 s copies,
    h !! p = Some s
    ∧ GetCopy depth p h = Returns (inl cp, h1)
    ∧ h ⊆ h1
    ∧ h !! cp = None
    ∧ h1 !! cp = Some (set_ConceptSteps copies s)
    ∧ Forall (allocated h1) copies
    ∧ length copies = length (Step_ConceptSteps s).
Proof.
  revert p h. induction depth as [|d IH]; intros p h; [done|].
  simpl. intros (s & Hs & Hnested).
  destruct (GetCopy_nested_total (GetCopy d) (Step_ConceptSteps s) h)
    as (copies & h1 & Hcopies & Hsub & Hall & Hlen).
  { intros q h' Hq Hsub.
    destruct (IH q h') as (cq & h'' & sq & cs & _ & Hrun & Hsub' & _ & Hcq & _).
    { apply (tree_weaken h); [done|].
      by apply (proj1 (Forall_forall _ _) Hnested). }
    exists cq, h''. split; [done|]. split; [done|]. by eexists. }
  set (cp := fresh (dom h1)).
  assert (Hfresh : h1 !! cp = None).
  { apply not_elem_of_dom, is_fresh. }
  exists cp, (<[cp := set_ConceptSteps copies s]> h1), s, copies.
  split; [done|]. split.
  { assert (Hderef : deref p h = Returns (s, h)) by (unfold deref; by rewrite Hs).
    rewrite (bind_returns _ _ _ _ _ Hderef).
    by rewrite (bind_returns _ _ _ _ _ Hcopies). }
  split. { transitivity h1; [done|]. by apply insert_subseteq. }
  split. { by apply (lookup_weaken_None h h1). }
  split. { by rewrite lookup_insert_eq. }
  split; [|done].
  eapply Forall_impl; [exact Hall|]. intros q. apply allocated_insert.
Qed.

Lemma setParents_returns parent steps h u h' :
  setParents parent steps h = Returns (u, h') → Forall (allocated h) steps.
Proof.
  revert h. induction steps as [|p rest IH]; intros h Hrun; [done|].
  unfold setParents in Hrun. simpl in Hrun.
  unfold mbind, M_bind, modify in Hrun.
  destruct (h !! p) as [s|] eqn:Hs; [|done].
  constructor; [by eexists|].
  eapply Forall_impl; [exact (IH _ Hrun)|].
  intros q. unfold allocated. rewrite lookup_insert.
  case_decide; [subst; eauto|done].
Qed.

Lemma setParents_total parent steps h :
  Forall (allocated h) steps →
  ∃ h', setParents parent steps h = Returns (tt, h')
    ∧ ∀ q, h' !! q = if decide (q ∈ steps)
                     then set_Parent (Some parent) <$> h !! q
                     else h !! q.
Proof.
  revert h. induction steps as [|p rest IH]; intros h Hall.
  - exists h. split; [done|]. intros q. rewrite decide_False; [done|].
    apply not_elem_of_nil.
  - apply Forall_cons in Hall as [[s Hs] Hall].
    destruct (IH (<[p := set_Parent (Some parent) s]> h)) as (h' & Hrun & Hh').
    { eapply Forall_impl; [exact Hall|]. intros q. apply allocated_insert. }
    exists h'. split.
    + unfold setParents. simpl. unfold mbind, M_bind, modify. by rewrite Hs.
    + intros q. rewrite Hh', lookup_insert.
      destruct (decide (p = q)) as [<-|Hne].
      * rewrite (decide_True (P := p ∈ p :: rest)) by apply list_elem_of_here.
        rewrite Hs. by case_decide.
      * destruct (decide (q ∈ rest)) as [Hq|Hq].
        -- by rewrite (decide_True (P := q ∈ p :: rest))
             by by apply list_elem_of_further.
        -- rewrite (decide_False (P := q ∈ p :: rest)); [done|].
           intros [?|?]%elem_of_cons; by simplify_eq.
Qed.

(** ** Concept expansion *)

(** C6. A step whose signature has no entry in the concept dictionary is
    left as it is: processConceptStep returns no error and the store, hence
    the value, arguments, nested steps and lookup of the step, is the one of
    before the call. *)
Theorem processConceptStep_atomic (fuel : nat) (step : addr)
    (conceptDictionary : ConceptDictionary) (h : heap) (s : Step) :
  h !! step = Some s →
  Search conceptDictionary (Step_Value s) = None →
  processConceptStep fuel step conceptDictionary h = Returns (None, h).
Proof.
  intros Hs Hsearch. unfold processConceptStep.
  assert (Hderef : deref step h = Returns (s, h)) by (unfold deref; by rewrite Hs).
  rewrite (bind_returns _ _ _ _ _ Hderef). by rewrite Hsearch.
Qed.

Lemma deref_returns (h : heap) (p : addr) (s : Step) :
  h !! p = Some s → deref p h = Returns (s, h).
Proof. unfold deref. by intros ->. Qed.

Lemma modify_returns (h : heap) (p : addr) (s : Step) (f : Step → Step) :
  h !! p = Some s → modify p f h = Returns (tt, <[p := f s]> h).
Proof. unfold modify. by intros ->. Qed.

(** The run of [createConceptStep] on a concept that is a tree in the store
    and whose lookup declares its parameters. *)
Lemma createConceptStep_runs (fuel : nat)
    (concept originalStep : addr) (h : heap) (c o : Step) :
  tree h fuel concept →
  h !! concept = Some c →
  h !! originalStep = Some o →
  lookup_wf (Step_Lookup c) →
  lookup_inj (Step_Lookup c) →
  (∀ conceptArg, conceptArg ∈ Step_Args c →
                 declared (Step_Lookup c) (StepArg_Value conceptArg)) →
  (length (Step_Args o) ≤ length (Step_Args c))%nat →
  ∃ h' o',
    createConceptStep fuel concept originalStep h = Returns (None, h')
    ∧ h' !! originalStep = Some o'
    ∧ Step_Args o' = Step_Args o
    ∧ ∀ i conceptArg arg,
        Step_Args c !! i = Some conceptArg →
        Step_Args o !! i = Some arg →
        (∀ j later, (i < j)%nat → Step_Args c !! j = Some later →
                    StepArg_Value later ≠ StepArg_Value conceptArg) →
        GetArg (Step_Lookup o') (StepArg_Value conceptArg)
        = Returns (inl (Some arg)).
Proof.
  intros Htree Hc Ho Hwf Hinj Hdecl Hlen.
  destruct (GetCopy_total fuel concept h Htree)
    as (cp & h1 & c' & copies & Hc' & Hcopy & Hsub & Hfresh & Hcp & Hall & _).
  assert (c' = c) as -> by congruence.
  assert (Ho1 : h1 !! originalStep = Some o) by by apply (lookup_weaken h).
  unfold createConceptStep.
  rewrite (bind_returns _ _ _ _ _ Hcopy). cbv beta iota.
  rewrite (bind_returns _ _ _ _ _ (deref_returns _ _ _ Ho1)). cbv beta zeta.
  set (copied := set_ConceptSteps copies c) in *.
  assert (Hcopyfrom : CopyFrom originalStep cp h1
                      = Returns (tt, <[originalStep := copied]> h1)).
  { unfold CopyFrom. rewrite (bind_returns _ _ _ _ _ (deref_returns _ _ _ Hcp)).
    by apply modify_returns with (s := o). }
  rewrite (bind_returns _ _ _ _ _ Hcopyfrom).
  rewrite (bind_returns _ _ _ _ _
             (modify_returns _ _ _ _ (lookup_insert_eq _ _ _))).
  rewrite insert_insert_eq.
  set (o3 := set_Args (Step_Args o) copied).
  set (h3 := <[originalStep := o3]> h1).
  assert (Ho3 : h3 !! originalStep = Some o3) by apply lookup_insert_eq.
  rewrite (bind_returns _ _ _ _ _ (deref_returns _ _ _ Ho3)).
  destruct (setParents_total originalStep copies h3) as (h4 & Hparents & Hh4).
  { eapply Forall_impl; [exact Hall|]. intros q. apply allocated_insert. }
  change (Step_ConceptSteps o3) with copies.
  unfold setParents in Hparents. rewrite (bind_returns _ _ _ _ _ Hparents).
  assert (Hc4 : ∃ c4, h4 !! concept = Some c4 ∧ Step_Args c4 = Step_Args c).
  { rewrite Hh4. unfold h3. rewrite lookup_insert.
    destruct (decide (originalStep = concept)) as [<-|Hne].
    - assert (c = o) as -> by congruence. case_decide; by eexists.
    - rewrite (lookup_weaken _ _ _ _ Hc Hsub). case_decide; by eexists. }
  destruct Hc4 as (c4 & Hc4 & Hargs4).
  assert (Ho4 : ∃ o4, h4 !! originalStep = Some o4
                ∧ Step_Args o4 = Step_Args o
                ∧ Step_Lookup o4 = Step_Lookup c).
  { rewrite Hh4, Ho3. case_decide; by eexists. }
  destruct Ho4 as (o4 & Ho4 & Hargso4 & Hlookup4).
  rewrite (bind_returns _ _ _ _ _ (deref_returns _ _ _ Hc4)).
  rewrite (bind_returns _ _ _ _ _ (deref_returns _ _ _ Ho4)).
  rewrite Hargs4, Hargso4, Hlookup4.
  destruct (PopulateConceptLookup_from_returns (Step_Args c) (Step_Args o) 0
              (Step_Lookup c) Hwf) as (lookup' & err & Hrun & _ & _ & Herr).
  { simpl. lia. }
  assert (err = None) as ->.
  { apply Herr. intros j conceptArg _ Hj. apply Hdecl.
    by apply list_elem_of_lookup_2 with j. }
  unfold PopulateConceptLookup. rewrite Hrun.
  rewrite (bind_returns _ _ _ _ _ (modify_returns _ _ _ _ Ho4)).
  eexists _, _. split; [reflexivity|]. split; [apply lookup_insert_eq|].
  split; [exact Hargso4|].
  intros i conceptArg arg Hi Harg Hlater. cbn [Step_Lookup set_Lookup].
  destruct (PopulateConceptLookup_from_binds _ _ _ _ _ Hwf Hinj Hrun)
    as [_ Hbinds].
  apply (Hbinds i conceptArg arg Harg Hi).
  intros j later Hj Hl. apply (Hlater j later); [lia|done].
Qed.

(** C1, as the code has it. Take a step of the store whose signature has an
    entry in the concept dictionary, under these conditions: the concept
    step is the root of a tree of steps in the store, within the budget of
    the recursion; the lookup of the concept is well formed (every declared
    name has its row, and no two names share a row) and declares every
    parameter of the concept; and the step has no more call-site arguments
    than the concept has parameters.  Then the expansion returns without
    error; the arguments of the step are the call-site arguments of before,
    the copy has not overwritten them; and the lookup of the step binds the
    i-th parameter name to the i-th call-site argument whenever the name is
    not declared again at a later position. *)
Theorem createConceptStep_binds_arguments (fuel : nat)
    (conceptDictionary : ConceptDictionary) (conceptFromDictionary : Concept)
    (originalStep : addr) (h : heap) (c o : Step) :
  h !! originalStep = Some o →
  Search conceptDictionary (Step_Value o) = Some conceptFromDictionary →
  tree h fuel (Concept_ConceptStep conceptFromDictionary) →
  h !! Concept_ConceptStep conceptFromDictionary = Some c →
  lookup_wf (Step_Lookup c) →
  lookup_inj (Step_Lookup c) →
  (∀ conceptArg, conceptArg ∈ Step_Args c →
                 declared (Step_Lookup c) (StepArg_Value conceptArg)) →
  (length (Step_Args o) ≤ length (Step_Args c))%nat →
  ∃ h' o',
    processConceptStep fuel originalStep conceptDictionary h = Returns (None, h')
    ∧ createConceptStep fuel (Concept_ConceptStep conceptFromDictionary)
        originalStep h = Returns (None, h')
    ∧ h' !! originalStep = Some o'
    ∧ Step_Args o' = Step_Args o
    ∧ ∀ i conceptArg arg,
        Step_Args c !! i = Some conceptArg →
        Step_Args o !! i = Some arg →
        (∀ j later, (i < j)%nat → Step_Args c !! j = Some later →
                    StepArg_Value later ≠ StepArg_Value conceptArg) →
        GetArg (Step_Lookup o') (StepArg_Value conceptArg)
        = Returns (inl (Some arg)).
Proof.
  intros Ho Hsearch Htree Hc Hwf Hinj Hdecl Hlen.
  destruct (createConceptStep_runs fuel _ originalStep h c o
              Htree Hc Ho Hwf Hinj Hdecl Hlen)
    as (h' & o' & Hrun & Ho' & Hargs & Hbinds).
  exists h', o'. split; [|done].
  unfold processConceptStep.
  rewrite (bind_returns _ _ _ _ _ (deref_returns _ _ _ Ho)).
  by rewrite Hsearch.
Qed.

Lemma bind_inv {A B} (m : M A) (k : A → M B) (h : heap) (r : B * heap) :
  (m ≫= k) h = Returns r → ∃ a h1, m h = Returns (a, h1) ∧ k a h1 = Returns r.
Proof.
  unfold mbind, M_bind. destruct (m h) as [[a h1]| |]; [|done..]. eauto.
Qed.

Lemma deref_inv (h h1 : heap) (p : addr) (s : Step) :
  deref p h = Returns (s, h1) → h !! p = Some s ∧ h1 = h.
Proof. unfold deref. destruct (h !! p); [|done]. by intros [= -> ->]. Qed.

Lemma modify_inv (h h1 : heap) (p : addr) (f : Step → Step) (u : unit) :
  modify p f h = Returns (u, h1) → ∃ s, h !! p = Some s ∧ h1 = <[p := f s]> h.
Proof. unfold modify. destruct (h !! p) as [s|]; [|done]. intros [= <-]. eauto. Qed.

Ltac invert_bind H :=
  let a := fresh "a" in
  let h := fresh "h" in
  let Hm := fresh "Hm" in
  apply bind_inv in H as (a & h & Hm & H).

(** C7. After createConceptStep has returned without error, the step holds
    the nested steps of the copy of the concept, and every one of them
    (those that are concept invocations among them) has the step as its
    Parent. *)
Theorem createConceptStep_sets_parents (fuel : nat) (concept originalStep : addr)
    (h h' : heap) :
  createConceptStep fuel concept originalStep h = Returns (None, h') →
  ∃ stepCopy h1 copied o',
    GetCopy fuel concept h = Returns (inl stepCopy, h1)
    ∧ h1 !! stepCopy = Some copied
    ∧ h' !! originalStep = Some o'
    ∧ Step_ConceptSteps o' = Step_ConceptSteps copied
    ∧ ∀ conceptStep, conceptStep ∈ Step_ConceptSteps o' →
        ∃ s, h' !! conceptStep = Some s ∧ Step_Parent s = Some originalStep.
Proof.
  intros Hrun. unfold createConceptStep in Hrun.
  invert_bind Hrun. rename a into r, h0 into h1, Hm into Hcopy.
  destruct r as [stepCopy|err]; [|done].
  invert_bind Hrun. apply deref_inv in Hm as [Ho ->]. rename a into o.
  invert_bind Hrun. rename h0 into h2. unfold CopyFrom in Hm.
  invert_bind Hm. apply deref_inv in Hm0 as [Hcp ->]. rename a0 into copied.
  apply modify_inv in Hm as (_ & _ & ->).
  invert_bind Hrun. apply modify_inv in Hm as (s & Hs & ->).
  rewrite lookup_insert_eq in Hs. injection Hs as <-.
  rewrite insert_insert_eq in Hrun.
  set (o3 := set_Args (Step_Args o) copied) in *.
  set (h3 := <[originalStep := o3]> h1) in *.
  invert_bind Hrun. apply deref_inv in Hm as [Ho3 ->].
  unfold h3 in Ho3. rewrite lookup_insert_eq in Ho3. injection Ho3 as <-.
  invert_bind Hrun. rename h0 into h4, Hm into Hparents.
  change (setParents originalStep (Step_ConceptSteps copied) h3 = Returns (a1, h4))
    in Hparents.
  pose proof (setParents_returns _ _ _ _ _ Hparents) as Hall.
  destruct (setParents_total originalStep _ _ Hall) as (h4' & Hparents' & Hh4).
  assert (h4' = h4) as -> by congruence. clear Hparents'.
  invert_bind Hrun. apply deref_inv in Hm as [Hc4 ->].
  invert_bind Hrun. apply deref_inv in Hm as [Ho4 ->].
  destruct (PopulateConceptLookup _ _ _) as [[lookup err]| |]; [|done..].
  invert_bind Hrun. apply modify_inv in Hm as (o4 & Ho4' & ->).
  injection Hrun as -> <-.
  assert (Hchildren : Step_ConceptSteps o4 = Step_ConceptSteps copied).
  { rewrite Hh4 in Ho4'. unfold h3 in Ho4'. rewrite lookup_insert_eq in Ho4'.
    case_decide; simpl in Ho4'; by simplify_eq. }
  exists stepCopy, h1, copied, (set_Lookup lookup o4).
  split; [done|]. split; [done|]. split; [apply lookup_insert_eq|].
  split; [done|].
  intros conceptStep Hin. cbn [Step_ConceptSteps set_Lookup] in Hin.
  rewrite Hchildren in Hin.
  pose proof (Hh4 conceptStep) as Hchild. rewrite decide_True in Hchild by done.
  destruct (proj1 (Forall_forall _ _) Hall conceptStep Hin) as [s3 Hs3].
  rewrite Hs3 in Hchild. simpl in Hchild.
  rewrite lookup_insert. destruct (decide (originalStep = conceptStep)) as [<-|Hne].
  - eexists. split; [done|]. simpl. by simplify_eq.
  - by eexists.
Qed.

Lemma AddArgName_wf lookup name : lookup_wf lookup → lookup_wf (AddArgName lookup name).
Proof.
  intros Hwf n i. unfold AddArgName. simpl.
  rewrite length_app, lookup_insert. simpl. case_decide.
  - intros [= <-]. lia.
  - intros Hi. pose proof (Hwf _ _ Hi). lia.
Qed.

Lemma AddArgName_inj lookup name :
  lookup_wf lookup → lookup_inj lookup → lookup_inj (AddArgName lookup name).
Proof.
  intros Hwf Hinj n1 n2 i. unfold AddArgName. simpl.
  rewrite !lookup_insert. repeat case_decide; simplify_eq; try done.
  - intros [= <-] Hi. pose proof (Hwf _ _ Hi). lia.
  - intros Hi [= <-]. pose proof (Hwf _ _ Hi). lia.
  - apply Hinj.
Qed.

Lemma AddArgName_declared lookup name other :
  other = name ∨ declared lookup other → declared (AddArgName lookup name) other.
Proof.
  unfold declared, AddArgName. simpl. rewrite lookup_insert.
  case_decide; [eauto|]. by intros [->|?].
Qed.

Lemma declareAll_ok (names : list string) :
  lookup_wf (declareAll names) ∧ lookup_inj (declareAll names)
  ∧ ∀ name, name ∈ names → declared (declareAll names) name.
Proof.
  unfold declareAll.
  cut (∀ lookup, lookup_wf lookup → lookup_inj lookup →
         lookup_wf (foldl AddArgName lookup names)
         ∧ lookup_inj (foldl AddArgName lookup names)
         ∧ ∀ name, name ∈ names ∨ declared lookup name →
                   declared (foldl AddArgName lookup names) name).
  { intros Hcut. destruct (Hcut emptyLookup) as (Hwf & Hinj & Hdecl).
    - intros n i. simpl. by rewrite lookup_empty.
    - intros n1 n2 i. simpl. by rewrite lookup_empty.
    - split; [done|]. split; [done|]. intros name Hname. apply Hdecl. by left. }
  induction names as [|n rest IH]; intros lookup Hwf Hinj; simpl.
  - split; [done|]. split; [done|]. intros name [Hin|Hd]; [|done].
    by apply elem_of_nil in Hin.
  - destruct (IH (AddArgName lookup n)) as (Hwf' & Hinj' & Hdecl').
    { by apply AddArgName_wf. }
    { by apply AddArgName_inj. }
    split; [done|]. split; [done|]. intros name Hname. apply Hdecl'.
    destruct Hname as [[->|Hin]%elem_of_cons|Hd].
    + right. apply AddArgName_declared. by left.
    + by left.
    + right. apply AddArgName_declared. by right.
Qed.

(** C3, as the code has it. PopulateConceptLookup pairs the declared
    parameters with the call-site arguments by position and compares no
    lengths.  On a well-formed lookup (every declared name has its row, and
    no two names share a row), when the call-site list is not the longer
    one, it returns; the error is nil exactly when the name at every
    position that has a call-site argument is declared in the lookup; and
    without error the call-site argument at a position is bound to the name
    at this position whenever the name does not stand again at a later
    position that has a call-site argument, so that a repeated name is bound
    to the argument of the last such position. *)
Theorem PopulateConceptLookup_zips (lookup : ArgLookup)
    (conceptArgs stepArgs : list StepArg) :
  lookup_wf lookup → lookup_inj lookup →
  (length stepArgs ≤ length conceptArgs)%nat →
  ∃ lookup' err,
    PopulateConceptLookup lookup conceptArgs stepArgs = Returns (lookup', err)
    ∧ (err = None ↔
       ∀ i conceptArg, (i < length stepArgs)%nat →
                       conceptArgs !! i = Some conceptArg →
                       declared lookup (StepArg_Value conceptArg))
    ∧ (err = None →
       ∀ i conceptArg arg,
         conceptArgs !! i = Some conceptArg →
         stepArgs !! i = Some arg →
         (∀ j later, (i < j < length stepArgs)%nat →
                     conceptArgs !! j = Some later →
                     StepArg_Value later ≠ StepArg_Value conceptArg) →
         GetArg lookup' (StepArg_Value conceptArg) = Returns (inl (Some arg))).
Proof.
  intros Hwf Hinj Hlen. unfold PopulateConceptLookup.
  destruct (PopulateConceptLookup_from_returns conceptArgs stepArgs 0 lookup Hwf)
    as (lookup' & err & Hrun & _ & _ & Herr); [simpl; lia|].
  exists lookup', err. split; [done|]. split.
  - rewrite Herr. split; intros Hall i conceptArg Hi; apply Hall; simpl in *; lia.
  - intros ->.
    destruct (PopulateConceptLookup_from_binds _ _ _ _ _ Hwf Hinj Hrun)
      as [_ Hbinds].
    intros i conceptArg arg Hi Harg Hlater.
    apply (Hbinds i conceptArg arg Harg Hi).
    intros j later Hj Hl. apply (Hlater j later); [lia|done].
Qed.

Lemma conceptStore_tree : tree conceptStore 3 10%positive.
Proof.
  exists loginConcept. split; [reflexivity|].
  repeat constructor.
  - exists enterStep. split; [reflexivity|]. constructor.
  - exists submitConcept. split; [reflexivity|]. repeat constructor.
    exists pressStep. split; [reflexivity|]. constructor.
Qed.

Lemma processConceptStep_atomic_witness :
  conceptStore !! 13%positive = Some pressStep
  ∧ Search loginDictionary (Step_Value pressStep) = None
  ∧ processConceptStep 3 13%positive loginDictionary conceptStore
    = Returns (None, conceptStore).
Proof.
  assert (Hs : conceptStore !! 13%positive = Some pressStep) by reflexivity.
  assert (Hsearch : Search loginDictionary (Step_Value pressStep) = None)
    by reflexivity.
  split; [exact Hs|]. split; [exact Hsearch|].
  exact (processConceptStep_atomic 3 13%positive loginDictionary conceptStore
           pressStep Hs Hsearch).
Defined.

Lemma createConceptStep_binds_arguments_witness :
  Search loginDictionary "Login as {} with {}" = Some (mkConcept 10%positive "login.cpt")
  ∧ tree conceptStore 3 10%positive
  ∧ (length (Step_Args (loginCall [staticArg "admin"; staticArg "root"]))
     ≤ length (Step_Args loginConcept))%nat
  ∧ ∃ h' o',
      processConceptStep 3 1%positive loginDictionary conceptStore
        = Returns (None, h')
      ∧ h' !! 1%positive = Some o'
      ∧ Step_Args o' = [staticArg "admin"; staticArg "root"]
      ∧ GetArg (Step_Lookup o') "user" = Returns (inl (Some (staticArg "admin")))
      ∧ GetArg (Step_Lookup o') "password" = Returns (inl (Some (staticArg "root"))).
Proof.
  split; [reflexivity|]. split; [exact conceptStore_tree|].
  split; [simpl; lia|].
  destruct (declareAll_ok ["user"; "password"]%string) as (Hwf & Hinj & Hdecl).
  destruct (createConceptStep_binds_arguments 3 loginDictionary
              (mkConcept 10%positive "login.cpt") 1%positive conceptStore
              loginConcept (loginCall [staticArg "admin"; staticArg "root"])
              eq_refl eq_refl conceptStore_tree eq_refl Hwf Hinj)
    as (h' & o' & Hrun & _ & Ho' & Hargs & Hbinds).
  - intros conceptArg Hin. apply Hdecl.
    change (StepArg_Value conceptArg
            ∈ StepArg_Value <$> [dynamicArg "user"; dynamicArg "password"]).
    by apply list_elem_of_fmap_2.
  - simpl. lia.
  - exists h', o'. split; [exact Hrun|]. split; [exact Ho'|]. split; [exact Hargs|].
    split.
    + apply (Hbinds 0%nat (dynamicArg "user") (staticArg "admin") eq_refl eq_refl).
      intros j later Hj Hl. destruct j as [|[|[|j]]]; simpl in Hl; simplify_eq;
        [lia|discriminate].
    + apply (Hbinds 1%nat (dynamicArg "password") (staticArg "root") eq_refl eq_refl).
      intros j later Hj Hl. destruct j as [|[|[|j]]]; simpl in Hl; simplify_eq; lia.
Defined.

(** The parameter <a> stands at positions 0 and 1; after the expansion it is
    bound to y, the argument at position 1, not to x. *)
Lemma repeated_parameter_counterexample :
  Search sayDictionary (Step_Value sayCall) = Some (mkConcept 20%positive "say.cpt")
  ∧ Step_Args sayConcept !! 0%nat = Some (dynamicArg "a")
  ∧ Step_Args sayCall !! 0%nat = Some (staticArg "x")
  ∧ ∃ h' o',
      processConceptStep 2 21%positive sayDictionary sayStore = Returns (None, h')
      ∧ createConceptStep 2 20%positive 21%positive sayStore = Returns (None, h')
      ∧ h' !! 21%positive = Some o'
      ∧ GetArg (Step_Lookup o') "a" = Returns (inl (Some (staticArg "y")))
      ∧ GetArg (Step_Lookup o') "a" ≠ Returns (inl (Some (staticArg "x"))).
Proof.
  split; [reflexivity|]. split; [reflexivity|]. split; [reflexivity|].
  eexists _, _.
  split; [vm_compute; reflexivity|]. split; [vm_compute; reflexivity|].
  split; [vm_compute; reflexivity|].
  split; [vm_compute; reflexivity|].
  vm_compute. discriminate.
Qed.

Lemma createConceptStep_sets_parents_witness :
  createConceptStep 3 10%positive 1%positive conceptStore
    = Returns (None, expandedStore)
  ∧ ∃ o', expandedStore !! 1%positive = Some o'
      ∧ length (Step_ConceptSteps o') = 2%nat
      ∧ ∀ conceptStep, conceptStep ∈ Step_ConceptSteps o' →
          ∃ s, expandedStore !! conceptStep = Some s
               ∧ Step_Parent s = Some 1%positive.
Proof.
  assert (Hrun : createConceptStep 3 10%positive 1%positive conceptStore
                 = Returns (None, expandedStore)) by (vm_compute; reflexivity).
  split; [exact Hrun|].
  destruct (createConceptStep_sets_parents 3 10%positive 1%positive conceptStore
              expandedStore Hrun)
    as (stepCopy & h1 & copied & o' & _ & _ & Ho' & _ & Hparents).
  exists o'. split; [exact Ho'|]. split; [|exact Hparents].
  pose proof Ho' as Hvalue. vm_compute in Hvalue. injection Hvalue as <-.
  reflexivity.
Defined.

Lemma PopulateConceptLookup_zips_witness :
  (length [staticArg "admin"] ≤ length (Step_Args loginConcept))%nat
  ∧ ∃ lookup' err,
      PopulateConceptLookup (Step_Lookup loginConcept) (Step_Args loginConcept)
        [staticArg "admin"] = Returns (lookup', err)
      ∧ err = None
      ∧ GetArg lookup' "user" = Returns (inl (Some (staticArg "admin"))).
Proof.
  assert (Hlen : (length [staticArg "admin"] ≤ length (Step_Args loginConcept))%nat)
    by (simpl; lia).
  split; [exact Hlen|].
  destruct (declareAll_ok ["user"; "password"]%string) as (Hwf & Hinj & Hdecl).
  destruct (PopulateConceptLookup_zips (Step_Lookup loginConcept)
              (Step_Args loginConcept) [staticArg "admin"] Hwf Hinj Hlen)
    as (lookup' & err & Hrun & Herr & Hbinds).
  assert (Hnone : err = None).
  { apply Herr. intros i conceptArg Hi Hc. apply Hdecl.
    destruct i as [|i]; simpl in Hi, Hc; [|lia]. simplify_eq.
    apply list_elem_of_here. }
  exists lookup', err. split; [exact Hrun|]. split; [exact Hnone|].
  apply (Hbinds Hnone 0%nat (dynamicArg "user") (staticArg "admin") eq_refl eq_refl).
  intros j later Hj. simpl in Hj. lia.
Defined.

(** Two invocations whose argument list has not the length of the parameter
    list of the concept: with one argument the expansion returns without an
    error, with three it panics on the index into the parameter list. *)
Lemma arity_mismatch_counterexample :
  length (Step_Args (loginCall [staticArg "admin"])) ≠ length (Step_Args loginConcept)
  ∧ (∃ h', processConceptStep 3 2%positive loginDictionary conceptStore
           = Returns (None, h'))
  ∧ (∃ h', createConceptStep 3 10%positive 2%positive conceptStore
           = Returns (None, h'))
  ∧ createConceptStep 3 10%positive 3%positive conceptStore = Panics
  ∧ PopulateConceptLookup (Step_Lookup loginConcept) (Step_Args loginConcept)
      [staticArg "admin"; staticArg "root"; staticArg "extra"] = Panics.
Proof.
  split; [simpl; lia|].
  split; [eexists; vm_compute; reflexivity|].
  split; [eexists; vm_compute; reflexivity|].
  split; vm_compute; reflexivity.
Qed.

(** * Further properties *)

(** ** Scenario lookup and item removal *)

Section removal_more.
Context `{DeepEq}.

Lemma getIndexFor_from_cases (scenario : Scenario) (scenarios : list Scenario)
    (start : Z) :
  (getIndexFor_from start scenario scenarios = -1
   ∧ Forall (λ x, DeepEqual scenario x = false) scenarios)
  ∨ (∃ k x, getIndexFor_from start scenario scenarios = start + Z.of_nat k
            ∧ scenarios !! k = Some x
            ∧ DeepEqual scenario x = true
            ∧ ∀ j y, (j < k)%nat → scenarios !! j = Some y →
                     DeepEqual scenario y = false).
Proof.
  revert start. induction scenarios as [|a rest IH]; intros start; simpl.
  - left. by split.
  - destruct (DeepEqual scenario a) eqn:Ha.
    + right. exists 0%nat, a. split; [lia|]. split; [done|]. split; [done|].
      intros j y Hj. lia.
    + destruct (IH (start + 1)) as [[Hnone Hall]|(k & x & Hk & Hx & Hdeep & Hbefore)].
      * left. split; [done|]. by constructor.
      * right. exists (S k), x. split; [lia|]. split; [done|]. split; [done|].
        intros [|j] y Hj Hy; simpl in Hy; [by simplify_eq|].
        apply (Hbefore j); [lia|done].
Qed.

(** X1. The index that [getIndexFor] returns is that of the first scenario of
    the list that is deeply equal to the given one; it is -1 exactly when
    there is none, and never outside of [-1, len). *)
Theorem getIndexFor_first_match (scenario : Scenario) (scenarios : list Scenario) :
  (getIndexFor scenario scenarios = -1
   ↔ Forall (λ x, DeepEqual scenario x = false) scenarios)
  ∧ (∀ k : nat, getIndexFor scenario scenarios = Z.of_nat k
      ↔ (∃ x, scenarios !! k = Some x ∧ DeepEqual scenario x = true)
        ∧ ∀ j y, (j < k)%nat → scenarios !! j = Some y →
                 DeepEqual scenario y = false)
  ∧ -1 ≤ getIndexFor scenario scenarios < Z.of_nat (length scenarios).
Proof.
  unfold getIndexFor.
  destruct (getIndexFor_from_cases scenario scenarios 0)
    as [[Hnone Hall]|(k & x & Hk & Hx & Hdeep & Hbefore)].
  - rewrite Hnone. split; [done|]. split; [|lia].
    intros k. split; [lia|]. intros [(x & Hx & Hdeep) _].
    rewrite Forall_forall in Hall.
    rewrite (Hall x) in Hdeep; [done|]. by apply list_elem_of_lookup_2 with k.
  - rewrite Hk. split; [|split].
    + split; [lia|]. intros Hall. rewrite Forall_forall in Hall.
      rewrite (Hall x) in Hdeep; [done|]. by apply list_elem_of_lookup_2 with k.
    + intros k'. split.
      * intros Heq. assert (k' = k) as -> by lia. split; [by exists x|done].
      * intros [(x' & Hx' & Hdeep') Hbefore'].
        destruct (Nat.lt_trichotomy k k') as [Hlt|[->|Hlt]]; [|lia|].
        -- by rewrite (Hbefore' k x Hlt Hx) in Hdeep.
        -- by rewrite (Hbefore k' x' Hlt Hx') in Hdeep'.
    + apply lookup_lt_Some in Hx. lia.
Qed.

(** What [removeItem] does at an item that is no scenario. *)
Lemma removeItem_other (n : nat) (item : Item) (spec : Specification) :
  Spec_Items spec !! n = Some item → Kind item ≠ ScenarioKind →
  removeItem (Z.of_nat n) spec
  = Returns (set_Items (delete n (Spec_Items spec)) spec).
Proof.
  intros Hn Hkind. unfold removeItem.
  rewrite (index_nat _ _ _ Hn), (remove_at_nat _ _ _ Hn). simpl.
  by rewrite decide_False.
Qed.

(** X2. [removeItem] panics exactly when the index is out of range or the item
    is a scenario that has no deeply equal entry in Scenarios.  When it
    returns, the item at the index is gone from Items, the scenario that
    [getIndexFor] finds, if the item is one, is gone from Scenarios, and
    nothing else has changed. *)
Theorem removeItem_outcome (i : Z) (spec : Specification) :
  (removeItem i spec = Panics
   ↔ ¬ (0 ≤ i < Z.of_nat (length (Spec_Items spec)))
     ∨ ∃ scenario,
         Spec_Items spec !! Z.to_nat i = Some (ItemScenario scenario)
         ∧ Forall (λ x, DeepEqual scenario x = false) (Spec_Scenarios spec))
  ∧ (∀ spec', removeItem i spec = Returns spec' →
       spec' = set_Scenarios (Spec_Scenarios spec')
                 (set_Items (delete (Z.to_nat i) (Spec_Items spec)) spec)
       ∧ match Spec_Items spec !! Z.to_nat i with
         | Some (ItemScenario scenario) =>
             ∃ k : nat, getIndexFor scenario (Spec_Scenarios spec) = Z.of_nat k
                        ∧ Spec_Scenarios spec' = delete k (Spec_Scenarios spec)
         | _ => Spec_Scenarios spec' = Spec_Scenarios spec
         end).
Proof.
  unfold removeItem, index.
  destruct (decide (0 ≤ i)) as [Hi|Hi]; simpl.
  2:{ split; [|done]. split; [|done]. intros _. left. lia. }
  destruct (Spec_Items spec !! Z.to_nat i) as [item|] eqn:Hitem; simpl.
  2:{ apply lookup_ge_None in Hitem. split; [|done]. split; [|done].
      intros _. left. lia. }
  pose proof (lookup_lt_Some _ _ _ Hitem) as Hlt.
  rewrite remove_at_spec, decide_True by lia. simpl.
  destruct (decide (Kind item = ScenarioKind)) as [Hkind|Hkind].
  - destruct item as [scenario| | | | | | |]; try discriminate Hkind.
    unfold removeScenario. simpl. rewrite remove_at_spec.
    unfold getIndexFor.
    destruct (getIndexFor_from_cases scenario (Spec_Scenarios spec) 0)
      as [[Hnone Hall]|(k & x & Hk & Hx & Hdeep & Hbefore)].
    + rewrite Hnone, decide_False by lia. simpl. split; [|done].
      split; [|done]. intros _. right. by exists scenario.
    + pose proof (lookup_lt_Some _ _ _ Hx) as Hklt.
      rewrite Hk, decide_True by lia. simpl. split.
      * split; [done|]. intros [Hrange|(sc & [= <-] & Hall)]; [lia|].
        rewrite Forall_forall in Hall.
        rewrite (Hall x) in Hdeep; [done|]. by apply list_elem_of_lookup_2 with k.
      * intros spec' [= <-]. split; [done|]. exists k. split; [lia|]. simpl.
        f_equal. lia.
  - split.
    + split; [done|]. intros [Hrange|(sc & [= ->] & _)]; [lia|]. by destruct Hkind.
    + intros spec' [= <-]. split; [done|]. by destruct item.
Qed.

End removal_more.

Section filter_more.
Context `{DeepEq} `{SpecItemFilter}.

Lemma set_Items_same (spec : Specification) : set_Items (Spec_Items spec) spec = spec.
Proof. by destruct spec. Qed.

Lemma filter_kept_all (items : list Item) :
  (∀ item, item ∈ items → kept item) → filter kept items = items.
Proof.
  induction items as [|item rest IH]; intros Hall; [done|].
  rewrite filter_cons, decide_True by apply Hall, list_elem_of_here.
  f_equal. apply IH. intros x Hx. by apply Hall, list_elem_of_further.
Qed.

Lemma Filter_from_other_items (fuel n : nat) (spec : Specification) :
  (∀ item, item ∈ Spec_Items spec → filter_Filter item = true →
           Kind item ≠ ScenarioKind) →
  (length (Spec_Items spec) - n ≤ fuel)%nat →
  Filter_from fuel (Z.of_nat n) spec
  = Returns (set_Items (take n (Spec_Items spec)
                        ++ filter kept (drop n (Spec_Items spec))) spec).
Proof.
  revert n spec. induction fuel as [|fuel IH]; intros n spec Hother Hfuel.
  - simpl. rewrite decide_False by lia.
    rewrite take_ge, drop_ge by lia. rewrite filter_nil, app_nil_r.
    by rewrite set_Items_same.
  - simpl. case_decide as Hlt.
    + destruct (lookup_lt_is_Some_2 (Spec_Items spec) n) as [item Hn]; [lia|].
      rewrite (index_nat _ _ _ Hn). simpl.
      rewrite (drop_S _ _ _ Hn).
      destruct (filter_Filter item) eqn:Hf.
      * rewrite (removeItem_other n item spec Hn). simpl.
        2:{ apply Hother; [|done]. by apply list_elem_of_lookup_2 with n. }
        replace (Z.of_nat n - 1 + 1) with (Z.of_nat n) by lia.
        rewrite IH; simpl.
        -- rewrite filter_cons, decide_False by (unfold kept; congruence).
           rewrite !delete_take_drop.
           rewrite take_app_le, take_take by (rewrite length_take; lia).
           rewrite drop_app_ge by (rewrite length_take; lia).
           rewrite length_take.
           replace (n `min` n)%nat with n by lia.
           replace (n - n `min` length (Spec_Items spec))%nat with 0%nat by lia.
           done.
        -- intros x Hx. apply Hother.
           eapply elem_of_sublist; [exact Hx|apply sublist_delete].
        -- rewrite length_delete by eauto. lia.
      * replace (Z.of_nat n + 1) with (Z.of_nat (S n)) by lia.
        rewrite IH by (done || lia).
        rewrite filter_cons, decide_True by done.
        rewrite (take_S_r _ _ _ Hn). by rewrite <- (assoc (++)).
    + rewrite take_ge, drop_ge by lia. rewrite filter_nil, app_nil_r.
      by rewrite set_Items_same.
Qed.

Lemma Filter_from_items (fuel n : nat) (spec spec' : Specification) :
  Filter_from fuel (Z.of_nat n) spec = Returns spec' →
  Spec_Items spec'
  = take n (Spec_Items spec) ++ filter kept (drop n (Spec_Items spec)).
Proof.
  revert n spec. induction fuel as [|fuel IH]; intros n spec; simpl.
  - case_decide; [done|]. intros [= <-].
    rewrite take_ge, drop_ge by lia. by rewrite filter_nil, app_nil_r.
  - case_decide as Hlt.
    + destruct (lookup_lt_is_Some_2 (Spec_Items spec) n) as [item Hn]; [lia|].
      rewrite (index_nat _ _ _ Hn). simpl.
      rewrite (drop_S _ _ _ Hn).
      destruct (filter_Filter item) eqn:Hf.
      * destruct (removeItem (Z.of_nat n) spec) as [spec1| |] eqn:Hrun;
          simpl; [|done..].
        apply removeItem_items in Hrun as [_ Hitems].
        rewrite Nat2Z.id in Hitems.
        replace (Z.of_nat n - 1 + 1) with (Z.of_nat n) by lia.
        intros Hrest. rewrite (IH _ _ Hrest), Hitems.
        rewrite filter_cons, decide_False by (unfold kept; congruence).
        rewrite !delete_take_drop.
        rewrite take_app_le, take_take by (rewrite length_take; lia).
        rewrite drop_app_ge by (rewrite length_take; lia).
        rewrite length_take.
        replace (n `min` n)%nat with n by lia.
        replace (n - n `min` length (Spec_Items spec))%nat with 0%nat by lia.
        done.
      * replace (Z.of_nat n + 1) with (Z.of_nat (S n)) by lia.
        intros Hrest. rewrite (IH _ _ Hrest).
        rewrite filter_cons, decide_True by done.
        rewrite (take_S_r _ _ _ Hn). by rewrite <- (assoc (++)).
    + intros [= <-]. rewrite take_ge, drop_ge by lia.
      by rewrite filter_nil, app_nil_r.
Qed.

(** X3. When the filter selects no scenario, [Filter] returns on every
    specification, consistent or not: the items that the filter selects are
    gone, the other items stand in their order, and Scenarios and all other
    fields are as before. *)
Theorem Filter_of_other_items (spec : Specification) :
  (∀ item, item ∈ Spec_Items spec → filter_Filter item = true →
           Kind item ≠ ScenarioKind) →
  Filter spec = Returns (set_Items (filter kept (Spec_Items spec)) spec).
Proof.
  intros Hother. unfold Filter.
  rewrite (Filter_from_other_items _ 0 spec Hother) by lia.
  by rewrite take_0, drop_0.
Qed.

(** X4. Whenever [Filter] returns, the remaining items are those that the filter
    does not select, and filtering the result again changes nothing. *)
Theorem Filter_idempotent (spec spec' : Specification) :
  Filter spec = Returns spec' →
  Spec_Items spec' = filter kept (Spec_Items spec)
  ∧ Filter spec' = Returns spec'.
Proof.
  intros Hrun. unfold Filter in Hrun.
  apply (Filter_from_items _ 0) in Hrun. rewrite take_0, drop_0 in Hrun. simpl in Hrun.
  split; [done|].
  assert (Hkept : ∀ item, item ∈ Spec_Items spec' → kept item).
  { intros item. rewrite Hrun, list_elem_of_filter. by intros [? _]. }
  unfold Filter. rewrite (Filter_from_other_items _ 0 spec') by
    (lia || (intros item Hin Hsel; apply Hkept in Hin; unfold kept in Hin; congruence)).
  rewrite take_0, drop_0. simpl.
  by rewrite (filter_kept_all _ Hkept), set_Items_same.
Qed.

End filter_more.

Lemma removeItem_outcome_witness :
  ∃ k : nat,
    @getIndexFor valueDeepEq loginScenario (Spec_Scenarios twoScenarios) = Z.of_nat k
    ∧ Spec_Scenarios (specOf [ItemComment aComment; ItemScenario logoutScenario]
                             [logoutScenario])
      = delete k (Spec_Scenarios twoScenarios).
Proof.
  destruct (@removeItem_outcome valueDeepEq 0 twoScenarios) as [_ Hreturns].
  destruct (Hreturns (specOf [ItemComment aComment; ItemScenario logoutScenario]
                             [logoutScenario]))
    as [_ Hscenarios]; [vm_compute; reflexivity|].
  exact Hscenarios.
Defined.

Lemma Filter_of_other_items_witness :
  @Filter valueDeepEq commentFilter twoScenarios
  = Returns (specOf [ItemScenario loginScenario; ItemScenario logoutScenario]
                    [loginScenario; logoutScenario]).
Proof.
  apply (@Filter_of_other_items valueDeepEq commentFilter twoScenarios).
  intros item _ Hselected. apply bool_decide_eq_true in Hselected.
  rewrite Hselected. discriminate.
Defined.

Lemma Filter_idempotent_witness :
  Spec_Items (specOf [ItemComment aComment] [])
  = filter (@kept scenarioFilter) (Spec_Items twoScenarios)
  ∧ @Filter valueDeepEq scenarioFilter (specOf [ItemComment aComment] [])
    = Returns (specOf [ItemComment aComment] []).
Proof.
  apply (@Filter_idempotent valueDeepEq scenarioFilter twoScenarios).
  vm_compute. reflexivity.
Defined.

(** ** The items of a specification *)

Lemma GetSpecItems_AddItem (item : Item) (spec : Specification) :
  GetSpecItems (AddItem item spec)
  = GetSpecItems spec ++ (if decide (Kind item ≠ ScenarioKind) then [item] else []).
Proof.
  unfold GetSpecItems, AddItem. simpl. by rewrite filter_app.
Qed.

(** X5. [AddScenario] leaves the list that [GetSpecItems] returns as it is, and
    [AddContext], [AddComment] and [AddTags] append their item to it. *)
Theorem GetSpecItems_adders (spec : Specification) (scenario : Scenario)
    (contextStep : addr) (comment : Comment) (tags : Tags) :
  GetSpecItems (AddScenario scenario spec) = GetSpecItems spec
  ∧ GetSpecItems (AddContext contextStep spec)
    = GetSpecItems spec ++ [ItemStep contextStep]
  ∧ GetSpecItems (AddComment comment spec)
    = GetSpecItems spec ++ [ItemComment comment]
  ∧ GetSpecItems (AddTags tags spec) = GetSpecItems spec ++ [ItemTags tags].
Proof.
  unfold AddScenario, AddContext, AddComment, AddTags.
  rewrite !GetSpecItems_AddItem. simpl. rewrite app_nil_r. done.
Qed.

(** X6. The items of a specification are its scenarios and what [GetSpecItems]
    returns: the two lists together hold every item once, none of the items
    of [GetSpecItems] is a scenario, and they stand in the order of Items. *)
Theorem GetSpecItems_partition (spec : Specification) :
  Spec_Items spec
  ≡ₚ GetSpecItems spec ++ (ItemScenario <$> scenarios_of (Spec_Items spec))
  ∧ GetSpecItems spec `sublist_of` Spec_Items spec
  ∧ scenarios_of (GetSpecItems spec) = [].
Proof.
  unfold GetSpecItems. split; [|split].
  - induction (Spec_Items spec) as [|item items IH]; [done|].
    rewrite filter_cons.
    destruct item; simpl; rewrite ?decide_True by done;
      rewrite ?decide_False by (intros Hne; by apply Hne); simpl.
    2-8: by f_equiv.
    rewrite <- Permutation_middle. by f_equiv.
  - apply sublist_filter.
  - induction (Spec_Items spec) as [|item items IH]; [done|].
    rewrite filter_cons. case_decide as Hkind; [|done].
    by destruct item.
Qed.

(** ** The latest elements and the tags *)

Lemma index_last {A} (l : list A) :
  index l (Z.of_nat (length l) - 1)
  = match last l with Some x => Returns x | None => Panics end.
Proof.
  unfold index. destruct l as [|a l] using rev_ind.
  - reflexivity.
  - rewrite length_app, last_snoc. cbn [length].
    rewrite decide_True by lia.
    replace (Z.to_nat (Z.of_nat (length l + 1) - 1)) with (length l) by lia.
    by rewrite list_lookup_middle.
Qed.

(** X7. [LatestScenario], [LatestContext] and [LatestTeardown] return the last
    element of their list and panic exactly when the list is empty; right
    after [AddScenario] and [AddContext] they return what was added. *)
Theorem Latest_is_last (spec : Specification) :
  LatestScenario spec
  = match last (Spec_Scenarios spec) with Some x => Returns x | None => Panics end
  ∧ LatestContext spec
    = match last (Spec_Contexts spec) with Some x => Returns x | None => Panics end
  ∧ LatestTeardown spec
    = match last (Spec_TearDownSteps spec) with
      | Some x => Returns x
      | None => Panics
      end
  ∧ (LatestScenario spec = Panics ↔ Spec_Scenarios spec = [])
  ∧ (LatestContext spec = Panics ↔ Spec_Contexts spec = [])
  ∧ (LatestTeardown spec = Panics ↔ Spec_TearDownSteps spec = [])
  ∧ (∀ scenario, LatestScenario (AddScenario scenario spec) = Returns scenario)
  ∧ (∀ contextStep, LatestContext (AddContext contextStep spec) = Returns contextStep).
Proof.
  unfold LatestScenario, LatestContext, LatestTeardown. rewrite !index_last.
  assert (Hempty : ∀ {A} (l : list A),
    match last l with Some x => Returns x | None => Panics end = Panics ↔ l = []).
  { intros A l. destruct l as [|a l] using rev_ind; [done|].
    rewrite last_snoc. split; [done|]. intros Hnil. by destruct l. }
  repeat split; try apply Hempty.
  - intros scenario. rewrite index_last. simpl. by rewrite last_snoc.
  - intros contextStep. rewrite index_last. simpl. by rewrite last_snoc.
Qed.

Lemma foldl_app_concat {A} (acc : list A) (rows : list (list A)) :
  foldl (λ val row, val ++ row) acc rows = acc ++ concat rows.
Proof.
  revert acc. induction rows as [|row rows IH]; intros acc; simpl.
  - by rewrite app_nil_r.
  - by rewrite IH, (assoc (++)).
Qed.

(** X8. [Tags.Values] is the rows of tags one after the other; [Tags.Add] puts
    its values at the end of them; and [NTags] counts the values of the tags
    that [AddTags] set last, whatever tags the specification had before,
    while Items keeps the item of the earlier call too. *)
Theorem Tags_Values_spec (tags : Tags) (values : list string) (spec : Specification)
    (earlier : Tags) :
  Tags_Values tags = concat (Tags_RawValues tags)
  ∧ Tags_Values (Tags_Add values tags) = Tags_Values tags ++ values
  ∧ NTags (AddTags tags spec) = Z.of_nat (length (Tags_Values tags))
  ∧ NTags (AddTags tags (AddTags earlier spec)) = NTags (AddTags tags spec)
  ∧ Spec_Items (AddTags tags (AddTags earlier spec))
    = Spec_Items spec ++ [ItemTags earlier; ItemTags tags]
  ∧ (Spec_Tags spec = None → NTags spec = 0).
Proof.
  assert (Hvalues : ∀ t, Tags_Values t = concat (Tags_RawValues t)).
  { intros t. unfold Tags_Values. by rewrite foldl_app_concat. }
  unfold NTags. simpl. rewrite !Hvalues. simpl.
  repeat split.
  - rewrite concat_app. simpl. by rewrite app_nil_r.
  - by rewrite <- (assoc (++)).
  - by intros ->.
Qed.

(** ** Concept expansion over a whole specification *)

Lemma PopulateConceptLookup_from_longer (conceptArgs stepArgs : list StepArg)
    (i : nat) (lookup lookup' : ArgLookup) :
  (i ≤ length conceptArgs < i + length stepArgs)%nat →
  PopulateConceptLookup_from i lookup conceptArgs stepArgs ≠ Returns (lookup', None).
Proof.
  revert i lookup. induction stepArgs as [|arg rest IH]; intros i lookup Hlen; simpl in *.
  - lia.
  - destruct (conceptArgs !! i) as [conceptArg|] eqn:Hi; [|done].
    apply lookup_lt_Some in Hi.
    destruct (AddArgValue lookup (StepArg_Value conceptArg) _) as [[l [e|]]| |];
      try done.
    apply IH. lia.
Qed.

Lemma PopulateConceptLookup_from_panics (conceptArgs stepArgs : list StepArg)
    (i : nat) (lookup : ArgLookup) :
  lookup_wf lookup →
  (∀ conceptArg, conceptArg ∈ conceptArgs →
                 declared lookup (StepArg_Value conceptArg)) →
  (i ≤ length conceptArgs < i + length stepArgs)%nat →
  PopulateConceptLookup_from i lookup conceptArgs stepArgs = Panics.
Proof.
  revert i lookup. induction stepArgs as [|arg rest IH];
    intros i lookup Hwf Hdecl Hlen; simpl in *.
  - lia.
  - destruct (conceptArgs !! i) as [conceptArg|] eqn:Hi; [|done].
    destruct (AddArgValue_declared lookup (StepArg_Value conceptArg)
                (mkStepArg (StepArg_Name arg) (StepArg_Value arg)
                           (StepArg_ArgType arg) (StepArg_Table arg)) Hwf)
      as (l & -> & Hmap & Hrows & _).
    { apply Hdecl. by apply list_elem_of_lookup_2 with i. }
    apply lookup_lt_Some in Hi. apply IH.
    + by apply (lookup_wf_same lookup).
    + intros c Hc. unfold declared. rewrite Hmap. by apply Hdecl.
    + lia.
Qed.

(** X9. With more call-site arguments than the concept has parameters,
    [PopulateConceptLookup] never returns without an error; when the lookup
    declares every parameter of the concept, it panics on the index into the
    list of parameters. *)
Theorem PopulateConceptLookup_longer_call_site (lookup : ArgLookup)
    (conceptArgs stepArgs : list StepArg) :
  (length conceptArgs < length stepArgs)%nat →
  (∀ lookup', PopulateConceptLookup lookup conceptArgs stepArgs
              ≠ Returns (lookup', None))
  ∧ (lookup_wf lookup →
     (∀ conceptArg, conceptArg ∈ conceptArgs →
                    declared lookup (StepArg_Value conceptArg)) →
     PopulateConceptLookup lookup conceptArgs stepArgs = Panics).
Proof.
  intros Hlen. split.
  - intros lookup'. apply PopulateConceptLookup_from_longer. lia.
  - intros Hwf Hdecl. apply PopulateConceptLookup_from_panics; [done..|lia].
Qed.

Lemma PopulateConceptLookup_longer_call_site_witness :
  (∀ lookup', PopulateConceptLookup (Step_Lookup loginConcept) (Step_Args loginConcept)
                [staticArg "admin"; staticArg "root"; staticArg "extra"]
              ≠ Returns (lookup', None))
  ∧ (lookup_wf (Step_Lookup loginConcept) →
     (∀ conceptArg, conceptArg ∈ Step_Args loginConcept →
                    declared (Step_Lookup loginConcept) (StepArg_Value conceptArg)) →
     PopulateConceptLookup (Step_Lookup loginConcept) (Step_Args loginConcept)
       [staticArg "admin"; staticArg "root"; staticArg "extra"] = Panics).
Proof.
  apply (PopulateConceptLookup_longer_call_site (Step_Lookup loginConcept)
           (Step_Args loginConcept)
           [staticArg "admin"; staticArg "root"; staticArg "extra"]).
  simpl. lia.
Defined.

Lemma processConceptSteps_app (fuel : nat) (steps more : list addr)
    (dict : ConceptDictionary) (h : heap) :
  processConceptSteps fuel (steps ++ more) dict h
  = match processConceptSteps fuel steps dict h with
    | Returns (None, h') => processConceptSteps fuel more dict h'
    | other => other
    end.
Proof.
  revert h. induction steps as [|step rest IH]; intros h; [done|].
  simpl. unfold mbind, M_bind.
  by destruct (processConceptStep fuel step dict h) as [[[e|] h1]| |].
Qed.

Lemma processScenarios_flat (fuel : nat) (scenarios : list Scenario)
    (dict : ConceptDictionary) (h : heap) :
  processScenarios fuel scenarios dict h
  = processConceptSteps fuel (concat (Scenario_Steps <$> scenarios)) dict h.
Proof.
  revert h. induction scenarios as [|scenario rest IH]; intros h; [done|].
  simpl. rewrite processConceptSteps_app. unfold mbind, M_bind.
  by destruct (processConceptSteps fuel (Scenario_Steps scenario) dict h)
    as [[[e|] h1]| |].
Qed.

Lemma ProcessConceptStepsFrom_flat (fuel : nat) (spec : Specification)
    (dict : ConceptDictionary) (h : heap) :
  ProcessConceptStepsFrom fuel spec dict h
  = processConceptSteps fuel (steps_in_order spec) dict h.
Proof.
  unfold ProcessConceptStepsFrom, steps_in_order.
  rewrite !processConceptSteps_app. unfold mbind, M_bind.
  destruct (processConceptSteps fuel (Spec_Contexts spec) dict h)
    as [[[e|] h1]| |]; try done.
  rewrite processScenarios_flat, processConceptSteps_app.
  by destruct (processConceptSteps fuel _ dict h1) as [[[e|] h2]| |].
Qed.

(** X10. The three loops of [ProcessConceptStepsFrom] are one pass over the
    context steps, the steps of the scenarios and the tear-down steps, in
    this order, that stops at the first error or panic; two steps lists
    processed one after the other are processed as their concatenation. *)
Theorem ProcessConceptStepsFrom_one_pass (fuel : nat) (spec : Specification)
    (dict : ConceptDictionary) (h : heap) :
  ProcessConceptStepsFrom fuel spec dict h
  = processConceptSteps fuel (steps_in_order spec) dict h
  ∧ ∀ steps more,
      processConceptSteps fuel (steps ++ more) dict h
      = match processConceptSteps fuel steps dict h with
        | Returns (None, h') => processConceptSteps fuel more dict h'
        | other => other
        end.
Proof.
  split; [apply ProcessConceptStepsFrom_flat|].
  intros steps more. apply processConceptSteps_app.
Qed.

Lemma processConceptSteps_no_concepts (fuel : nat) (steps : list addr)
    (dict : ConceptDictionary) (h : heap) :
  (∀ step, step ∈ steps →
           ∃ s, h !! step = Some s ∧ Search dict (Step_Value s) = None) →
  processConceptSteps fuel steps dict h = Returns (None, h).
Proof.
  induction steps as [|step rest IH]; intros Hall; [done|].
  destruct (Hall step) as (s & Hs & Hsearch); [apply list_elem_of_here|].
  simpl. unfold mbind, M_bind, processConceptStep, mbind, M_bind, deref.
  rewrite Hs, Hsearch. simpl.
  apply IH. intros x Hx. by apply Hall, list_elem_of_further.
Qed.

(** X11. When every step of a specification is a step object whose signature has
    no entry in the dictionary, [ProcessConceptStepsFrom] returns without an
    error and leaves every step as it was, on any budget. *)
Theorem ProcessConceptStepsFrom_no_concepts (fuel : nat) (spec : Specification)
    (dict : ConceptDictionary) (h : heap) :
  (∀ step, step ∈ steps_in_order spec →
           ∃ s, h !! step = Some s ∧ Search dict (Step_Value s) = None) →
  ProcessConceptStepsFrom fuel spec dict h = Returns (None, h).
Proof.
  intros Hall. rewrite ProcessConceptStepsFrom_flat.
  by apply processConceptSteps_no_concepts.
Qed.

Lemma ProcessConceptStepsFrom_no_concepts_witness :
  ProcessConceptStepsFrom 0 exampleSpec loginDictionary exampleStore
  = Returns (None, exampleStore).
Proof.
  apply (ProcessConceptStepsFrom_no_concepts 0 exampleSpec loginDictionary exampleStore).
  intros step Hstep. apply list_elem_of_singleton in Hstep as ->.
  exists clickStep. split; reflexivity.
Defined.

(** ** The steps cache, entry by entry *)

Lemma addSteps_lookup (allSteps : list StepValue) (cache : gmap string StepValue)
    (sig : string) :
  foldl addStep cache allSteps !! sig
  = match cache !! sig with
    | Some v => Some v
    | None => head (filter (λ step, StepValue_StepValue step = sig) allSteps)
    end.
Proof.
  revert cache. induction allSteps as [|step rest IH]; intros cache; simpl.
  - by destruct (cache !! sig).
  - rewrite IH. unfold addStep. rewrite filter_cons.
    destruct (cache !! StepValue_StepValue step) eqn:Hstep.
    + destruct (cache !! sig) eqn:Hsig; [done|].
      rewrite decide_False; [done|]. intros Heq. congruence.
    + destruct (decide (StepValue_StepValue step = sig)) as [Heq|Hne].
      * subst sig. by rewrite lookup_insert_eq, Hstep.
      * by rewrite lookup_insert_ne by done.
Qed.

Lemma addSteps_subseteq (allSteps : list StepValue) (cache : gmap string StepValue) :
  cache ⊆ foldl addStep cache allSteps.
Proof.
  apply map_subseteq_spec. intros sig v Hv. by apply addSteps_keeps.
Qed.

(** X12. After [addToStepsCache], a signature that had an entry has it still,
    and a signature that had none has the first step of the batch with this
    signature, if there is one.  Adding the same batch again changes
    nothing, and two batches added one after the other are added as their
    concatenation. *)
Theorem addToStepsCache_first_wins (allSteps more : list StepValue)
    (s : SpecInfoGatherer) (sig : string) :
  stepsCache (addToStepsCache allSteps s) !! sig
  = match stepsCache s !! sig with
    | Some v => Some v
    | None => head (filter (λ step, StepValue_StepValue step = sig) allSteps)
    end
  ∧ addToStepsCache allSteps (addToStepsCache allSteps s) = addToStepsCache allSteps s
  ∧ addToStepsCache more (addToStepsCache allSteps s)
    = addToStepsCache (allSteps ++ more) s.
Proof.
  split; [apply addSteps_lookup|]. unfold addToStepsCache, set_stepsCache. simpl.
  split; [by rewrite addSteps_twice|by rewrite foldl_app].
Qed.

(** ** The concepts cache *)

Lemma elem_of_concat_values {A} (m : gmap string (list A)) (x : A) :
  x ∈ concat (map_to_list m).*2 ↔ ∃ file l, m !! file = Some l ∧ x ∈ l.
Proof.
  rewrite list_elem_of_In, in_concat. split.
  - intros (l & Hl & Hx). apply list_elem_of_In, list_elem_of_fmap in Hl
      as ([file l'] & -> & Hin). apply elem_of_map_to_list in Hin.
    exists file, l'. split; [done|]. by apply list_elem_of_In.
  - intros (file & l & Hl & Hx). exists l. split; [|by apply list_elem_of_In].
    apply list_elem_of_In, list_elem_of_fmap. exists (file, l).
    split; [done|]. by apply elem_of_map_to_list.
Qed.

Section concepts.
Context `{Parser}.
Variable σ : heap.

Lemma addConcepts_appends (file : string) (concepts : list addr)
    (s s' : SpecInfoGatherer) :
  addConcepts σ file concepts s = Returns s' →
  conceptDictionary s' = conceptDictionary s
  ∧ specsCache s' = specsCache s
  ∧ SpecDirs s' = SpecDirs s
  ∧ stepsCache s ⊆ stepsCache s'
  ∧ (∀ other, other ≠ file → conceptsCache s' !! other = conceptsCache s !! other)
  ∧ default [] (conceptsCache s' !! file)
    = default [] (conceptsCache s !! file) ++ ((λ c, mkConcept c file) <$> concepts).
Proof.
  revert s. induction concepts as [|concept rest IH]; intros s; simpl.
  - intros [= <-]. by rewrite app_nil_r.
  - destruct (getStepsFromConcept σ (mkConcept concept file)) as [steps| |];
      simpl; [|done..].
    intros Hrest. apply IH in Hrest as (Hd & Hspecs & Hdirs & Hsteps & Hother & Hfile).
    simpl in *. repeat split; try done.
    + etrans; [|exact Hsteps]. apply addSteps_subseteq.
    + intros other Hne. rewrite (Hother other Hne). by rewrite lookup_insert_ne.
    + rewrite Hfile, lookup_insert_eq. simpl. by rewrite <- (assoc (++)).
Qed.

(** X13. When [onConceptFileModify] returns, the concepts that the parser found
    in the file stand, in their order, behind the concepts that the cache
    already had for this file, none of which is dropped; after a failed
    parse nothing is added.  The entries of the other files, the specs cache
    and the concept dictionary are as before, and the steps cache has lost
    no entry. *)
Theorem onConceptFileModify_appends (file : string) (s s' : SpecInfoGatherer) :
  onConceptFileModify σ file s = Returns s' →
  default [] (conceptsCache s' !! file)
  = default [] (conceptsCache s !! file)
    ++ (if parseFailed (ParseFile file).2 then []
        else (λ c, mkConcept c file) <$> (ParseFile file).1)
  ∧ (∀ other, other ≠ file → conceptsCache s' !! other = conceptsCache s !! other)
  ∧ specsCache s' = specsCache s
  ∧ conceptDictionary s' = conceptDictionary s
  ∧ stepsCache s ⊆ stepsCache s'.
Proof.
  unfold onConceptFileModify. destruct (ParseFile file) as [concepts parseResults].
  simpl. destruct (parseFailed parseResults).
  - intros [= <-]. by rewrite app_nil_r.
  - intros Hrun. apply addConcepts_appends in Hrun
      as (Hd & Hspecs & Hdirs & Hsteps & Hother & Hfile). done.
Qed.

Lemma filed_insert (cache : gmap string (list Concept)) (file : string)
    (concepts : list Concept) :
  filed cache →
  (∀ concept, concept ∈ concepts → Concept_FileName concept = file) →
  filed (<[file := concepts]> cache).
Proof.
  intros Hfiled Hall f cs c. rewrite lookup_insert. case_decide as Hf.
  - intros [= <-] Hc. subst f. by apply Hall.
  - apply Hfiled.
Qed.

Lemma filed_build (concepts : list Concept) (s : SpecInfoGatherer) :
  filed (conceptsCache s) →
  filed (conceptsCache
           (foldl (λ s concept, addToConceptsCache (Concept_FileName concept) concept s)
                  s concepts)).
Proof.
  revert s. induction concepts as [|concept rest IH]; intros s Hfiled; [done|].
  simpl. apply IH. simpl. apply filed_insert; [done|].
  intros c Hc. apply elem_of_app in Hc as [Hc|Hc].
  - destruct (conceptsCache s !! Concept_FileName concept) as [cs|] eqn:Hcs.
    + by apply (Hfiled _ cs).
    + by apply elem_of_nil in Hc.
  - by apply list_elem_of_singleton in Hc as ->.
Qed.

Lemma filed_default (cache : gmap string (list Concept)) (file : string)
    (concept : Concept) :
  filed cache → concept ∈ default [] (cache !! file) →
  Concept_FileName concept = file.
Proof.
  intros Hfiled. destruct (cache !! file) as [cs|] eqn:Hcs; simpl.
  - by apply Hfiled.
  - intros Hc. by apply elem_of_nil in Hc.
Qed.

(** X14. The concepts cache stores every concept under the name of its own
    file: [initConceptsCache] builds such a cache, whatever the gatherer held
    before, and [onConceptFileModify] and [onConceptFileRemove] keep it
    so. *)
Theorem conceptsCache_filed `{Project} (s : SpecInfoGatherer) (file : string) :
  filed (conceptsCache (initConceptsCache s))
  ∧ (filed (conceptsCache s) → filed (conceptsCache (onConceptFileRemove file s)))
  ∧ (filed (conceptsCache s) →
     ∀ s', onConceptFileModify σ file s = Returns s' → filed (conceptsCache s')).
Proof.
  split; [|split].
  - unfold initConceptsCache, getParsedConcepts.
    destruct (CreateConceptsDictionary true _) as [dict result].
    apply filed_build. simpl. intros f cs c Hf. by rewrite lookup_empty in Hf.
  - intros Hfiled f cs c. simpl. rewrite lookup_delete. case_decide; [done|].
    apply Hfiled.
  - intros Hfiled s'. unfold onConceptFileModify.
    destruct (ParseFile file) as [concepts parseResults].
    destruct (parseFailed parseResults); [by intros [= <-]|].
    intros Hrun.
    apply addConcepts_appends in Hrun as (_ & _ & _ & _ & Hother & Hfile).
    intros f cs c Hcs Hc. destruct (decide (f = file)) as [->|Hne].
    + rewrite Hcs in Hfile. simpl in Hfile. rewrite Hfile in Hc.
      apply elem_of_app in Hc as [Hc|Hc]; [by apply (filed_default _ _ _ Hfiled)|].
      by apply list_elem_of_fmap in Hc as (a & -> & _).
    + rewrite (Hother f Hne) in Hcs. by apply (Hfiled f cs).
Qed.

End concepts.

Lemma onConceptFileModify_appends_witness :
  default [] (conceptsCache afterLogin !! "login.cpt"%string)
  = default [] (conceptsCache emptyGatherer !! "login.cpt"%string)
    ++ (if parseFailed (@ParseFile loginParser "login.cpt").2 then []
        else (λ c, mkConcept c "login.cpt") <$> (@ParseFile loginParser "login.cpt").1)
  ∧ (∀ other, other ≠ "login.cpt"%string →
       conceptsCache afterLogin !! other = conceptsCache emptyGatherer !! other)
  ∧ specsCache afterLogin = specsCache emptyGatherer
  ∧ conceptDictionary afterLogin = conceptDictionary emptyGatherer
  ∧ stepsCache emptyGatherer ⊆ stepsCache afterLogin.
Proof.
  apply (@onConceptFileModify_appends loginParser conceptStore "login.cpt"
           emptyGatherer afterLogin).
  vm_compute. reflexivity.
Defined.

Lemma conceptsCache_filed_witness :
  filed (conceptsCache afterLogin).
Proof.
  destruct (@conceptsCache_filed loginParser conceptStore
              {| ProjectRoot := "/project"; SpecsDirectoryName := "specs";
                 Join := λ a b, a +:+ "/" +:+ b;
                 FindSpecFilesIn := λ _, [];
                 CreateConceptsDictionary := λ _ _,
                   (NewConceptDictionary, mkParseResult None true) |}
              emptyGatherer "login.cpt") as (_ & _ & Hmodify).
  apply Hmodify.
  - intros file concepts concept Hfile.
    unfold emptyGatherer in Hfile. simpl in Hfile. by rewrite lookup_empty in Hfile.
  - vm_compute. reflexivity.
Defined.

(** ** Concept infos *)

Section concept_infos.
Context `{Parser}.
Context {ProtoStepValue : Type}.
Variable ConvertToProtoStepValue : StepValue → ProtoStepValue.
Variable σ : heap.

Lemma conceptInfosOf_cases (concepts : list Concept) :
  (conceptInfosOf ConvertToProtoStepValue σ concepts = Panics
   ∧ ∃ concept, concept ∈ concepts ∧ σ !! Concept_ConceptStep concept = None)
  ∨ (∃ infos,
       conceptInfosOf ConvertToProtoStepValue σ concepts = Returns infos
       ∧ Forall2 (λ concept info,
            ∃ st, σ !! Concept_ConceptStep concept = Some st
                  ∧ info = mkConceptInfo (ConvertToProtoStepValue (CreateStepValue st))
                             (Concept_FileName concept) (int32_wrap (Step_LineNo st)))
           concepts infos).
Proof.
  induction concepts as [|concept rest IH]; simpl.
  - right. exists []. by split.
  - destruct (σ !! Concept_ConceptStep concept) as [st|] eqn:Hst.
    + destruct IH as [[-> (c & Hc & Hnone)]|(infos & -> & Hall)]; simpl.
      * left. split; [done|]. exists c. split; [|done]. by apply list_elem_of_further.
      * right. eexists. split; [done|]. constructor; [|done]. by exists st.
    + left. split; [done|]. exists concept. split; [|done]. apply list_elem_of_here.
Qed.

(** X15. [GetConceptInfos] panics exactly when the step of a cached concept is
    nil.  Otherwise it returns one info for every cached concept, in the
    order of the cache: the converted step value of the concept step, the
    file of the concept, and the line of the concept step cut to 32 bits. *)
Theorem GetConceptInfos_spec (s : SpecInfoGatherer) :
  (GetConceptInfos ConvertToProtoStepValue σ s = Panics
   ↔ ∃ concept, concept ∈ cachedConcepts s
                ∧ σ !! Concept_ConceptStep concept = None)
  ∧ (∀ infos,
       GetConceptInfos ConvertToProtoStepValue σ s = Returns infos ↔
       Forall2 (λ concept info,
            ∃ st, σ !! Concept_ConceptStep concept = Some st
                  ∧ info = mkConceptInfo (ConvertToProtoStepValue (CreateStepValue st))
                             (Concept_FileName concept) (int32_wrap (Step_LineNo st)))
         (cachedConcepts s) infos).
Proof.
  unfold GetConceptInfos. fold (cachedConcepts s).
  assert (Hfun : ∀ concepts infos infos',
    Forall2 (λ concept info,
            ∃ st, σ !! Concept_ConceptStep concept = Some st
                  ∧ info = mkConceptInfo (ConvertToProtoStepValue (CreateStepValue st))
                             (Concept_FileName concept) (int32_wrap (Step_LineNo st)))
         concepts infos →
    Forall2 (λ concept info,
            ∃ st, σ !! Concept_ConceptStep concept = Some st
                  ∧ info = mkConceptInfo (ConvertToProtoStepValue (CreateStepValue st))
                             (Concept_FileName concept) (int32_wrap (Step_LineNo st)))
         concepts infos' → infos = infos').
  { intros concepts infos infos' Hall. revert infos'.
    induction Hall as [|c i cs rest (st & Hst & ->) _ IH]; intros infos' Hall'.
    - by apply Forall2_nil_inv_l in Hall'.
    - apply Forall2_cons_inv_l in Hall' as (i' & rest' & (st' & Hst' & ->) & Hrest & ->).
      rewrite Hst in Hst'. injection Hst' as <-. f_equal. by apply IH. }
  destruct (conceptInfosOf_cases (cachedConcepts s))
    as [[-> (c & Hc & Hnone)]|(infos & -> & Hall)].
  - split; [split; [eauto|done]|].
    intros infos. split; [done|]. intros Hall.
    apply list_elem_of_lookup in Hc as [i Hi].
    destruct (Forall2_lookup_l _ _ _ _ _ Hall Hi) as (info & _ & st & Hst & _).
    congruence.
  - split.
    + split; [done|]. intros (c & Hc & Hnone).
      apply list_elem_of_lookup in Hc as [i Hi].
      destruct (Forall2_lookup_l _ _ _ _ _ Hall Hi) as (info & _ & st & Hst & _).
      congruence.
    + intros infos'. split; [by intros [= <-]|].
      intros Hall'. f_equal. by apply (Hfun (cachedConcepts s)).
Qed.

Lemma conceptInfosOf_paths (concepts : list Concept)
    (infos : list (ConceptInfo ProtoStepValue)) :
  conceptInfosOf ConvertToProtoStepValue σ concepts = Returns infos →
  ConceptInfo_Filepath <$> infos = Concept_FileName <$> concepts.
Proof.
  destruct (conceptInfosOf_cases concepts)
    as [[-> _]|(infos' & -> & Hall)]; [done|].
  intros [= <-]. induction Hall as [|c i cs rest (st & _ & ->) _ IH]; [done|].
  rewrite !fmap_cons. by f_equal.
Qed.

(** X16. Once [onConceptFileRemove] has run on a cache that stores every concept
    under its own file, no info that [GetConceptInfos] returns names the
    removed file. *)
Theorem GetConceptInfos_after_remove (file : string) (s : SpecInfoGatherer)
    (infos : list (ConceptInfo ProtoStepValue)) :
  filed (conceptsCache s) →
  GetConceptInfos ConvertToProtoStepValue σ (onConceptFileRemove file s)
  = Returns infos →
  ∀ info, info ∈ infos → ConceptInfo_Filepath info ≠ file.
Proof.
  intros Hfiled Hrun info Hinfo.
  apply conceptInfosOf_paths in Hrun.
  assert (Hpath : ConceptInfo_Filepath info ∈ ConceptInfo_Filepath <$> infos)
    by by apply list_elem_of_fmap_2.
  rewrite Hrun in Hpath.
  apply list_elem_of_fmap in Hpath as (c & -> & Hc).
  apply elem_of_concat_values in Hc as (f & cs & Hcs & Hc). simpl in Hcs.
  rewrite lookup_delete in Hcs. case_decide as Hf; [done|].
  rewrite (Hfiled f cs c Hcs Hc). congruence.
Qed.

End concept_infos.

Lemma GetConceptInfos_after_remove_witness :
  Forall (λ info, ConceptInfo_Filepath info ≠ "login.cpt"%string)
    [mkConceptInfo (stepValueOf submitConcept) "submit.cpt"%string 3].
Proof.
  apply Forall_forall.
  apply (@GetConceptInfos_after_remove loginParser StepValue id conceptStore
           "login.cpt" twoConceptFiles).
  - intros file concepts concept Hfile Hconcept.
    unfold twoConceptFiles in Hfile. simpl in Hfile.
    apply lookup_insert_Some in Hfile as [[<- <-]|[_ Hfile]].
    + by apply list_elem_of_singleton in Hconcept as ->.
    + apply lookup_singleton_Some in Hfile as [<- <-].
      by apply list_elem_of_singleton in Hconcept as ->.
  - vm_compute. reflexivity.
Defined.

(** ** The bulk build *)

Lemma concat_values_add {A} (m : gmap string (list A)) (key : string) (value : A) :
  concat (map_to_list (<[key := default [] (m !! key) ++ [value]]> m)).*2
  ≡ₚ concat (map_to_list m).*2 ++ [value].
Proof.
  destruct (m !! key) as [l|] eqn:Hkey; simpl.
  - rewrite <- insert_delete_eq.
    rewrite map_to_list_insert by apply lookup_delete_eq.
    rewrite <- (map_to_list_delete m key l Hkey). rewrite !fmap_cons. simpl.
    rewrite <- !(assoc (++)). f_equiv. apply Permutation_app_comm.
  - rewrite map_to_list_insert by done. rewrite fmap_cons. simpl.
    apply Permutation_cons_append.
Qed.

Lemma values_lookup_add {A} (m : gmap string (list A)) (key file : string) (value : A) :
  default [] (<[key := default [] (m !! key) ++ [value]]> m !! file)
  = default [] (m !! file) ++ (if decide (key = file) then [value] else []).
Proof.
  rewrite lookup_insert. case_decide as Hkey.
  - by subst file.
  - by rewrite app_nil_r.
Qed.

(** The loop of [initSpecsCache], on the cache alone. *)
Lemma foldl_addToSpecsCache (specs : list Specification) (s : SpecInfoGatherer) :
  foldl (λ s spec, addToSpecsCache (Spec_FileName spec) spec s) s specs
  = set_specsCache
      (foldl (λ m spec, <[Spec_FileName spec
                          := default [] (m !! Spec_FileName spec) ++ [spec]]> m)
             (specsCache s) specs) s.
Proof.
  revert s. induction specs as [|spec rest IH]; intros s; simpl.
  - by destruct s.
  - by rewrite IH.
Qed.

(** The loop of [initConceptsCache], on the cache alone. *)
Lemma foldl_addToConceptsCache (concepts : list Concept) (s : SpecInfoGatherer) :
  foldl (λ s concept, addToConceptsCache (Concept_FileName concept) concept s) s concepts
  = set_conceptsCache
      (foldl (λ m concept, <[Concept_FileName concept
                             := default [] (m !! Concept_FileName concept) ++ [concept]]> m)
             (conceptsCache s) concepts) s.
Proof.
  revert s. induction concepts as [|concept rest IH]; intros s; simpl.
  - by destruct s.
  - by rewrite IH.
Qed.

Lemma build_values {A} (name : A → string) (items : list A) (m : gmap string (list A)) :
  concat (map_to_list
            (foldl (λ m x, <[name x := default [] (m !! name x) ++ [x]]> m) m items)).*2
  ≡ₚ concat (map_to_list m).*2 ++ items.
Proof.
  revert m. induction items as [|x rest IH]; intros m; simpl.
  - by rewrite app_nil_r.
  - rewrite IH, concat_values_add. by rewrite <- (assoc (++)).
Qed.

Lemma build_lookup {A} (name : A → string) (items : list A) (m : gmap string (list A))
    (file : string) :
  default [] (foldl (λ m x, <[name x := default [] (m !! name x) ++ [x]]> m) m items
              !! file)
  = default [] (m !! file) ++ filter (λ x, name x = file) items.
Proof.
  revert m. induction items as [|x rest IH]; intros m; simpl.
  - by rewrite app_nil_r.
  - rewrite IH, values_lookup_add, filter_cons, <- (assoc (++)).
    by case_decide.
Qed.

Lemma build_is_Some {A} (name : A → string) (items : list A) (m : gmap string (list A))
    (file : string) :
  is_Some (foldl (λ m x, <[name x := default [] (m !! name x) ++ [x]]> m) m items
           !! file)
  ↔ is_Some (m !! file) ∨ ∃ x, x ∈ items ∧ name x = file.
Proof.
  revert m. induction items as [|x rest IH]; intros m; simpl.
  - split; [by left|]. intros [Hm|(x & Hx & _)]; [done|]. by apply elem_of_nil in Hx.
  - rewrite IH, lookup_insert_is_Some. split.
    + intros [[Heq|[Hne Hm]]|(y & Hy & Hname)].
      * right. exists x. split; [apply list_elem_of_here|done].
      * by left.
      * right. exists y. split; [by apply list_elem_of_further|done].
    + intros [Hm|(y & Hy & Hname)].
      * left. destruct (decide (name x = file)); [by left|by right].
      * apply elem_of_cons in Hy as [->|Hy]; [by left; left|].
        right. by exists y.
Qed.

Section bulk.
Context `{Parser} `{Project}.
Variable σ : heap.

(** X17. [initSpecsCache] discards the specs cache and stores what the parser
    returns for the spec files of the project: under each file name the
    parsed specifications of this name in their order, and no entry for any
    other name, so that [GetAvailableSpecs] lists exactly the parsed
    specifications.  The files are parsed against the dictionary that the
    gatherer holds, or an empty one; the other caches are left alone. *)
Theorem initSpecsCache_spec (s : SpecInfoGatherer) :
  let parsed :=
    (ParseSpecFiles (specFilesOf s)
       (default NewConceptDictionary (conceptDictionary s))).1 in
  (∀ file, default [] (specsCache (initSpecsCache s) !! file)
           = filter (λ spec, Spec_FileName spec = file) parsed)
  ∧ (∀ file, is_Some (specsCache (initSpecsCache s) !! file)
             ↔ ∃ spec, spec ∈ parsed ∧ Spec_FileName spec = file)
  ∧ GetAvailableSpecs (initSpecsCache s) ≡ₚ parsed
  ∧ conceptsCache (initSpecsCache s) = conceptsCache s
  ∧ stepsCache (initSpecsCache s) = stepsCache s
  ∧ conceptDictionary (initSpecsCache s)
    = Some (default NewConceptDictionary (conceptDictionary s)).
Proof.
  unfold initSpecsCache, getParsedSpecs, GetAvailableSpecs.
  rewrite foldl_addToSpecsCache.
  destruct s as [[dict|] specs concepts steps dirs]; simpl;
    (split; [|split; [|split; [|done]]]).
  - intros file. rewrite (build_lookup Spec_FileName). by rewrite lookup_empty.
  - intros file. rewrite (build_is_Some Spec_FileName), lookup_empty.
    split; [intros [[? [=]]|?]; done|by right].
  - rewrite (build_values Spec_FileName). by rewrite map_to_list_empty.
  - intros file. rewrite (build_lookup Spec_FileName). by rewrite lookup_empty.
  - intros file. rewrite (build_is_Some Spec_FileName), lookup_empty.
    split; [intros [[? [=]]|?]; done|by right].
  - rewrite (build_values Spec_FileName). by rewrite map_to_list_empty.
Qed.

(** X18. [initStepsCache] discards the steps cache: when it returns, a
    signature has an entry exactly when one of the step values that
    [getStepsFromCachedSpecs] and [getStepsFromCachedConcepts] collect has
    it (they come from the context and scenario steps of the cached
    specifications and from the steps of the cached concepts, as far as
    these steps are no concepts), and the entry is the first such step
    value, those of the specifications before those of the concepts.  The
    specs cache and the concepts cache are as before. *)
Theorem initStepsCache_rebuilds (s s' : SpecInfoGatherer) :
  initStepsCache σ s = Returns s' →
  ∃ stepsFromSpecs stepsFromConcepts,
    getStepsFromCachedSpecs σ s = Returns stepsFromSpecs
    ∧ getStepsFromCachedConcepts σ s = Returns stepsFromConcepts
    ∧ (∀ sig, stepsCache s' !! sig
              = head (filter (λ step, StepValue_StepValue step = sig)
                             (stepsFromSpecs ++ stepsFromConcepts)))
    ∧ keyed (stepsCache s')
    ∧ specsCache s' = specsCache s
    ∧ conceptsCache s' = conceptsCache s
    ∧ conceptDictionary s' = conceptDictionary s.
Proof.
  unfold initStepsCache.
  change (getStepsFromCachedSpecs σ (set_stepsCache ∅ s))
    with (getStepsFromCachedSpecs σ s).
  change (getStepsFromCachedConcepts σ (set_stepsCache ∅ s))
    with (getStepsFromCachedConcepts σ s).
  destruct (getStepsFromCachedSpecs σ s) as [fromSpecs| |]; simpl; [|done..].
  destruct (getStepsFromCachedConcepts σ s) as [fromConcepts| |]; simpl; [|done..].
  intros [= <-]. exists fromSpecs, fromConcepts. simpl.
  repeat split; try done.
  - intros sig. rewrite addSteps_lookup. by rewrite lookup_empty.
  - apply addSteps_keyed. intros sig v Hv. by rewrite lookup_empty in Hv.
Qed.

Lemma MakeListOfAvailableSteps_unfold (s : SpecInfoGatherer) :
  MakeListOfAvailableSteps σ s
  = let dict := (CreateConceptsDictionary true (SpecDirs s)).1 in
    initStepsCache σ
      (mkSpecInfoGatherer (Some dict)
         (foldl (λ m spec, <[Spec_FileName spec
                             := default [] (m !! Spec_FileName spec) ++ [spec]]> m)
                ∅ (ParseSpecFiles (specFilesOf s) dict).1)
         (foldl (λ m concept, <[Concept_FileName concept
                                := default [] (m !! Concept_FileName concept)
                                   ++ [concept]]> m)
                ∅ (map_to_list (ConceptsMap dict)).*2)
         ∅ (SpecDirs s)).
Proof.
  unfold MakeListOfAvailableSteps, initSpecsCache, initConceptsCache,
    getParsedConcepts, getParsedSpecs.
  destruct s as [d specs concepts steps dirs]. simpl.
  destruct (CreateConceptsDictionary true dirs) as [dict result]. simpl.
  rewrite foldl_addToConceptsCache. simpl.
  rewrite foldl_addToSpecsCache. simpl.
  reflexivity.
Qed.

(** X19. [MakeListOfAvailableSteps] rebuilds the three caches from the files:
    the result depends on the gatherer only through its SpecDirs.  When it
    returns, the dictionary is the one that [CreateConceptsDictionary]
    built, the specifications were parsed against this dictionary, the
    concepts cache lists the concepts of the dictionary, and every entry of
    the steps cache is stored under its own signature. *)
Theorem MakeListOfAvailableSteps_rebuilds (s : SpecInfoGatherer) :
  MakeListOfAvailableSteps σ s
  = MakeListOfAvailableSteps σ (mkSpecInfoGatherer None ∅ ∅ ∅ (SpecDirs s))
  ∧ ∀ s', MakeListOfAvailableSteps σ s = Returns s' →
      let dict := (CreateConceptsDictionary true (SpecDirs s)).1 in
      conceptDictionary s' = Some dict
      ∧ GetAvailableSpecs s' ≡ₚ (ParseSpecFiles (specFilesOf s) dict).1
      ∧ cachedConcepts s' ≡ₚ (map_to_list (ConceptsMap dict)).*2
      ∧ keyed (stepsCache s')
      ∧ SpecDirs s' = SpecDirs s.
Proof.
  split; [by rewrite !MakeListOfAvailableSteps_unfold|].
  intros s'. rewrite MakeListOfAvailableSteps_unfold. cbv zeta.
  unfold initStepsCache. simpl.
  destruct (getStepsFromCachedSpecs σ _) as [fromSpecs| |]; simpl; [|done..].
  destruct (getStepsFromCachedConcepts σ _) as [fromConcepts| |]; simpl; [|done..].
  intros [= <-]. unfold GetAvailableSpecs, cachedConcepts. simpl.
  repeat split.
  - rewrite (build_values Spec_FileName). by rewrite map_to_list_empty.
  - rewrite (build_values Concept_FileName). by rewrite map_to_list_empty.
  - apply addSteps_keyed. intros sig v Hv. by rewrite lookup_empty in Hv.
Qed.

End bulk.

Lemma initStepsCache_rebuilds_witness :
  ∃ stepsFromSpecs stepsFromConcepts,
    @getStepsFromCachedSpecs exampleParser exampleStore staleSteps
    = Returns stepsFromSpecs
    ∧ @getStepsFromCachedConcepts exampleParser exampleStore staleSteps
      = Returns stepsFromConcepts
    ∧ (∀ sig, stepsCache afterFirstParse !! sig
              = head (filter (λ step, StepValue_StepValue step = sig)
                             (stepsFromSpecs ++ stepsFromConcepts)))
    ∧ keyed (stepsCache afterFirstParse)
    ∧ specsCache afterFirstParse = specsCache staleSteps
    ∧ conceptsCache afterFirstParse = conceptsCache staleSteps
    ∧ conceptDictionary afterFirstParse = conceptDictionary staleSteps.
Proof.
  apply (@initStepsCache_rebuilds exampleParser exampleStore staleSteps afterFirstParse).
  vm_compute. reflexivity.
Defined.

Lemma MakeListOfAvailableSteps_rebuilds_witness :
  conceptDictionary afterFirstParse = Some NewConceptDictionary
  ∧ GetAvailableSpecs afterFirstParse ≡ₚ [exampleSpec]
  ∧ cachedConcepts afterFirstParse ≡ₚ []
  ∧ keyed (stepsCache afterFirstParse)
  ∧ SpecDirs afterFirstParse = SpecDirs staleSteps.
Proof.
  destruct (@MakeListOfAvailableSteps_rebuilds exampleParser exampleProject
              exampleStore staleSteps) as [_ Hreturns].
  apply (Hreturns afterFirstParse). vm_compute. reflexivity.
Defined.

(** ** File events *)

Section file_events.
Context `{Parser} `{FileSystem}.
Variable σ : heap.

Lemma onFileModify_watcher (watcher watcher' : gset string) (file : string)
    (s s' : SpecInfoGatherer) :
  onFileModify σ watcher file s = Returns (watcher', s') → watcher' = watcher.
Proof.
  unfold onFileModify. destruct (IsSpec file).
  - destruct (onSpecFileModify σ file s); simpl; [|done..]. by intros [= <- _].
  - destruct (IsConcept file).
    + destruct (onConceptFileModify σ file s); simpl; [|done..]. by intros [= <- _].
    + by intros [= <- _].
Qed.

(** X20. [handleEvent] never takes a path off the watcher: the file of an event
    that it dispatches is a spec or a concept file, and [onFileRemove] calls
    [removeWatcherOn] for the other files only.  The watcher changes only at
    a Create event for a spec or concept path that is a directory and that
    the watcher accepts, which is then added. *)
Theorem handleEvent_keeps_watchers (event : Event) (watcher watcher' : gset string)
    (s s' : SpecInfoGatherer) :
  handleEvent σ event watcher s = Returns (watcher', s') →
  watcher ⊆ watcher'
  ∧ (watcher' ≠ watcher →
     Event_Op event = fsnotify_Create
     ∧ ∃ file, Abs (Event_Name event) = inl file
               ∧ IsSpec file || IsConcept file = true
               ∧ IsDir file = true
               ∧ watcherAdd file = None
               ∧ watcher' = {[file]} ∪ watcher).
Proof.
  unfold handleEvent.
  destruct (Abs (Event_Name event)) as [file|err] eqn:Habs;
    [|by intros [= <- _]].
  destruct (IsSpec file || IsConcept file) eqn:Hkind; [|by intros [= <- _]].
  repeat case_decide.
  - unfold onFileAdd. intros Hrun. apply onFileModify_watcher in Hrun as ->.
    destruct (IsDir file) eqn:Hdir; [|done].
    unfold addDirToFileWatcher. destruct (watcherAdd file) eqn:Hadd; [done|].
    split; [set_solver|]. intros _. split; [done|]. by exists file.
  - intros Hrun. by apply onFileModify_watcher in Hrun as ->.
  - unfold onFileRename, onFileRemove. apply orb_true_iff in Hkind.
    destruct (IsSpec file); [by intros [= <- _]|].
    destruct (IsConcept file); [by intros [= <- _]|]. by destruct Hkind.
  - unfold onFileRemove. apply orb_true_iff in Hkind.
    destruct (IsSpec file); [by intros [= <- _]|].
    destruct (IsConcept file); [by intros [= <- _]|]. by destruct Hkind.
  - by intros [= <- _].
Qed.

(** X21. [handleEvent] does nothing when the path has no absolute form, when
    the file is neither a spec nor a concept file, and when the operation is
    not exactly one of Create, Write, Rename and Remove: an event that
    carries two of these bits, or Chmod, changes no cache. *)
Theorem handleEvent_ignores (event : Event) (watcher : gset string)
    (s : SpecInfoGatherer) :
  (∀ file, Abs (Event_Name event) = inl file →
           IsSpec file || IsConcept file = false
           ∨ Event_Op event ∉ [fsnotify_Create; fsnotify_Write;
                                fsnotify_Rename; fsnotify_Remove]) →
  handleEvent σ event watcher s = Returns (watcher, s).
Proof.
  intros Hignored. unfold handleEvent.
  destruct (Abs (Event_Name event)) as [file|err]; [|done].
  destruct (Hignored file eq_refl) as [->|Hop]; [done|].
  destruct (IsSpec file || IsConcept file); [|done].
  repeat case_decide; try done; destruct Hop; set_solver.
Qed.

(** X22. A Rename event is handled as a Remove event: for a spec file the entry
    of the file leaves the specs cache, for a concept file the entry of the
    file leaves the concepts cache, and nothing is stored under a new name.
    Neither event panics, and both leave the steps cache, the concept
    dictionary and the watcher as they were. *)
Theorem handleEvent_removal (name file : string) (op : Z) (watcher : gset string)
    (s : SpecInfoGatherer) :
  Abs name = inl file →
  IsSpec file || IsConcept file = true →
  op = fsnotify_Rename ∨ op = fsnotify_Remove →
  ∃ s', handleEvent σ (mkEvent name op) watcher s = Returns (watcher, s')
        ∧ specsCache s'
          = (if IsSpec file then delete file (specsCache s) else specsCache s)
        ∧ conceptsCache s'
          = (if IsSpec file then conceptsCache s
             else delete file (conceptsCache s))
        ∧ stepsCache s' = stepsCache s
        ∧ conceptDictionary s' = conceptDictionary s.
Proof.
  intros Habs Hkind Hop. unfold handleEvent. simpl. rewrite Habs, Hkind.
  apply orb_true_iff in Hkind.
  destruct Hop as [-> | ->]; simpl; unfold onFileRename, onFileRemove;
    (destruct (IsSpec file);
     [by eexists|destruct (IsConcept file); [by eexists|by destruct Hkind]]).
Qed.

End file_events.

Lemma handleEvent_keeps_watchers_witness :
  ({[ "specs"%string ]} : gset string) ⊆ {[ "specs"%string ]}
  ∧ (({[ "specs"%string ]} : gset string) ≠ {[ "specs"%string ]} →
     fsnotify_Create = fsnotify_Create
     ∧ ∃ file, @Abs exampleFiles "a.spec" = inl file
               ∧ @IsSpec exampleFiles file || @IsConcept exampleFiles file = true
               ∧ @IsDir exampleFiles file = true
               ∧ @watcherAdd exampleFiles file = None
               ∧ ({[ "specs"%string ]} : gset string) = {[file]} ∪ {[ "specs"%string ]}).
Proof.
  apply (@handleEvent_keeps_watchers exampleParser exampleFiles exampleStore
           (mkEvent "a.spec" fsnotify_Create) {[ "specs"%string ]} {[ "specs"%string ]}
           emptyGatherer afterFirstParse).
  vm_compute. reflexivity.
Defined.

Lemma handleEvent_ignores_witness :
  @handleEvent exampleParser exampleFiles exampleStore
    (mkEvent "a.spec" (Z.lor fsnotify_Create fsnotify_Write)) {[ "specs"%string ]}
    emptyGatherer
  = Returns ({[ "specs"%string ]}, emptyGatherer).
Proof.
  apply (@handleEvent_ignores exampleParser exampleFiles exampleStore).
  intros file _. right. vm_compute. intros Hop.
  repeat (apply elem_of_cons in Hop as [Hop|Hop]; [discriminate Hop|]).
  by apply elem_of_nil in Hop.
Defined.

Lemma handleEvent_removal_witness :
  ∃ s', @handleEvent exampleParser exampleFiles exampleStore
          (mkEvent "a.spec" fsnotify_Rename) {[ "specs"%string ]} afterFirstParse
        = Returns ({[ "specs"%string ]}, s')
        ∧ specsCache s'
          = (if @IsSpec exampleFiles "a.spec"
             then delete "a.spec"%string (specsCache afterFirstParse)
             else specsCache afterFirstParse)
        ∧ conceptsCache s'
          = (if @IsSpec exampleFiles "a.spec" then conceptsCache afterFirstParse
             else delete "a.spec"%string (conceptsCache afterFirstParse))
        ∧ stepsCache s' = stepsCache afterFirstParse
        ∧ conceptDictionary s' = conceptDictionary afterFirstParse.
Proof.
  apply (@handleEvent_removal exampleParser exampleFiles exampleStore
           "a.spec" "a.spec" fsnotify_Rename).
  - reflexivity.
  - reflexivity.
  - by left.
Defined.

(** ** The console: lines of plugin output *)

Import main.

Lemma strings_Count_nonneg (s : string) : 0 ≤ strings_Count s.
Proof. induction s as [|c s IH]; simpl; [done|]. case_decide; lia. Qed.

Lemma strings_Count_app (a b : string) :
  strings_Count (a +:+ b) = strings_Count a + strings_Count b.
Proof. induction a as [|c a IH]; simpl; [done|]. rewrite IH. lia. Qed.

Lemma append_cons (x : Ascii.ascii) (a b : string) :
  String x a +:+ b = String x (a +:+ b).
Proof. reflexivity. Qed.

Lemma append_assoc (a b c : string) : (a +:+ b) +:+ c = a +:+ b +:+ c.
Proof. induction a as [|x a IH]; [done|]. rewrite !append_cons. by f_equal. Qed.

Lemma strings_Split_length (s : string) :
  Z.of_nat (length (strings_Split s)) = strings_Count s + 1.
Proof.
  induction s as [|c s IH]; [done|].
  pose proof (strings_Count_nonneg s).
  cbn [strings_Split strings_Count].
  case_decide; [cbn [length]; lia|].
  destruct (strings_Split s); cbn [length] in *; lia.
Qed.

Lemma strings_Split_snoc (s : string) :
  ∃ init final, strings_Split s = init ++ [final].
Proof.
  pose proof (strings_Split_length s) as Hlen.
  pose proof (strings_Count_nonneg s).
  destruct (strings_Split s) as [|line lines] using rev_ind.
  - simpl in Hlen. lia.
  - by exists lines, line.
Qed.

Lemma strings_Split_lines (s : string) :
  Forall (λ line, strings_Count line = 0) (strings_Split s).
Proof.
  induction s as [|c s IH]; simpl; [by constructor|].
  case_decide as Hc; [by constructor|].
  destruct (strings_Split s) as [|line lines].
  - constructor; [|done]. simpl. by rewrite decide_False.
  - apply Forall_cons in IH as [Hline Hlines]. constructor; [|done].
    simpl. by rewrite decide_False.
Qed.

Lemma strings_Split_line (line : string) :
  strings_Count line = 0 → strings_Split line = [line].
Proof.
  induction line as [|c line IH]; simpl; [done|].
  pose proof (strings_Count_nonneg line). intros Hline.
  case_decide; [lia|]. by rewrite IH by lia.
Qed.

Lemma strings_Split_newline (line rest : string) :
  strings_Count line = 0 →
  strings_Split (line +:+ String newline rest) = line :: strings_Split rest.
Proof.
  induction line as [|c line IH]; simpl.
  - done.
  - pose proof (strings_Count_nonneg line). intros Hline.
    case_decide; [lia|]. by rewrite IH by lia.
Qed.

Lemma strings_Split_Join (line : string) (lines : list string) :
  Forall (λ line, strings_Count line = 0) (line :: lines) →
  strings_Split (strings_Join (line :: lines)) = line :: lines.
Proof.
  revert line. induction lines as [|next lines IH]; intros line Hall.
  - simpl. apply strings_Split_line. by apply Forall_cons in Hall as [? _].
  - apply Forall_cons in Hall as [Hline Hall].
    change (strings_Join (line :: next :: lines))
      with (line +:+ String newline (strings_Join (next :: lines))).
    rewrite strings_Split_newline by done. by rewrite IH.
Qed.

Lemma addPrefixToEachLine_unfold (writer : pluginConsoleWriter)
    (init : list string) (final : string) :
  imap (λ i line,
          if bool_decide (Z.of_nat i = Z.of_nat (length (init ++ [final])) - 1)
             && bool_decide (line = EmptyString)
          then line
          else "[" +:+ pluginName writer +:+ " Plugin] : " +:+ line)
       (init ++ [final])
  = ((λ line, prefixOf writer +:+ line) <$> init)
    ++ [if decide (final = EmptyString) then EmptyString
        else prefixOf writer +:+ final].
Proof.
  rewrite imap_app. f_equal.
  - rewrite <- (imap_const (λ line, prefixOf writer +:+ line)).
    apply imap_ext. intros i line Hi. apply lookup_lt_Some in Hi.
    rewrite length_app. simpl. rewrite bool_decide_eq_false_2 by lia. simpl.
    unfold prefixOf. by rewrite !append_assoc.
  - simpl. rewrite length_app. simpl.
    rewrite bool_decide_eq_true_2 by lia. simpl.
    case_bool_decide as Hfinal; [by subst final|].
    rewrite decide_False by done. unfold prefixOf.
    by rewrite !append_assoc.
Qed.

Lemma addPrefixToEachLine_split (writer : pluginConsoleWriter) (text : string) :
  strings_Count (pluginName writer) = 0 →
  ∃ init final,
    strings_Split text = init ++ [final]
    ∧ strings_Split (addPrefixToEachLine writer text)
      = ((λ line, prefixOf writer +:+ line) <$> init)
        ++ [if decide (final = EmptyString) then EmptyString
            else prefixOf writer +:+ final].
Proof.
  intros Hname.
  assert (Hprefix : ∀ line, strings_Count line = 0 →
                            strings_Count (prefixOf writer +:+ line) = 0).
  { intros line Hline. unfold prefixOf.
    rewrite !strings_Count_app, Hname, Hline. reflexivity. }
  unfold addPrefixToEachLine. pose proof (strings_Split_lines text) as Hlines.
  destruct (strings_Split_snoc text) as (init & final & Htext).
  rewrite Htext in *. exists init, final. split; [done|].
  rewrite addPrefixToEachLine_unfold.
  apply Forall_app in Hlines as [Hinit Hfinal].
  rewrite Forall_singleton in Hfinal.
  assert (Hall : Forall (λ line, strings_Count line = 0)
            (((λ line, prefixOf writer +:+ line) <$> init)
             ++ [if decide (final = EmptyString) then EmptyString
                 else prefixOf writer +:+ final])).
  { apply Forall_app. split.
    - apply Forall_fmap. eapply Forall_impl; [exact Hinit|]. apply Hprefix.
    - apply Forall_singleton. case_decide; [done|]. by apply Hprefix. }
  destruct (((λ line, prefixOf writer +:+ line) <$> init) ++ _)
    as [|first others] eqn:E.
  - exfalso. by eapply app_cons_not_nil.
  - by apply strings_Split_Join.
Qed.

Lemma addPrefixToEachLine_count (writer : pluginConsoleWriter) (text : string) :
  strings_Count (pluginName writer) = 0 →
  strings_Count (addPrefixToEachLine writer text) = strings_Count text.
Proof.
  intros Hname.
  destruct (addPrefixToEachLine_split writer text Hname)
    as (init & final & Htext & Hout).
  pose proof (strings_Split_length text) as Hlen.
  pose proof (strings_Split_length (addPrefixToEachLine writer text)) as Hlen'.
  rewrite Htext in Hlen. rewrite Hout in Hlen'.
  rewrite length_app in Hlen. rewrite length_app, length_fmap in Hlen'.
  cbn [length] in Hlen, Hlen'. lia.
Qed.

(** X23. For a plugin whose name has no newline, [addPrefixToEachLine] keeps the
    lines of the text: every line has the prefix of the plugin before it,
    but for an empty last line, which stays empty, so that text that ends
    in a newline still does, the empty text stays empty, and the number of
    newlines is that of the text. *)
Theorem addPrefixToEachLine_lines (writer : pluginConsoleWriter) (text : string) :
  strings_Count (pluginName writer) = 0 →
  (∃ init final,
      strings_Split text = init ++ [final]
      ∧ strings_Split (addPrefixToEachLine writer text)
        = ((λ line, prefixOf writer +:+ line) <$> init)
          ++ [if decide (final = EmptyString) then EmptyString
              else prefixOf writer +:+ final])
  ∧ strings_Count (addPrefixToEachLine writer text) = strings_Count text
  ∧ (text = EmptyString → addPrefixToEachLine writer text = EmptyString).
Proof.
  intros Hname. split; [by apply addPrefixToEachLine_split|].
  split; [by apply addPrefixToEachLine_count|]. by intros ->.
Qed.

Lemma addPrefixToEachLine_lines_witness :
  (∃ init final,
      strings_Split twoLines = init ++ [final]
      ∧ strings_Split (addPrefixToEachLine htmlReport twoLines)
        = ((λ line, prefixOf htmlReport +:+ line) <$> init)
          ++ [if decide (final = EmptyString) then EmptyString
              else prefixOf htmlReport +:+ final])
  ∧ strings_Count (addPrefixToEachLine htmlReport twoLines) = strings_Count twoLines
  ∧ (twoLines = EmptyString → addPrefixToEachLine htmlReport twoLines = EmptyString).
Proof.
  apply (addPrefixToEachLine_lines htmlReport twoLines). reflexivity.
Defined.

Lemma consoleWriter_Write_count (b : string) (writer : consoleWriter) :
  consoleWriter_Write b writer
  = ((Z.of_nat (String.length b), None),
     (if isInsideStep writer
      then mkConsoleWriter (int_add (linesAfterLastStep writer) (strings_Count b)) true
      else writer),
     [fmt_Print b]).
Proof. unfold consoleWriter_Write. by destruct (isInsideStep writer) eqn:E; rewrite ?E. Qed.

(** X24. [pluginConsoleWriter.Write] reports the length of the message that it
    was given, not of the prefixed text that it prints, and no error.  The
    console writer is made if there is none; inside a step its count grows
    by the newlines of the message, when the name of the plugin has none. *)
Theorem pluginConsoleWriter_Write_counts (writer : pluginConsoleWriter) (b : string)
    (currentConsoleWriter : option consoleWriter) :
  strings_Count (pluginName writer) = 0 →
  pluginConsoleWriter_Write writer b currentConsoleWriter
  = ((Z.of_nat (String.length b), None),
     Some (let console := getCurrentConsole currentConsoleWriter in
           if isInsideStep console
           then mkConsoleWriter
                  (int_add (linesAfterLastStep console) (strings_Count b)) true
           else console),
     [fmt_Print (addPrefixToEachLine writer b)]).
Proof.
  intros Hname. unfold pluginConsoleWriter_Write.
  rewrite consoleWriter_Write_count.
  by rewrite (addPrefixToEachLine_count writer b Hname).
Qed.

Lemma pluginConsoleWriter_Write_counts_witness :
  pluginConsoleWriter_Write htmlReport twoLines (Some (mkConsoleWriter 1 true))
  = ((11, None), Some (mkConsoleWriter 3 true),
     [fmt_Print (addPrefixToEachLine htmlReport twoLines)]).
Proof.
  apply (pluginConsoleWriter_Write_counts htmlReport twoLines
           (Some (mkConsoleWriter 1 true))).
  reflexivity.
Defined.

(** ** The console: the lines after a step *)

Lemma int_wrap_small (z : Z) : int_min ≤ z ≤ int_max → int_wrap z = z.
Proof.
  unfold int_min, int_max, int_wrap. intros Hz.
  rewrite Z.mod_small by lia. lia.
Qed.

Lemma int_add_wrap (a b : Z) : int_add (int_wrap a) b = int_wrap (a + b).
Proof.
  unfold int_add, int_wrap.
  replace ((a + 2 ^ 63) `mod` 2 ^ 64 - 2 ^ 63 + b + 2 ^ 63)
    with ((a + 2 ^ 63) `mod` 2 ^ 64 + b) by lia.
  rewrite Zplus_mod_idemp_l. f_equal. f_equal. lia.
Qed.

Lemma countAll_nonneg (values : list string) : 0 ≤ countAll values.
Proof.
  induction values as [|value rest IH]; simpl; [done|].
  pose proof (strings_Count_nonneg value). lia.
Qed.

Lemma writeStrings_inside (values : list string) (n : Z) :
  writeStrings values (mkConsoleWriter (int_wrap n) true)
  = mkConsoleWriter (int_wrap (n + countAll values)) true.
Proof.
  revert n. induction values as [|value rest IH]; intros n.
  - simpl. by rewrite Z.add_0_r.
  - change (writeStrings (value :: rest) (mkConsoleWriter (int_wrap n) true))
      with (writeStrings rest
              (mkConsoleWriter (int_add (int_wrap n) (strings_Count value)) true)).
    rewrite int_add_wrap, IH. simpl. do 2 f_equal. lia.
Qed.

Section console_steps.
Context `{Formatters}.

(** X25. When a step was written, then some strings, and then the step is
    finished, the cursor moves up and down again by the same number of
    lines: the newlines of the strings plus those of the text of the step,
    or plus one if the text has none, as far as an int holds the number.
    The writer is then outside of a step and keeps the count of the
    strings. *)
Theorem writeStepFinished_moves (s : step) (failed : bool) (values : list string)
    (writer : consoleWriter) :
  let total := countAll values + Z.max 1 (strings_Count (formatStep s)) in
  writeStepFinished s failed (writeStrings values (writeStep s writer).1)
  = (mkConsoleWriter (int_wrap (countAll values)) false,
     [cursor_Up (int_wrap total);
      Colorf (if failed then "@r%s" else "@g%s") (formatStep s);
      cursor_Down (int_wrap total)])
  ∧ (total ≤ int_max → int_wrap total = total ∧ 1 ≤ total).
Proof.
  intros total. pose proof (countAll_nonneg values).
  pose proof (strings_Count_nonneg (formatStep s)). split.
  - unfold writeStep. simpl.
    change (mkConsoleWriter 0 true) with (mkConsoleWriter (int_wrap 0) true).
    rewrite writeStrings_inside. unfold writeStepFinished. simpl.
    rewrite int_add_wrap.
    replace (0 + countAll values
             + (if decide (strings_Count (formatStep s) = 0) then 1
                else strings_Count (formatStep s)))
      with total by (unfold total; case_decide; lia).
    by destruct failed.
  - intros Hmax. split; [|lia]. apply int_wrap_small. unfold int_min. lia.
Qed.

Lemma writeItem_writer (i : item) (writer : consoleWriter) :
  (writeItem i writer).1
  = if isStepItem i then mkConsoleWriter 0 true else writer.
Proof. by destruct i. Qed.

(** X26. The comments and the tables that [writeItems] writes are not counted:
    after [writeItems] the writer is inside a step with the count zero when
    a step is among the items, and is as it was when none is.  Outside of a
    step nothing that is written changes the writer. *)
Theorem writeItems_writer (items : list item) (writer : consoleWriter)
    (value : string) :
  (writeItems items writer).1
  = (if existsb isStepItem items then mkConsoleWriter 0 true else writer)
  ∧ (isInsideStep writer = false →
     (writeString value writer).1 = writer
     ∧ (writeError value writer).1 = writer
     ∧ (writeSpecHeading value writer).1 = writer
     ∧ (writeScenarioHeading value writer).1 = writer).
Proof.
  split.
  - revert writer. induction items as [|i rest IH]; intros writer; [done|].
    simpl. pose proof (writeItem_writer i writer) as Hitem.
    destruct (writeItem i writer) as [writer1 out]. simpl in Hitem. subst writer1.
    specialize (IH (if isStepItem i then mkConsoleWriter 0 true else writer)).
    destruct (writeItems rest _) as [writer2 more]. simpl in *. subst writer2.
    destruct (isStepItem i); simpl; by destruct (existsb isStepItem rest).
  - unfold writeString, writeError, writeSpecHeading, writeScenarioHeading,
      consoleWriter_Write. by intros ->.
Qed.

End console_steps.

Lemma writeStepFinished_moves_witness :
  int_wrap (countAll [twoLines] + Z.max 1 (strings_Count "Click button"))
  = countAll [twoLines] + Z.max 1 (strings_Count "Click button")
  ∧ 1 ≤ countAll [twoLines] + Z.max 1 (strings_Count "Click button").
Proof.
  destruct (@writeStepFinished_moves plainFormatters "Click button"%string false
              [twoLines] newConsoleWriter) as [_ Hbounded].
  apply Hbounded. vm_compute. discriminate.
Defined.

Lemma writeItems_writer_witness :
  (@writeString "saved" newConsoleWriter).1 = newConsoleWriter
  ∧ (@writeError "saved" newConsoleWriter).1 = newConsoleWriter
  ∧ (@writeSpecHeading plainFormatters "saved" newConsoleWriter).1 = newConsoleWriter
  ∧ (@writeScenarioHeading plainFormatters "saved" newConsoleWriter).1
    = newConsoleWriter.
Proof.
  destruct (@writeItems_writer plainFormatters [] newConsoleWriter "saved")
    as [_ Houtside].
  apply Houtside. reflexivity.
Defined.

(** ** The plugin handler *)

Section plugin_handler.
Context `{PluginProcesses}.

Lemma notifyPlugins_from_spec (entries : list (string * plugin)) (message : Message)
    (m : gmap string plugin) :
  NoDup entries.*1 →
  (∀ id p, (id, p) ∈ entries → m !! id = Some p) →
  ∃ m',
    notifyPlugins_from entries message (mkPluginHandler m)
    = Returns (mkPluginHandler m', (filter (disconnected message) entries).*2)
    ∧ (∀ id p, (id, p) ∈ entries → disconnected message (id, p) → m' !! id = None)
    ∧ (∀ id, (∀ p, (id, p) ∈ entries → ¬ disconnected message (id, p)) →
             m' !! id = m !! id).
Proof.
  revert m. induction entries as [|[id p] rest IH]; intros m Hnodup Hentries.
  - exists m. split; [done|]. split; [|done]. intros id p Hin. by apply elem_of_nil in Hin.
  - rewrite fmap_cons in Hnodup. apply NoDup_cons in Hnodup as [Hid Hnodup].
    simpl in Hid. rewrite filter_cons. simpl.
    destruct (sendMessage p message) as [err|] eqn:Hsend.
    + rewrite decide_True by (unfold disconnected; simpl; congruence).
      unfold killPlugin. simpl.
      rewrite (Hentries id p) by apply list_elem_of_here. simpl.
      unfold removePlugin. simpl.
      destruct (IH (delete id m) Hnodup) as (m' & -> & Hgone & Hkept).
      { intros id' p' Hin. rewrite lookup_delete_ne.
        - apply Hentries. by apply list_elem_of_further.
        - intros <-. apply Hid. apply list_elem_of_fmap. by exists (id, p'). }
      simpl. exists m'. split; [done|]. split.
      * intros id' p' Hin Hdis. apply elem_of_cons in Hin as [[= -> ->]|Hin].
        -- rewrite Hkept; [apply lookup_delete_eq|].
           intros p' Hin. exfalso. apply Hid. apply list_elem_of_fmap.
           by exists (id, p').
        -- by apply (Hgone id' p').
      * intros id' Hall. rewrite Hkept.
        -- apply lookup_delete_ne. intros <-.
           apply (Hall p); [apply list_elem_of_here|].
           unfold disconnected. simpl. congruence.
        -- intros p' Hin. apply Hall. by apply list_elem_of_further.
    + rewrite decide_False by (unfold disconnected; simpl; intros Hne; by apply Hne).
      destruct (IH m Hnodup) as (m' & -> & Hgone & Hkept).
      { intros id' p' Hin. apply Hentries. by apply list_elem_of_further. }
      exists m'. split; [done|]. split.
      * intros id' p' Hin Hdis. apply elem_of_cons in Hin as [[= -> ->]|Hin].
        -- unfold disconnected in Hdis. simpl in Hdis. by destruct Hdis.
        -- by apply (Hgone id' p').
      * intros id' Hall. apply Hkept. intros p' Hin. apply Hall.
        by apply list_elem_of_further.
Qed.

(** X27. [notifyPlugins] never panics.  It kills the plugins that do not take
    the message, each one once, and the handler keeps exactly the others.
    [killPlugin] itself panics exactly on an id that the handler does not
    have, and otherwise removes the one plugin of this id. *)
Theorem notifyPlugins_keeps_connected (message : Message) (handler : pluginHandler)
    (pluginId : string) :
  notifyPlugins message handler
  = Returns
      (mkPluginHandler
         (filter (λ entry, ¬ disconnected message entry) (pluginsMap handler)),
       (filter (disconnected message) (map_to_list (pluginsMap handler))).*2)
  ∧ (killPlugin pluginId handler = Panics ↔ pluginsMap handler !! pluginId = None)
  ∧ (∀ p, pluginsMap handler !! pluginId = Some p →
          killPlugin pluginId handler
          = Returns (mkPluginHandler (delete pluginId (pluginsMap handler)), [p])).
Proof.
  split; [|split].
  - unfold notifyPlugins. destruct handler as [m]. simpl.
    destruct (notifyPlugins_from_spec (map_to_list m) message m)
      as (m' & -> & Hgone & Hkept).
    { apply NoDup_fst_map_to_list. }
    { intros id p Hin. by apply elem_of_map_to_list. }
    do 3 f_equal. apply map_eq. intros id.
    destruct (m !! id) as [p|] eqn:Hp.
    + destruct (decide (disconnected message (id, p))) as [Hdis|Hcon].
      * rewrite (Hgone id p); [|by apply elem_of_map_to_list|done].
        symmetry. apply map_lookup_filter_None. right. intros p' Hp'.
        rewrite Hp in Hp'. injection Hp' as <-. simpl. tauto.
      * rewrite Hkept, Hp.
        -- symmetry. by apply map_lookup_filter_Some.
        -- intros p' Hin. apply elem_of_map_to_list in Hin.
           rewrite Hp in Hin. by injection Hin as <-.
    + rewrite Hkept, Hp.
      * symmetry. apply map_lookup_filter_None. by left.
      * intros p' Hin. apply elem_of_map_to_list in Hin. congruence.
  - unfold killPlugin. destruct (pluginsMap handler !! pluginId); split; done.
  - intros p Hp. unfold killPlugin. by rewrite Hp.
Qed.

End plugin_handler.

(** ** The plugins of a project *)

Lemma isPluginAdded_from_added (plugins : list pluginDetails) (pd : pluginDescriptor) :
  isPluginAdded_from
    (plugins ++ [mkPluginDetails (pluginDescriptor_Id pd) (pluginDescriptor_Version pd)])
    pd = true.
Proof.
  induction plugins as [|details rest IH]; simpl.
  - by rewrite !bool_decide_eq_true_2.
  - by destruct (_ && _).
Qed.

Section plugins_of_project.
Context `{Installation}.

(** X28. [addPluginToTheProject] changes the manifest only by one entry at its
    end, and only for a plugin whose descriptor was found, that was not
    added yet, and that ran its setup; the entry is there also when saving
    the manifest fails afterwards.  Adding the same plugin once more then
    fails, and leaves the manifest as it is. *)
Theorem addPluginToTheProject_once (pluginName : string)
    (pluginArgs : gmap string string) (m m' : manifest) (err : option error) :
  addPluginToTheProject pluginName pluginArgs m = (err, m') →
  m' ≠ m →
  ∃ pd,
    getPluginDescriptor pluginName (default EmptyString (pluginArgs !! "version"%string))
    = inl pd
    ∧ isPluginAdded m pd = false
    ∧ startPlugin pd "setup" true = None
    ∧ m' = mkManifest (manifest_Language m)
             (manifest_Plugins m
              ++ [mkPluginDetails (pluginDescriptor_Id pd) (pluginDescriptor_Version pd)])
    ∧ err = save m'
    ∧ isPluginAdded m' pd = true
    ∧ addPluginToTheProject pluginName pluginArgs m'
      = (Some ("Plugin " +:+ pluginDescriptor_Name pd +:+ " is already added"), m').
Proof.
  unfold addPluginToTheProject.
  destruct (getPluginDescriptor pluginName _) as [pd|e] eqn:Hpd;
    [|by intros [= _ <-]].
  destruct (isPluginAdded m pd) eqn:Hadded; [by intros [= _ <-]|].
  destruct (startPlugin pd "setup" true) eqn:Hstart; [by intros [= _ <-]|].
  intros [= <- <-] _. exists pd.
  assert (Hnow : isPluginAdded
            (mkManifest (manifest_Language m)
               (manifest_Plugins m
                ++ [mkPluginDetails (pluginDescriptor_Id pd)
                                    (pluginDescriptor_Version pd)])) pd = true)
    by apply isPluginAdded_from_added.
  repeat split; try done. by rewrite Hnow.
Qed.

(** X29. A plugin that is installed in some version is installed when no
    version is asked for; and no plugin is installed when the directory of
    the plugins is not known. *)
Theorem isPluginInstalled_any_version (pluginName pluginVersion : string) :
  isPluginInstalled pluginName pluginVersion = true →
  isPluginInstalled pluginName EmptyString = true
  ∧ ∃ pluginsPath, GetPluginsPath = inl pluginsPath
                   ∧ DirExists (path_Join [pluginsPath; pluginName]) = true.
Proof.
  unfold isPluginInstalled.
  destruct GetPluginsPath as [pluginsPath|e]; [|done].
  destruct (DirExists (path_Join [pluginsPath; pluginName])) eqn:Hdir; [|done].
  simpl. intros _. split; [done|]. by exists pluginsPath.
Qed.

End plugins_of_project.

Lemma addPluginToTheProject_once_witness :
  ∃ pd,
    @getPluginDescriptor exampleInstallation "html-report"
      (default EmptyString ((∅ : gmap string string) !! "version"%string))
    = inl pd
    ∧ isPluginAdded javaManifest pd = false
    ∧ @startPlugin exampleInstallation pd "setup" true = None
    ∧ mkManifest "java" [mkPluginDetails "html-report" "2.1"]
      = mkManifest (manifest_Language javaManifest)
          (manifest_Plugins javaManifest
           ++ [mkPluginDetails (pluginDescriptor_Id pd) (pluginDescriptor_Version pd)])
    ∧ None = @save exampleInstallation
               (mkManifest "java" [mkPluginDetails "html-report" "2.1"])
    ∧ isPluginAdded (mkManifest "java" [mkPluginDetails "html-report" "2.1"]) pd = true
    ∧ @addPluginToTheProject exampleInstallation "html-report" ∅
        (mkManifest "java" [mkPluginDetails "html-report" "2.1"])
      = (Some ("Plugin " +:+ pluginDescriptor_Name pd +:+ " is already added"),
         mkManifest "java" [mkPluginDetails "html-report" "2.1"]).
Proof.
  apply (@addPluginToTheProject_once exampleInstallation "html-report" ∅ javaManifest
           (mkManifest "java" [mkPluginDetails "html-report" "2.1"]) None).
  - reflexivity.
  - discriminate.
Defined.

Lemma isPluginInstalled_any_version_witness :
  @isPluginInstalled exampleInstallation "html-report" EmptyString = true
  ∧ ∃ pluginsPath,
      @GetPluginsPath exampleInstallation = inl pluginsPath
      ∧ @DirExists exampleInstallation
          (@path_Join exampleInstallation [pluginsPath; "html-report"%string]) = true.
Proof.
  apply (@isPluginInstalled_any_version exampleInstallation "html-report" "2.1").
  reflexivity.
Defined.
